(** * upload_sounds.py: archive a folder, upload it over FTP, clean up

    A shallow embedding of [src/upload_sounds.py].  The script has three
    functions and a main block; everything else it does happens inside the
    Python standard library ([os.walk], [os.path], [zipfile], [ftplib]) and on
    the local disk and the remote server.  Those are modelled as an explicit
    world that the program's functions thread through a state-and-exception
    monad:

    - the local disk is a tree of directory entries over a table of
      inodes, so that two names can be hard links to one file; an inode
      carries what [zipfile] looks at (modification year, mode, whether it
      can be read) and the contents; directories that cannot be listed are
      recorded; paths are normalised component lists relative to the
      working directory (the form in which [os.path.relpath] itself
      compares paths, after [abspath(..).split(sep)]);
    - the zip library is an interface ([ZipFormat]): the container format
      may depend on the host and on the metadata of each member, the
      script only relies on its being lossless; what reading the archive
      while it is being written delivers depends on buffering and is left
      to the interface;
    - the FTP server is a record of the answers it gives; the session
      count and an event log record what the client did and in which order.

    Left out: symbolic links and special files, write and search
    permissions, a disk that fills up other than by an archive copying
    itself, and changes made to the disk by anything but the script while
    it runs. *)

From Stdlib Require Import List String Ascii Bool Arith Lia.
From Stdlib Require Import Strings.Byte.
Import ListNotations.
Local Open Scope string_scope.
Local Open Scope list_scope.

(** ** Paths and the local disk *)

Definition path := list string.
Definition bytes := list byte.

(** A directory entry names an inode (a regular file) or a directory. *)
Unset Elimination Schemes.
Inductive node : Type :=
| File (ino : nat)
| Dir (entries : list (string * node)).
Set Elimination Schemes.

(** What the script's libraries read from an inode: the year of
    [st_mtime] (local time), the permission bits of [st_mode], whether this process may open the
    file for reading, and the bytes. *)
Record inode := {
  mtime : nat;
  mode : nat;
  readable : bool;
  content : bytes
}.

Record fs := {
  tree : node;
  inodes : list (nat * inode);
  unlistable : list path;
  clock : nat
}.

(** Exceptions, under their Python names.  [error_perm] and [error_temp]
    carry the FTP reply code (530 for a rejected login, 550 for a refused
    directory or file, as [ftplib] raises them); [OSError] carries the
    [errno] (28 is [ENOSPC]). *)
Inductive exn : Type :=
| FileNotFoundError (p : path)
| IsADirectoryError (p : path)
| NotADirectoryError (p : path)
| PermissionError (p : path)
| OSError (errno : nat)
| ValueError (msg : string)
| UnicodeEncodeError (name : string)
| struct_error
| ConnectionRefusedError (host : string)
| error_temp (code : nat)
| error_perm (code : nat).

(** The spec's error taxonomy, as predicates on the Python exceptions. *)
Definition IOError (e : exn) : bool :=
  match e with
  | FileNotFoundError _ | IsADirectoryError _ | NotADirectoryError _
  | PermissionError _ | OSError _ => true
  | _ => false
  end.
Definition ConnectionError (e : exn) : bool :=
  match e with ConnectionRefusedError _ => true | _ => false end.
Definition AuthError (e : exn) : bool :=
  match e with error_perm 530 => true | _ => false end.
Definition RemoteFSError (e : exn) : bool :=
  match e with error_perm 550 => true | _ => false end.

Inductive result (A : Type) : Type :=
| Ok (a : A)
| Raise (e : exn).
Arguments Ok {A} a.
Arguments Raise {A} e.

Fixpoint find_entry (x : string) (es : list (string * node)) : option node :=
  match es with
  | [] => None
  | (y, c) :: es' => if String.eqb x y then Some c else find_entry x es'
  end.

Fixpoint set_entry (x : string) (c : node) (es : list (string * node))
  : list (string * node) :=
  match es with
  | [] => []
  | (y, d) :: es' =>
      if String.eqb x y then (y, c) :: es' else (y, d) :: set_entry x c es'
  end.

Fixpoint del_entry (x : string) (es : list (string * node))
  : list (string * node) :=
  match es with
  | [] => []
  | (y, d) :: es' =>
      if String.eqb x y then es' else (y, d) :: del_entry x es'
  end.

Fixpoint lookup_node (p : path) (n : node) : option node :=
  match p with
  | [] => Some n
  | x :: p' =>
      match n with
      | Dir es =>
          match find_entry x es with
          | Some c => lookup_node p' c
          | None => None
          end
      | File _ => None
      end
  end.

Definition lookup (p : path) (d : fs) : option node := lookup_node p (tree d).

Fixpoint find_inode (i : nat) (t : list (nat * inode)) : option inode :=
  match t with
  | [] => None
  | (j, m) :: t' => if Nat.eqb i j then Some m else find_inode i t'
  end.

Fixpoint upd_inode (i : nat) (m : inode) (t : list (nat * inode))
  : list (nat * inode) :=
  match t with
  | [] => []
  | (j, m0) :: t' =>
      if Nat.eqb i j then (j, m) :: t' else (j, m0) :: upd_inode i m t'
  end.

(** An inode number no file has. *)
Definition fresh_ino (t : list (nat * inode)) : nat :=
  S (list_max (map fst t)).

(** The inode number and the inode a path names, when it names a regular
    file. *)
Definition ino_at (p : path) (d : fs) : option nat :=
  match lookup p d with
  | Some (File i) => Some i
  | _ => None
  end.

Definition inode_at (p : path) (d : fs) : option inode :=
  match lookup p d with
  | Some (File i) => find_inode i (inodes d)
  | _ => None
  end.

(** Two paths name one file. *)
Definition same_ino (p q : path) (d : fs) : bool :=
  match ino_at p d, ino_at q d with
  | Some i, Some j => Nat.eqb i j
  | _, _ => false
  end.

(** What [open(p, 'rb').read()] sees. *)
Definition read_file (p : path) (d : fs) : result bytes :=
  match lookup p d with
  | Some (File i) =>
      match find_inode i (inodes d) with
      | Some m =>
          if readable m then Ok (content m) else Raise (PermissionError p)
      | None => Raise (FileNotFoundError p)
      end
  | Some (Dir _) => Raise (IsADirectoryError p)
  | None => Raise (FileNotFoundError p)
  end.

Definition is_file (p : path) (d : fs) : bool :=
  match lookup p d with Some (File _) => true | _ => false end.
Definition is_dir (p : path) (d : fs) : bool :=
  match lookup p d with Some (Dir _) => true | _ => false end.

(** What [os.stat] tells apart: nothing there, a directory, or a regular
    file with its contents. *)
Inductive status : Type :=
| Absent
| Directory
| Regular (data : bytes).

Definition status_of (t : list (nat * inode)) (n : option node) : status :=
  match n with
  | Some (File i) =>
      match find_inode i t with
      | Some m => Regular (content m)
      | None => Absent
      end
  | Some (Dir _) => Directory
  | None => Absent
  end.

Definition stat (p : path) (d : fs) : status :=
  status_of (inodes d) (lookup p d).

Fixpoint is_prefix (p q : path) : bool :=
  match p, q with
  | [], _ => true
  | x :: p', y :: q' => String.eqb x y && is_prefix p' q'
  | _ :: _, [] => false
  end.

Fixpoint path_eqb (p q : path) : bool :=
  match p, q with
  | [], [] => true
  | x :: p', y :: q' => String.eqb x y && path_eqb p' q'
  | _, _ => false
  end.

(** No regular file anywhere below. *)
Fixpoint no_files (n : node) : bool :=
  match n with
  | File _ => false
  | Dir es => forallb (fun e => match e with (_, c) => no_files c end) es
  end.

(** The number of regular files in a tree, and below a folder of the
    disk (none when the folder is missing or is itself a file). *)
Fixpoint count_files (n : node) : nat :=
  match n with
  | File _ => 1
  | Dir es => list_sum (map (fun e => match e with (_, c) => count_files c end) es)
  end.

Definition files_under (folder : path) (d : fs) : nat :=
  match lookup folder d with
  | Some (Dir es) => count_files (Dir es)
  | _ => 0
  end.

(** The tree after [p] was opened for writing: a regular file that is
    there stays (with its inode), a missing one is entered in its parent
    directory under the inode [i]; anything else raises.  [full] is the
    whole path, kept for the error. *)
Fixpoint link_at (full p : path) (i : nat) (n : node) : result node :=
  match p, n with
  | [], File j => Ok (File j)
  | [], Dir _ => Raise (IsADirectoryError full)
  | _ :: _, File _ => Raise (NotADirectoryError full)
  | x :: p', Dir es =>
      match find_entry x es with
      | Some child =>
          match link_at full p' i child with
          | Ok child' => Ok (Dir (set_entry x child' es))
          | Raise e => Raise e
          end
      | None =>
          match p' with
          | [] => Ok (Dir (es ++ [(x, File i)]))
          | _ :: _ => Raise (FileNotFoundError full)
          end
      end
  end.

(** Opening [p] with mode ['w+b'] and leaving [c] in it.  An existing
    regular file is truncated in place: its inode, and so every other
    name of it, gets the new contents; the mode asks for reading too, so
    an unreadable file is refused.  A missing file is created under a
    new inode when its parent directory exists. *)
Definition write_file (p : path) (c : bytes) (d : fs) : result fs :=
  match lookup p d with
  | Some (File i) =>
      match find_inode i (inodes d) with
      | Some m =>
          if readable m
          then Ok {| tree := tree d;
                     inodes :=
                       upd_inode i {| mtime := clock d; mode := mode m;
                                      readable := true; content := c |}
                                 (inodes d);
                     unlistable := unlistable d;
                     clock := clock d |}
          else Raise (PermissionError p)
      | None => Raise (FileNotFoundError p)
      end
  | Some (Dir _) => Raise (IsADirectoryError p)
  | None =>
      let i := fresh_ino (inodes d) in
      match link_at p p i (tree d) with
      | Ok t =>
          Ok {| tree := t;
                inodes :=
                  (i, {| mtime := clock d; mode := 420; readable := true;
                         content := c |}) :: inodes d;
                unlistable := unlistable d;
                clock := clock d |}
      | Raise e => Raise e
      end
  end.

(** [os.remove]: the name goes; the inode stays for its other names. *)
Fixpoint remove_at (full p : path) (n : node) : result node :=
  match p, n with
  | [], _ => Raise (IsADirectoryError full)
  | _ :: _, File _ => Raise (NotADirectoryError full)
  | x :: p', Dir es =>
      match find_entry x es with
      | None => Raise (FileNotFoundError full)
      | Some child =>
          match p' with
          | [] =>
              match child with
              | File _ => Ok (Dir (del_entry x es))
              | Dir _ => Raise (IsADirectoryError full)
              end
          | _ :: _ =>
              match remove_at full p' child with
              | Ok child' => Ok (Dir (set_entry x child' es))
              | Raise e => Raise e
              end
          end
      end
  end.

Definition remove_file (p : path) (d : fs) : result fs :=
  match remove_at p p (tree d) with
  | Ok t => Ok {| tree := t; inodes := inodes d;
                  unlistable := unlistable d; clock := clock d |}
  | Raise e => Raise e
  end.

(** ** [os.walk]

    Top-down: a directory yields [(root, dirs, files)] and then the walks
    of its subdirectories in listing order.  Anything that is not a
    directory counts as a file.  A directory that cannot be listed
    (missing, a regular file, or one the process may not read) makes
    [scandir] raise; [os.walk] is called without [onerror], so the error
    is dropped and nothing is yielded for it. *)

Definition dirs_of (es : list (string * node)) : list string :=
  flat_map (fun e => match snd e with Dir _ => [fst e] | File _ => [] end) es.
Definition files_of (es : list (string * node)) : list string :=
  flat_map (fun e => match snd e with File _ => [fst e] | Dir _ => [] end) es.

Fixpoint walk (deny : path -> bool) (top : path) (n : node) {struct n}
  : list (path * list string * list string) :=
  match n with
  | File _ => []
  | Dir es =>
      if deny top then []
      else (top, dirs_of es, files_of es)
             :: flat_map (fun e => match e with
                                   | (x, c) => walk deny (top ++ [x]) c
                                   end) es
  end.

(** The paths the two nested loops of [zip_folder] visit, in order:
    [os.path.join(root, file)] for every file of every triple. *)
Definition visited (triples : list (path * list string * list string))
  : list path :=
  flat_map (fun t => match t with
                     | (root, _, files) => map (fun f => root ++ [f]) files
                     end) triples.

Definition denied (d : fs) (p : path) : bool :=
  existsb (path_eqb p) (unlistable d).

Definition os_walk (top : path) (d : fs)
  : list (path * list string * list string) :=
  match lookup top d with
  | Some (Dir es) => walk (denied d) top (Dir es)
  | _ => []
  end.

(** Every directory at or below [folder] can be listed. *)
Definition listable_under (folder : path) (d : fs) : bool :=
  forallb (fun q => negb (is_prefix folder q)) (unlistable d).

(** The file [zip] names is one the walk of [folder] reaches, under its
    own name or as a hard link. *)
Definition walk_reaches (folder zip : path) (d : fs) : bool :=
  existsb (fun p => same_ino p zip d) (visited (os_walk folder d)).

(** ** [os.path]

    The host's path conventions: [os.sep] and [os.altsep]. *)
Class OsPath := {
  sep : ascii;
  altsep : option ascii
}.

Definition posixpath : OsPath := {| sep := "/"; altsep := None |}.
Definition ntpath : OsPath := {| sep := "\"; altsep := Some "/"%char |}.

(** Splitting a path string into its components, dropping empty ones and
    ["."] (what [normpath] does to a path without [".."]).  Used to read
    the configuration constants, which are written with ["/"]. *)
Fixpoint split_on (c : ascii) (acc s : string) : list string :=
  match s with
  | EmptyString => [acc]
  | String a s' =>
      if Ascii.eqb a c then acc :: split_on c "" s'
      else split_on c (acc ++ String a "") s'
  end.

Definition path_of (s : string) : path :=
  filter (fun x => negb (String.eqb x "" || String.eqb x ".")) (split_on "/" "" s).

(** Whether a name, as the bytes the file system keeps, is well-formed
    UTF-8.  Python decodes names with [surrogateescape]; a name that is
    not UTF-8 becomes a string with lone surrogates, which
    [ZipInfo._encodeFilenameFlags] can encode neither as ASCII nor as
    UTF-8. *)
Definition byte_in (lo hi : nat) (c : ascii) : bool :=
  Nat.leb lo (nat_of_ascii c) && Nat.leb (nat_of_ascii c) hi.

Definition lead3 (a b : ascii) : bool :=
  (byte_in 224 224 a && byte_in 160 191 b)
  || (byte_in 225 236 a && byte_in 128 191 b)
  || (byte_in 237 237 a && byte_in 128 159 b)
  || (byte_in 238 239 a && byte_in 128 191 b).

Definition lead4 (a b : ascii) : bool :=
  (byte_in 240 240 a && byte_in 144 191 b)
  || (byte_in 241 243 a && byte_in 128 191 b)
  || (byte_in 244 244 a && byte_in 128 143 b).

Fixpoint utf8_valid (s : string) : bool :=
  match s with
  | EmptyString => true
  | String a s1 =>
      if byte_in 0 127 a then utf8_valid s1
      else
        match s1 with
        | EmptyString => false
        | String b s2 =>
            if byte_in 194 223 a then byte_in 128 191 b && utf8_valid s2
            else
              match s2 with
              | EmptyString => false
              | String c s3 =>
                  if lead3 a b then byte_in 128 191 c && utf8_valid s3
                  else
                    match s3 with
                    | EmptyString => false
                    | String d s4 =>
                        lead4 a b && byte_in 128 191 c && byte_in 128 191 d
                        && utf8_valid s4
                    end
              end
        end
  end.

Section OsPathFunctions.
Context {os : OsPath}.

(** [os.path.join(root, file)] for a single file name. *)
Definition join (root : path) (file : string) : path := root ++ [file].

Fixpoint common_prefix_len (a b : path) : nat :=
  match a, b with
  | x :: a', y :: b' =>
      if String.eqb x y then S (common_prefix_len a' b') else 0
  | _, _ => 0
  end.

(** [os.path.relpath(path, start)]: drop the common prefix, climb out of
    what is left of [start], descend into what is left of [path], and
    join with the host separator. *)
Definition rel_list (p start : path) : path :=
  let i := common_prefix_len start p in
  repeat ".." (List.length start - i) ++ skipn i p.

Definition relpath (p start : path) : string :=
  match rel_list p start with
  | [] => "."
  | rel => String.concat (String sep "") rel
  end.

(** The entry name [ZipInfo] keeps for an [arcname]: leading separators
    are stripped, and [os.sep] is replaced by ["/"] when it is not
    ["/"] already.  ([normpath] comes first in the library; it leaves the
    strings [relpath] returns as they are.) *)
Definition is_sep (c : ascii) : bool :=
  Ascii.eqb c sep
  || match altsep with Some a => Ascii.eqb c a | None => false end.

Fixpoint strip_leading (s : string) : string :=
  match s with
  | EmptyString => EmptyString
  | String c s' => if is_sep c then strip_leading s' else s
  end.

Fixpoint replace_sep (s : string) : string :=
  match s with
  | EmptyString => EmptyString
  | String c s' =>
      String (if Ascii.eqb c sep then "/"%char else c) (replace_sep s')
  end.

Definition zip_name (arcname : string) : string :=
  replace_sep (strip_leading arcname).

(** A name a directory can list on this host. *)
Fixpoint no_seps (s : string) : bool :=
  match s with
  | EmptyString => true
  | String c s' => negb (is_sep c || Ascii.eqb c "/") && no_seps s'
  end.

Definition valid_name (s : string) : bool :=
  negb (String.eqb s "") && negb (String.eqb s ".")
  && negb (String.eqb s "..") && no_seps s.

Fixpoint nodupb (l : list string) : bool :=
  match l with
  | [] => true
  | x :: l' => negb (existsb (String.eqb x) l') && nodupb l'
  end.

(** A tree as a file system presents it: a directory lists each name
    once, and names are names. *)
Fixpoint wf_node (n : node) : bool :=
  match n with
  | File _ => true
  | Dir es =>
      nodupb (map fst es)
      && forallb (fun e => match e with
                           | (x, c) => valid_name x && wf_node c
                           end) es
  end.

(** The inode numbers a tree refers to. *)
Fixpoint inos_of (n : node) : list nat :=
  match n with
  | File i => [i]
  | Dir es => flat_map (fun e => match e with (_, c) => inos_of c end) es
  end.

(** A disk as a file system presents it: a well-formed tree in which
    every regular file has its inode. *)
Definition wf_fs (d : fs) : bool :=
  wf_node (tree d)
  && forallb (fun i => existsb (Nat.eqb i) (map fst (inodes d)))
             (inos_of (tree d)).

(** What [zipf.write] needs of a file to store it under [name]: a
    modification time [ZipInfo] accepts (not before 1980) and the DOS date
    of the header can hold (not after 2107), permission to read it, and a
    name that encodes. *)
Definition zippable (name : string) (m : inode) : bool :=
  Nat.leb 1980 (mtime m) && Nat.leb (mtime m) 2107
  && readable m && utf8_valid name.

(** Every file the walk of [folder] reaches can be stored under the
    name [zip_folder] gives it. *)
Definition all_zippable (folder : path) (d : fs) : bool :=
  forallb (fun p => match inode_at p d with
                    | Some m => zippable (zip_name (relpath p folder)) m
                    | None => false
                    end)
          (visited (os_walk folder d)).
End OsPathFunctions.

(** ** The zip library

    What [zipf.write] records for a member: its name, the deflated data,
    and the modification year and mode taken from [os.stat].  An archive
    read back is a list of entries: a name and the deflated data.  The
    library supplies the compression and the container format, whose
    bytes also depend on the host ([create_system]); the script only
    depends on their being lossless.

    [zip_self_copy] is what comes of [zipf.write] when the file to store
    is the archive being written: the copy loop reads the members already
    flushed to it while it appends, and either reaches the end of file
    ([inl], with the data read) or feeds on its own output until the disk
    is full ([inr], with what is left in the file).  Which of the two, and
    the bytes, depend on buffer sizes and on the compression. *)
Record zrecord := {
  zr_name : string;
  zr_data : bytes;
  zr_mtime : nat;
  zr_mode : nat
}.

Definition zentry : Type := string * bytes.

Definition entry_of_record (r : zrecord) : zentry := (zr_name r, zr_data r).

Class ZipFormat := {
  deflate : bytes -> bytes;
  inflate : bytes -> option bytes;
  zip_image_on : OsPath -> list zrecord -> bytes;
  zip_parse : bytes -> option (list zentry);
  zip_self_copy : OsPath -> list zrecord -> string -> bytes + bytes
}.

Definition zip_image {os : OsPath} {zf : ZipFormat} (rs : list zrecord)
  : bytes :=
  zip_image_on os rs.

Class ZipLossless (zf : ZipFormat) : Prop := {
  inflate_deflate : forall b, inflate (deflate b) = Some b;
  zip_parse_image :
    forall os rs, zip_parse (zip_image_on os rs) = Some (map entry_of_record rs)
}.

(** A small format that satisfies the interface, to run the model on
    concrete trees: data is stored as it is (the zip method [ZIP_STORED]),
    and the container is a count followed by length-prefixed names and
    data, lengths in unary.  An archive that copies itself reads the
    members written before. *)
Module Stored.
Definition encode_nat (n : nat) : bytes := repeat x01 n ++ [x00].

Fixpoint parse_nat (l : bytes) : option (nat * bytes) :=
  match l with
  | [] => None
  | b :: l' =>
      if Byte.eqb b x00 then Some (0, l')
      else match parse_nat l' with
           | Some (n, r) => Some (S n, r)
           | None => None
           end
  end.

Definition encode_block (b : bytes) : bytes :=
  encode_nat (List.length b) ++ b.

Definition parse_block (l : bytes) : option (bytes * bytes) :=
  match parse_nat l with
  | Some (n, r) =>
      if Nat.ltb (List.length r) n then None else Some (firstn n r, skipn n r)
  | None => None
  end.

Definition encode_entry (e : zentry) : bytes :=
  encode_block (list_byte_of_string (fst e)) ++ encode_block (snd e).

Fixpoint parse_entries (n : nat) (l : bytes) : option (list zentry * bytes) :=
  match n with
  | 0 => Some ([], l)
  | S n' =>
      match parse_block l with
      | Some (name, r1) =>
          match parse_block r1 with
          | Some (data, r2) =>
              match parse_entries n' r2 with
              | Some (es, r3) =>
                  Some ((string_of_list_byte name, data) :: es, r3)
              | None => None
              end
          | None => None
          end
      | None => None
      end
  end.

Definition image (es : list zentry) : bytes :=
  encode_nat (List.length es) ++ flat_map encode_entry es.

Definition parse (l : bytes) : option (list zentry) :=
  match parse_nat l with
  | Some (n, r) =>
      match parse_entries n r with
      | Some (es, []) => Some es
      | _ => None
      end
  | None => None
  end.

Definition format : ZipFormat :=
  {| deflate := fun b => b;
     inflate := fun b => Some b;
     zip_image_on := fun _ rs => image (map entry_of_record rs);
     zip_parse := parse;
     zip_self_copy :=
       fun _ rs _ => inl (flat_map encode_entry (map entry_of_record rs)) |}.
End Stored.

(** ** The remote server and the world

    [reachable]: the constructor [FTP(host)] gets its connection and a
    greeting.  When it does not, [bad_greeting] tells how: [None] is a
    connection that was never made, [Some code] a connection that was
    made and then answered with the error reply [code].  [stor_refused]
    is the error reply to the upload, if any, and [stor_keeps] what the
    server has kept of the data by then: [None] when the transfer never
    started, [Some n] the first [n] bytes. *)

Record server := {
  reachable : bool;
  bad_greeting : option nat;
  accounts : list (string * string);
  dirs : list string;
  stor_refused : option nat;
  stor_keeps : option nat;
  stored : list (string * string * bytes)
}.

Definition accepts (s : server) (user pass : string) : bool :=
  existsb (fun a => String.eqb user (fst a) && String.eqb pass (snd a))
          (accounts s).
Definition has_dir (s : server) (d : string) : bool :=
  existsb (String.eqb d) (dirs s).

Definition same_file (d n : string) (f : string * string * bytes) : bool :=
  String.eqb d (fst (fst f)) && String.eqb n (snd (fst f)).

Definition put_remote (d n : string) (b : bytes) (s : server) : server :=
  {| reachable := reachable s;
     bad_greeting := bad_greeting s;
     accounts := accounts s;
     dirs := dirs s;
     stor_refused := stor_refused s;
     stor_keeps := stor_keeps s;
     stored := (d, n, b) :: filter (fun f => negb (same_file d n f)) (stored s) |}.

(** The exception [ftplib] raises for an error reply: [error_temp] for
    4xx, [error_perm] for 5xx. *)
Definition reply_error (code : nat) : exn :=
  if Nat.ltb code 500 then error_temp code else error_perm code.

Inductive event : Type :=
| EvPrint (msg : string)
| EvOpenWrite (p : path)
| EvWalk (top : path)
| EvZipWrite (p : path) (arcname : string)
| EvZipClose (p : path)
| EvConnect (host : string)
| EvLogin (user : string)
| EvCwd (dir : string)
| EvOpenRead (p : path)
| EvStor (name : string)
| EvClose
| EvRemove (p : path).

Definition is_zip_write (e : event) : Prop :=
  match e with EvZipWrite _ _ => True | _ => False end.
Definition no_remove (e : event) : Prop :=
  match e with EvRemove _ => False | _ => True end.

(** [zip_buffer] holds the members written through the open [ZipFile];
    [zip_wreck] is set when a copy of the archive into itself did not
    end, to what is left in the file. *)
Record world := {
  disk : fs;
  zip_buffer : list zrecord;
  zip_wreck : option bytes;
  net : server;
  sessions : nat;
  remote_cwd : string;
  log : list event
}.

Definition set_disk (d : fs) (w : world) : world :=
  {| disk := d; zip_buffer := zip_buffer w; zip_wreck := zip_wreck w;
     net := net w; sessions := sessions w; remote_cwd := remote_cwd w;
     log := log w |}.
Definition set_zip_buffer (b : list zrecord) (w : world) : world :=
  {| disk := disk w; zip_buffer := b; zip_wreck := zip_wreck w;
     net := net w; sessions := sessions w; remote_cwd := remote_cwd w;
     log := log w |}.
Definition set_zip_wreck (g : option bytes) (w : world) : world :=
  {| disk := disk w; zip_buffer := zip_buffer w; zip_wreck := g;
     net := net w; sessions := sessions w; remote_cwd := remote_cwd w;
     log := log w |}.
Definition set_net (s : server) (w : world) : world :=
  {| disk := disk w; zip_buffer := zip_buffer w; zip_wreck := zip_wreck w;
     net := s; sessions := sessions w; remote_cwd := remote_cwd w;
     log := log w |}.
Definition set_sessions (k : nat) (w : world) : world :=
  {| disk := disk w; zip_buffer := zip_buffer w; zip_wreck := zip_wreck w;
     net := net w; sessions := k; remote_cwd := remote_cwd w;
     log := log w |}.
Definition set_remote_cwd (d : string) (w : world) : world :=
  {| disk := disk w; zip_buffer := zip_buffer w; zip_wreck := zip_wreck w;
     net := net w; sessions := sessions w; remote_cwd := d;
     log := log w |}.
Definition add_log (e : event) (w : world) : world :=
  {| disk := disk w; zip_buffer := zip_buffer w; zip_wreck := zip_wreck w;
     net := net w; sessions := sessions w; remote_cwd := remote_cwd w;
     log := log w ++ [e] |}.

(** ** The monad: state that survives exceptions *)

Definition M (A : Type) : Type := world -> result A * world.

Definition ret {A} (a : A) : M A := fun w => (Ok a, w).
Definition raise {A} (e : exn) : M A := fun w => (Raise e, w).
Definition bind {A B} (m : M A) (k : A -> M B) : M B :=
  fun w =>
    match m w with
    | (Ok a, w1) => k a w1
    | (Raise e, w1) => (Raise e, w1)
    end.

Declare Scope prog_scope.
Delimit Scope prog_scope with prog.
Notation "x <- m ;; k" := (bind m (fun x => k))
  (at level 61, m at next level, right associativity) : prog_scope.
Notation "m ;; k" := (bind m (fun _ => k))
  (at level 61, right associativity) : prog_scope.
Local Open Scope prog_scope.

(** [try: body finally: cleanup], which is what leaving a [with] block
    does: the cleanup runs on either outcome, and an exception of its own
    replaces the body's. *)
Definition finally {A} (body : M A) (cleanup : M unit) : M A :=
  fun w =>
    match body w with
    | (r, w1) =>
        match cleanup w1 with
        | (Ok _, w2) => (r, w2)
        | (Raise e, w2) => (Raise e, w2)
        end
    end.

Fixpoint for_each {A} (l : list A) (body : A -> M unit) : M unit :=
  match l with
  | [] => ret tt
  | x :: l' => body x ;; for_each l' body
  end.

Definition emit (e : event) : M unit := fun w => (Ok tt, add_log e w).
Definition print (msg : string) : M unit := emit (EvPrint msg).

Definition on_disk (f : fs -> result fs) : M unit :=
  fun w =>
    match f (disk w) with
    | Ok d => (Ok tt, set_disk d w)
    | Raise e => (Raise e, w)
    end.

(** [open(p, 'rb')]: the bytes the file object will deliver. *)
Definition open_rb (p : path) : M bytes :=
  emit (EvOpenRead p) ;;
  fun w => match read_file p (disk w) with
           | Ok b => (Ok b, w)
           | Raise e => (Raise e, w)
           end.

Definition os_remove (p : path) : M unit :=
  emit (EvRemove p) ;; on_disk (remove_file p).

Section Program.
Context {os : OsPath} {zf : ZipFormat}.

(** *** [zipfile.ZipFile]

    Mode ['w'] creates or truncates the file at once.  What is written
    through the object is kept in [zip_buffer]; its image reaches the
    disk when the object is closed, which leaving the [with] block always
    does.  The object is known by the path it was opened at. *)
Definition ZipFile_open (zip_path : path) : M path :=
  emit (EvOpenWrite zip_path) ;;
  on_disk (write_file zip_path []) ;;
  fun w => (Ok zip_path, set_zip_wreck None (set_zip_buffer [] w)).

(** After a copy that filled the disk the central directory cannot be
    written either: the file keeps what was in it and [close] raises. *)
Definition ZipFile_close (zipf : path) : M unit :=
  let zip_path := zipf in
  emit (EvZipClose zip_path) ;;
  fun w =>
    match zip_wreck w with
    | None =>
        match write_file zip_path (zip_image (zip_buffer w)) (disk w) with
        | Ok d => (Ok tt, set_zip_buffer [] (set_disk d w))
        | Raise e => (Raise e, set_zip_buffer [] w)
        end
    | Some rest =>
        match write_file zip_path rest (disk w) with
        | Ok d =>
            (Raise (OSError 28),
             set_zip_wreck None (set_zip_buffer [] (set_disk d w)))
        | Raise e => (Raise e, set_zip_wreck None (set_zip_buffer [] w))
        end
    end.

(** What [zipf.write(file_path, arcname)] comes to, in the order the
    library goes about it: [ZipInfo.from_file] stats the file and refuses
    a modification time before 1980; the file is opened for reading; the
    member's header is built, which encodes the name and packs the date
    into sixteen bits; then the data is copied.  Nothing is recorded for a
    member that fails.  ([os.walk] hands the loop no directory; what the
    library does with one, an entry of its own without data, is not
    modelled: a directory is refused here.) *)
Inductive written : Type :=
| Added (r : zrecord)
| Failed (e : exn)
| Wrecked (rest : bytes).

Definition zip_member (zipf : path) (members : list zrecord)
    (file_path : path) (arcname : string) (d : fs) : written :=
  match lookup file_path d with
  | Some (File i) =>
      match find_inode i (inodes d) with
      | Some m =>
          let name := zip_name arcname in
          if Nat.ltb (mtime m) 1980
          then Failed (ValueError "ZIP does not support timestamps before 1980")
          else if negb (readable m) then Failed (PermissionError file_path)
          else if negb (utf8_valid name) then Failed (UnicodeEncodeError name)
          else if Nat.ltb 2107 (mtime m) then Failed struct_error
          else if same_ino file_path zipf d
          then match zip_self_copy os members name with
               | inl b =>
                   Added {| zr_name := name; zr_data := deflate b;
                            zr_mtime := mtime m; zr_mode := mode m |}
               | inr rest => Wrecked rest
               end
          else Added {| zr_name := name; zr_data := deflate (content m);
                        zr_mtime := mtime m; zr_mode := mode m |}
      | None => Failed (FileNotFoundError file_path)
      end
  | Some (Dir _) => Failed (IsADirectoryError file_path)
  | None => Failed (FileNotFoundError file_path)
  end.

Definition ZipFile_write (zipf file_path : path) (arcname : string) : M unit :=
  emit (EvZipWrite file_path arcname) ;;
  fun w =>
    match zip_member zipf (zip_buffer w) file_path arcname (disk w) with
    | Added r => (Ok tt, set_zip_buffer (zip_buffer w ++ [r]) w)
    | Failed e => (Raise e, w)
    | Wrecked rest => (Raise (OSError 28), set_zip_wreck (Some rest) w)
    end.

(** The generator is lazy in Python; the loop body never changes a
    directory listing, so the triples can be taken at once. *)
Definition walk_now (top : path) : M (list (path * list string * list string)) :=
  emit (EvWalk top) ;;
  fun w => (Ok (os_walk top (disk w)), w).

(** *** Step 1: [zip_folder] *)
Definition zip_folder (folder_path zip_path : path) : M unit :=
  zipf <- ZipFile_open zip_path ;;
  finally
    (triples <- walk_now folder_path ;;
     for_each triples (fun t =>
       match t with
       | (root, dirs, files) =>
           for_each files (fun file =>
             let file_path := join root file in
             let arcname := relpath file_path folder_path in
             ZipFile_write zipf file_path arcname)
       end))
    (ZipFile_close zipf).

(** What one round of the inner loop does to the path [p], and the
    member and entry it leaves in the archive when [p] can be stored. *)
Definition zip_one (folder_path zip_path p : path) : M unit :=
  ZipFile_write zip_path p (relpath p folder_path).

Definition record_of (d : fs) (folder_path p : path) : zrecord :=
  {| zr_name := zip_name (relpath p folder_path);
     zr_data := deflate (match inode_at p d with
                         | Some m => content m
                         | None => []
                         end);
     zr_mtime := match inode_at p d with Some m => mtime m | None => 0 end;
     zr_mode := match inode_at p d with Some m => mode m | None => 0 end |}.

Definition entry_of (d : fs) (folder_path p : path) : zentry :=
  (zip_name (relpath p folder_path),
   deflate (match read_file p d with Ok b => b | Raise _ => [] end)).

(** The entries of the archive stored at [p], if there is one. *)
Definition read_archive (p : path) (d : fs) : option (list zentry) :=
  match read_file p d with
  | Ok b => zip_parse b
  | Raise _ => None
  end.

(** *** Configuration *)
Definition FTP_HOST := "ftp.example.com".
Definition FTP_USER := "your_username".
Definition FTP_PASS := "your_password".
Definition REMOTE_DIR := "/path/to/remote/dir".
Definition LOCAL_DIR := "./dist/sounds".
Definition ZIP_FILE := "sounds.zip".

(** *** [ftplib.FTP]

    The constructor connects and reads the greeting.  It returns with an
    open session; or the connection is not made and it raises with none;
    or the connection is made and the greeting is an error reply, and it
    raises with the socket still open, which nothing closes since the
    [with] block is never entered.  Each command is logged when it is
    sent; the server's record decides the answer. *)
Definition FTP (host : string) : M unit :=
  emit (EvConnect host) ;;
  fun w =>
    if reachable (net w) then (Ok tt, set_sessions (S (sessions w)) w)
    else match bad_greeting (net w) with
         | None => (Raise (ConnectionRefusedError host), w)
         | Some code =>
             (Raise (reply_error code), set_sessions (S (sessions w)) w)
         end.

(** [FTP.__exit__]: [quit], whose socket errors are swallowed, then
    [close] in a [finally].  The session is gone afterwards whatever
    [quit] met; a server that answers [QUIT] with an error reply, which
    would surface as an exception of the exit itself, is left out. *)
Definition FTP_exit : M unit :=
  emit EvClose ;;
  fun w => (Ok tt, set_sessions (pred (sessions w)) w).

Definition login (user pass : string) : M unit :=
  emit (EvLogin user) ;;
  fun w =>
    if accepts (net w) user pass then (Ok tt, w)
    else (Raise (error_perm 530), w).

Definition cwd (dir : string) : M unit :=
  emit (EvCwd dir) ;;
  fun w =>
    if has_dir (net w) dir then (Ok tt, set_remote_cwd dir w)
    else (Raise (error_perm 550), w).

(** [storbinary] sends the command, then all the data, and only then
    reads the server's final reply: when that is an error the server may
    already hold the file, whole or in part. *)
Definition storbinary (name : string) (f : bytes) : M unit :=
  emit (EvStor name) ;;
  fun w =>
    match stor_refused (net w) with
    | None => (Ok tt, set_net (put_remote (remote_cwd w) name f (net w)) w)
    | Some code =>
        (Raise (reply_error code),
         match stor_keeps (net w) with
         | None => w
         | Some n =>
             set_net (put_remote (remote_cwd w) name (firstn n f) (net w)) w
         end)
    end.

(** *** Step 2: [upload_to_ftp] *)
Definition upload_to_ftp (zip_path : path) : M unit :=
  FTP FTP_HOST ;;
  finally
    (login FTP_USER FTP_PASS ;;
     cwd REMOTE_DIR ;;
     f <- open_rb zip_path ;;
     storbinary ZIP_FILE f)
    FTP_exit.

(** The world after [FTP.__exit__]. *)
Definition closed (w : world) : world :=
  set_sessions (pred (sessions w)) (add_log EvClose w).

(** The commands [upload_to_ftp] issues when nothing goes wrong, in
    order. *)
Definition upload_script (zip_path : path) : list event :=
  [EvConnect FTP_HOST; EvLogin FTP_USER; EvCwd REMOTE_DIR;
   EvOpenRead zip_path; EvStor ZIP_FILE].

(** *** Step 3: [unzip_on_server] *)
Definition unzip_on_server : M unit :=
  print "Unzipping on the server must be handled server-side, e.g., via SSH or a server script.".

(** *** The main block *)
Definition main : M unit :=
  print "Zipping folder..." ;;
  zip_folder (path_of LOCAL_DIR) (path_of ZIP_FILE) ;;
  print "Uploading zip file to FTP server..." ;;
  upload_to_ftp (path_of ZIP_FILE) ;;
  print "Unzipping on the server..." ;;
  unzip_on_server ;;
  print "Cleaning up local zip file..." ;;
  os_remove (path_of ZIP_FILE).
End Program.

(** ** Concrete worlds

    The tree of the spec's end-to-end scenario, [a.txt] ("hello") and
    [sub/b.txt] ("world") under [./dist/sounds], and a server that accepts
    the configured account and directory. *)
Module Demo.
Definition hello : bytes := list_byte_of_string "hello".
Definition world_ : bytes := list_byte_of_string "world".

(** A readable regular file of mode 0644, last modified in 2024. *)
Definition file_with (b : bytes) : inode :=
  {| mtime := 2024; mode := 420; readable := true; content := b |}.

(** A disk with the given tree and inodes, every directory listable. *)
Definition disk_of (n : node) (t : list (nat * inode)) : fs :=
  {| tree := n; inodes := t; unlistable := []; clock := 2025 |}.

Definition sounds : node :=
  Dir [("a.txt", File 1); ("sub", Dir [("b.txt", File 2)])].

Definition cwd_tree : fs :=
  disk_of (Dir [("dist", Dir [("sounds", sounds)])])
          [(1, file_with hello); (2, file_with world_)].

Definition good_server : server :=
  {| reachable := true;
     bad_greeting := None;
     accounts := [(FTP_USER, FTP_PASS)];
     dirs := ["/"; REMOTE_DIR];
     stor_refused := None;
     stor_keeps := None;
     stored := [] |}.

Definition unreachable_server : server :=
  {| reachable := false; bad_greeting := None; accounts := []; dirs := [];
     stor_refused := None; stor_keeps := None; stored := [] |}.

(** A server that takes the connection and answers it with
    [421 Too many connections]. *)
Definition busy_server : server :=
  {| reachable := false; bad_greeting := Some 421;
     accounts := [(FTP_USER, FTP_PASS)]; dirs := ["/"; REMOTE_DIR];
     stor_refused := None; stor_keeps := None; stored := [] |}.

(** A server that takes the login but has no such directory. *)
Definition server_without_dir : server :=
  {| reachable := true;
     bad_greeting := None;
     accounts := [(FTP_USER, FTP_PASS)];
     dirs := ["/"];
     stor_refused := None;
     stor_keeps := None;
     stored := [] |}.

(** A server that takes the whole upload and then answers
    [552 Exceeded storage allocation], keeping the first three bytes. *)
Definition full_server : server :=
  {| reachable := true;
     bad_greeting := None;
     accounts := [(FTP_USER, FTP_PASS)];
     dirs := ["/"; REMOTE_DIR];
     stor_refused := Some 552;
     stor_keeps := Some 3;
     stored := [] |}.

(** An empty disk, an empty folder [d], and the same with an old archive
    in it. *)
Definition empty_disk : fs := disk_of (Dir []) [].
Definition empty_folder : fs := disk_of (Dir [("d", Dir [])]) [].
Definition folder_with_archive : fs :=
  disk_of (Dir [("d", Dir [("o.zip", File 1)])])
          [(1, file_with (list_byte_of_string "old"))].

(** The scenario's tree with a third file whose name is the single byte
    [0xff] followed by [.txt], which is not UTF-8; the same with a file
    last modified in 1979 instead; and the scenario's tree with
    [sounds.zip] next to [dist], a second name of [a.txt]. *)
Definition odd_name : string := String (ascii_of_nat 255) ".txt".

Definition tree_with_odd_name : fs :=
  disk_of (Dir [("dist", Dir [("sounds",
             Dir [("a.txt", File 1); (odd_name, File 3);
                  ("sub", Dir [("b.txt", File 2)])])])])
          [(1, file_with hello); (2, file_with world_);
           (3, file_with hello)].

Definition tree_with_old_file : fs :=
  disk_of (Dir [("dist", Dir [("sounds",
             Dir [("a.txt", File 1); ("old.txt", File 3);
                  ("sub", Dir [("b.txt", File 2)])])])])
          [(1, file_with hello); (2, file_with world_);
           (3, {| mtime := 1979; mode := 420; readable := true;
                  content := hello |})].

Definition tree_with_link : fs :=
  disk_of (Dir [("dist", Dir [("sounds", sounds)]); ("sounds.zip", File 1)])
          [(1, file_with hello); (2, file_with world_)].

(** The scenario's tree with [sub] closed to listing. *)
Definition tree_with_closed_sub : fs :=
  {| tree := Dir [("dist", Dir [("sounds", sounds)])];
     inodes := [(1, file_with hello); (2, file_with world_)];
     unlistable := [["dist"; "sounds"; "sub"]];
     clock := 2025 |}.

(** The disk as it is once an archive was opened for writing at [p]. *)
Definition opened (p : path) (d : fs) : fs :=
  match write_file p [] d with
  | Ok d1 => d1
  | Raise _ => d
  end.

Definition start (d : fs) (s : server) : world :=
  {| disk := d; zip_buffer := []; zip_wreck := None; net := s;
     sessions := 0; remote_cwd := "/"; log := [] |}.

(** The scenario's world, its folder, and two places for the archive:
    next to the folder (as the main block has it) and inside it. *)
Definition w0 : world := start cwd_tree good_server.
Definition folder : path := ["dist"; "sounds"].
Definition zip_outside : path := ["sounds.zip"].
Definition zip_inside : path := ["dist"; "sounds"; "o.zip"].
End Demo.

(** ** Induction over trees *)
Section NodeInduction.
Variable P : node -> Prop.
Hypothesis P_file : forall i, P (File i).
Hypothesis P_dir :
  forall es, Forall (fun e => P (snd e)) es -> P (Dir es).

Fixpoint node_ind (n : node) : P n :=
  match n with
  | File i => P_file i
  | Dir es =>
      P_dir es
        ((fix go (l : list (string * node))
            : Forall (fun e => P (snd e)) l :=
            match l with
            | [] => Forall_nil _
            | e :: l' =>
                Forall_cons e
                  (match e as e0 return P (snd e0) with
                   | (_, c) => node_ind c
                   end)
                  (go l')
            end) es)
  end.
End NodeInduction.

(** * Properties *)

(** ** Directory listings *)

Lemma find_entry_set_entry x y c es :
  find_entry y (set_entry x c es) =
  if String.eqb y x
  then match find_entry x es with Some _ => Some c | None => None end
  else find_entry y es.
Proof.
  induction es as [|[z d] es IH]; simpl.
  - destruct (String.eqb y x); reflexivity.
  - destruct (String.eqb x z) eqn:Exz; simpl.
    + apply String.eqb_eq in Exz; subst z.
      destruct (String.eqb y x); reflexivity.
    + destruct (String.eqb y z) eqn:Eyz.
      * apply String.eqb_eq in Eyz; subst z.
        destruct (String.eqb y x) eqn:Eyx; [|reflexivity].
        apply String.eqb_eq in Eyx; subst y.
        rewrite String.eqb_refl in Exz; discriminate.
      * exact IH.
Qed.

Lemma find_entry_app y es es' :
  find_entry y (es ++ es') =
  match find_entry y es with Some c => Some c | None => find_entry y es' end.
Proof.
  induction es as [|[z d] es IH]; simpl; [reflexivity|].
  destruct (String.eqb y z); [reflexivity|exact IH].
Qed.

Lemma find_entry_In x c es : find_entry x es = Some c -> In (x, c) es.
Proof.
  induction es as [|[z d] es IH]; simpl; [discriminate|].
  destruct (String.eqb x z) eqn:E.
  - apply String.eqb_eq in E; subst z. intros [= ->]. now left.
  - intros H. right. auto.
Qed.

Lemma find_entry_None x es :
  find_entry x es = None -> existsb (String.eqb x) (map fst es) = false.
Proof.
  induction es as [|[z d] es IH]; simpl; [reflexivity|].
  destruct (String.eqb x z); [discriminate|]. exact IH.
Qed.

Lemma map_fst_set_entry x c es : map fst (set_entry x c es) = map fst es.
Proof.
  induction es as [|[z d] es IH]; simpl; [reflexivity|].
  destruct (String.eqb x z); simpl; [reflexivity|]. now rewrite IH.
Qed.

(** ** Looking up and writing *)

Lemma set_entry_same x c es :
  find_entry x es = Some c -> set_entry x c es = es.
Proof.
  induction es as [|[z d] es IH]; simpl; [reflexivity|].
  destruct (String.eqb x z) eqn:E.
  - intros [= ->]. reflexivity.
  - intros H. now rewrite IH.
Qed.

(** ** Looking up and writing *)

Lemma lookup_node_app p q n :
  lookup_node (p ++ q) n =
  match lookup_node p n with Some m => lookup_node q m | None => None end.
Proof.
  revert n. induction p as [|x p IH]; intros n; simpl; [reflexivity|].
  destruct n as [b|es]; [reflexivity|].
  destruct (find_entry x es); [apply IH|reflexivity].
Qed.

Lemma lookup_app p q d :
  lookup (p ++ q) d =
  match lookup p d with Some m => lookup_node q m | None => None end.
Proof. apply lookup_node_app. Qed.

(** Entering a file at [p] leaves every node that is not an ancestor of
    [p], nor [p] itself, as it was. *)
Lemma lookup_link_at full p i n n' q :
  link_at full p i n = Ok n' ->
  is_prefix q p = false ->
  lookup_node q n' = lookup_node q n.
Proof.
  revert n n' q. induction p as [|x p IH]; intros n n' q Hw Hq.
  - destruct q as [|y q]; [discriminate|].
    destruct n as [b|es]; simpl in Hw; [|discriminate].
    injection Hw as <-. reflexivity.
  - destruct q as [|y q]; [discriminate|].
    destruct n as [b|es]; simpl in Hw; [discriminate|].
    simpl in Hq.
    destruct (find_entry x es) as [child|] eqn:Hf.
    + destruct (link_at full p i child) as [child'|e] eqn:Hc; [|discriminate].
      injection Hw as <-. simpl.
      rewrite find_entry_set_entry, Hf.
      destruct (String.eqb y x) eqn:Eyx.
      * apply String.eqb_eq in Eyx; subst y. rewrite Hf.
        simpl in Hq. apply (IH _ _ _ Hc Hq).
      * reflexivity.
    + destruct p as [|z p]; [|discriminate].
      injection Hw as <-. simpl.
      rewrite find_entry_app. destruct (find_entry y es) eqn:Hy; [reflexivity|].
      simpl. destruct (String.eqb y x) eqn:Eyx; [|reflexivity].
      simpl in Hq. destruct q as [|z q]; [discriminate|]. reflexivity.
Qed.

(** The path names a regular file afterwards: the one it named before,
    or the new inode. *)
Lemma lookup_link_at_same full p i n n' :
  link_at full p i n = Ok n' ->
  exists j,
    lookup_node p n' = Some (File j)
    /\ (lookup_node p n = Some (File j) \/ (lookup_node p n = None /\ j = i)).
Proof.
  revert n n'. induction p as [|x p IH]; intros n n' Hw.
  - destruct n as [j|]; simpl in Hw; [|discriminate]. injection Hw as <-.
    exists j. simpl. auto.
  - destruct n as [b|es]; simpl in Hw; [discriminate|].
    destruct (find_entry x es) as [child|] eqn:Hf.
    + destruct (link_at full p i child) as [child'|e] eqn:Hc; [|discriminate].
      injection Hw as <-. simpl.
      rewrite find_entry_set_entry, String.eqb_refl, Hf. eauto.
    + destruct p as [|z p]; [|discriminate].
      injection Hw as <-. exists i. simpl.
      rewrite find_entry_app, Hf. simpl. rewrite String.eqb_refl. auto.
Qed.

(** Ancestors of the file are directories before and after. *)
Lemma lookup_link_at_ancestor full p i n n' q :
  link_at full p i n = Ok n' ->
  is_prefix q p = true -> q <> p ->
  (exists es, lookup_node q n = Some (Dir es))
  /\ (exists es, lookup_node q n' = Some (Dir es)).
Proof.
  revert n n' q. induction p as [|x p IH]; intros n n' q Hw Hq Hne.
  - destruct q; [congruence|discriminate].
  - destruct n as [b|es]; simpl in Hw; [discriminate|].
    destruct q as [|y q].
    + simpl.
      destruct (find_entry x es) as [child|].
      * destruct (link_at full p i child); [|discriminate].
        injection Hw as <-. eauto.
      * destruct p; [|discriminate]. injection Hw as <-. eauto.
    + simpl in Hq. apply andb_true_iff in Hq as [Eyx Hq].
      apply String.eqb_eq in Eyx; subst y.
      assert (q <> p) by congruence.
      simpl.
      destruct (find_entry x es) as [child|] eqn:Hf.
      * destruct (link_at full p i child) as [child'|e] eqn:Hc; [|discriminate].
        injection Hw as <-. simpl.
        rewrite find_entry_set_entry, String.eqb_refl, Hf.
        apply (IH _ _ _ Hc Hq H).
      * destruct p as [|z p]; [|discriminate].
        destruct q; [congruence|discriminate].
Qed.

(** ** The inode table *)

Lemma find_upd_inode i j m t :
  find_inode j (upd_inode i m t) =
  if Nat.eqb j i
  then match find_inode i t with Some _ => Some m | None => None end
  else find_inode j t.
Proof.
  induction t as [|[k m0] t IH]; simpl.
  - destruct (Nat.eqb j i); reflexivity.
  - destruct (Nat.eqb i k) eqn:Eik; simpl.
    + apply Nat.eqb_eq in Eik; subst k.
      destruct (Nat.eqb j i); reflexivity.
    + destruct (Nat.eqb j k) eqn:Ejk.
      * apply Nat.eqb_eq in Ejk; subst k.
        destruct (Nat.eqb j i) eqn:Eji; [|reflexivity].
        apply Nat.eqb_eq in Eji; subst j.
        rewrite Nat.eqb_refl in Eik; discriminate.
      * exact IH.
Qed.

Lemma upd_inode_same i m t :
  find_inode i t = Some m -> upd_inode i m t = t.
Proof.
  induction t as [|[k m0] t IH]; simpl; [reflexivity|].
  destruct (Nat.eqb i k) eqn:E.
  - intros [= ->]. reflexivity.
  - intros H. now rewrite IH.
Qed.

Lemma upd_inode_twice i m m' t :
  upd_inode i m' (upd_inode i m t) = upd_inode i m' t.
Proof.
  induction t as [|[k m0] t IH]; simpl; [reflexivity|].
  destruct (Nat.eqb i k) eqn:E; simpl; rewrite E; [reflexivity|].
  now rewrite IH.
Qed.

Lemma map_fst_upd_inode i m t : map fst (upd_inode i m t) = map fst t.
Proof.
  induction t as [|[k m0] t IH]; simpl; [reflexivity|].
  destruct (Nat.eqb i k); simpl; [reflexivity|]. now rewrite IH.
Qed.

Lemma find_inode_keys i t :
  existsb (Nat.eqb i) (map fst t) = true <-> exists m, find_inode i t = Some m.
Proof.
  induction t as [|[k m0] t IH]; simpl.
  - split; [discriminate|intros [m H]; discriminate].
  - destruct (Nat.eqb i k); simpl; [split; eauto|exact IH].
Qed.

Lemma list_max_ge (l : list nat) i : In i l -> i <= list_max l.
Proof.
  induction l as [|k l IH]; simpl; [contradiction|].
  intros [->|H]; [lia|]. specialize (IH H). lia.
Qed.

(** The fresh inode number is no file's. *)
Lemma find_inode_fresh t : find_inode (fresh_ino t) t = None.
Proof.
  destruct (find_inode (fresh_ino t) t) as [m|] eqn:H; [|reflexivity].
  exfalso.
  assert (existsb (Nat.eqb (fresh_ino t)) (map fst t) = true) as Hex
    by (apply find_inode_keys; eauto).
  apply existsb_exists in Hex as [k [Hk Ek]]. apply Nat.eqb_eq in Ek; subst k.
  apply list_max_ge in Hk. unfold fresh_ino in Hk. lia.
Qed.

(** ** Writing a file *)

(** The two ways [write_file] succeeds: on a regular file that is
    there, whose inode gets the contents, or by a new entry and inode. *)
Lemma write_file_inv p c d d' :
  write_file p c d = Ok d' ->
  unlistable d' = unlistable d /\ clock d' = clock d
  /\ ((exists i m,
          lookup p d = Some (File i)
          /\ find_inode i (inodes d) = Some m /\ readable m = true
          /\ tree d' = tree d
          /\ inodes d'
             = upd_inode i {| mtime := clock d; mode := mode m;
                              readable := true; content := c |} (inodes d))
      \/ (lookup p d = None
          /\ link_at p p (fresh_ino (inodes d)) (tree d) = Ok (tree d')
          /\ inodes d'
             = (fresh_ino (inodes d),
                {| mtime := clock d; mode := 420; readable := true;
                   content := c |}) :: inodes d)).
Proof.
  unfold write_file.
  destruct (lookup p d) as [[i|es]|] eqn:Hl; try discriminate.
  - destruct (find_inode i (inodes d)) as [m|] eqn:Hm; [|discriminate].
    destruct (readable m) eqn:Hr; [|discriminate].
    intros [= <-]. simpl. repeat split. left. exists i, m. auto.
  - destruct (link_at p p (fresh_ino (inodes d)) (tree d)) as [t|e] eqn:Hk;
      [|discriminate].
    intros [= <-]. simpl. repeat split. right. auto.
Qed.

(** Afterwards the path names a readable regular file with the contents
    written. *)
Lemma write_file_inode p c d d' :
  write_file p c d = Ok d' ->
  exists i m,
    lookup p d' = Some (File i)
    /\ find_inode i (inodes d') = Some m
    /\ readable m = true /\ content m = c /\ mtime m = clock d.
Proof.
  intros Hw. destruct (write_file_inv _ _ _ _ Hw) as (_ & _ & [H|H]).
  - destruct H as (i & m & Hl & Hm & Hr & Ht & Hi).
    exists i. eexists. unfold lookup. rewrite Ht. split; [exact Hl|].
    rewrite Hi, find_upd_inode, Nat.eqb_refl, Hm. auto.
  - destruct H as (Hl & Hk & Hi).
    destruct (lookup_link_at_same _ _ _ _ _ Hk) as [j [Hj [Hold|[_ ->]]]].
    + unfold lookup in Hl. congruence.
    + exists (fresh_ino (inodes d)). eexists. split; [exact Hj|].
      rewrite Hi. simpl. rewrite Nat.eqb_refl. auto.
Qed.

Lemma read_write_file p c d d' :
  write_file p c d = Ok d' -> read_file p d' = Ok c.
Proof.
  intros Hw. destruct (write_file_inode _ _ _ _ Hw)
    as (i & m & Hl & Hm & Hr & Hc & _).
  unfold read_file. now rewrite Hl, Hm, Hr, Hc.
Qed.

(** Nodes that are not on the way to the file written are what they
    were. *)
Lemma lookup_write_file p c d d' q :
  write_file p c d = Ok d' ->
  is_prefix q p = false ->
  lookup q d' = lookup q d.
Proof.
  intros Hw Hq. destruct (write_file_inv _ _ _ _ Hw) as (_ & _ & [H|H]).
  - destruct H as (i & m & _ & _ & _ & Ht & _). unfold lookup. now rewrite Ht.
  - destruct H as (_ & Hk & _). apply (lookup_link_at _ _ _ _ _ _ Hk Hq).
Qed.

(** Directories stay directories, and nothing becomes one. *)
Lemma is_dir_write_file p c d d' q :
  write_file p c d = Ok d' -> is_dir q d' = is_dir q d.
Proof.
  intros Hw. destruct (write_file_inv _ _ _ _ Hw) as (_ & _ & [H|H]).
  - destruct H as (i & m & _ & _ & _ & Ht & _).
    unfold is_dir, lookup. now rewrite Ht.
  - destruct H as (Hl & Hk & _).
    destruct (is_prefix q p) eqn:Hq.
    + destruct (list_eq_dec string_dec q p) as [->|Hne].
      * destruct (lookup_link_at_same _ _ _ _ _ Hk) as [j [Hj _]].
        unfold is_dir, lookup in *. now rewrite Hj, Hl.
      * destruct (lookup_link_at_ancestor _ _ _ _ _ _ Hk Hq Hne)
          as [[es1 H1] [es2 H2]].
        unfold is_dir, lookup. now rewrite H1, H2.
    + unfold is_dir, lookup. now rewrite (lookup_link_at _ _ _ _ _ _ Hk Hq).
Qed.

(** The inode of every file other than the one written is untouched. *)
Lemma find_inode_write_file p c d d' i j :
  write_file p c d = Ok d' ->
  ino_at p d' = Some i -> j <> i ->
  find_inode j (inodes d') = find_inode j (inodes d).
Proof.
  intros Hw Hi Hne. destruct (write_file_inode _ _ _ _ Hw)
    as (i' & m' & Hl' & _).
  unfold ino_at in Hi. rewrite Hl' in Hi. injection Hi as ->.
  destruct (write_file_inv _ _ _ _ Hw) as (_ & _ & [H|H]).
  - destruct H as (i0 & m & Hl & _ & _ & Ht & Hin).
    unfold lookup in Hl', Hl. rewrite Ht, Hl in Hl'. injection Hl' as ->.
    rewrite Hin, find_upd_inode.
    destruct (Nat.eqb j i) eqn:E; [|reflexivity].
    apply Nat.eqb_eq in E. contradiction.
  - destruct H as (Hl & Hk & Hin).
    destruct (lookup_link_at_same _ _ _ _ _ Hk) as [j0 [Hj [Hold|[_ ->]]]];
      [unfold lookup in Hl; congruence|].
    unfold lookup in Hl'. rewrite Hj in Hl'. injection Hl' as <-.
    rewrite Hin. simpl.
    destruct (Nat.eqb j (fresh_ino (inodes d))) eqn:E; [|reflexivity].
    apply Nat.eqb_eq in E. contradiction.
Qed.

(** A path that is not a name of the file written resolves as before. *)
Lemma lookup_write_file_other p c d d' q :
  write_file p c d = Ok d' ->
  same_ino q p d' = false ->
  (lookup q d' = lookup q d
   \/ (exists es1 es2, lookup q d' = Some (Dir es1)
                       /\ lookup q d = Some (Dir es2))).
Proof.
  intros Hw Hs. destruct (write_file_inv _ _ _ _ Hw) as (_ & _ & [H|H]).
  - destruct H as (i & m & _ & _ & _ & Ht & _). left. unfold lookup.
    now rewrite Ht.
  - destruct H as (Hl & Hk & _).
    destruct (is_prefix q p) eqn:Hq.
    + destruct (list_eq_dec string_dec q p) as [->|Hne].
      * exfalso. destruct (write_file_inode _ _ _ _ Hw) as (i & m & Hi & _).
        unfold same_ino, ino_at in Hs. rewrite Hi, Nat.eqb_refl in Hs.
        discriminate.
      * right.
        destruct (lookup_link_at_ancestor _ _ _ _ _ _ Hk Hq Hne)
          as [[es1 H1] [es2 H2]]. eauto.
    + left. apply (lookup_link_at _ _ _ _ _ _ Hk Hq).
Qed.

(** Only the file written changes: every path that is not a name of it
    keeps its status, its inode and what reading it gives. *)
Lemma write_file_frame p c d d' q :
  write_file p c d = Ok d' ->
  same_ino q p d' = false ->
  stat q d' = stat q d
  /\ read_file q d' = read_file q d
  /\ inode_at q d' = inode_at q d
  /\ ino_at q d' = ino_at q d.
Proof.
  intros Hw Hs.
  destruct (lookup_write_file_other _ _ _ _ _ Hw Hs)
    as [Hl|[es1 [es2 [H1 H2]]]].
  2:{ unfold stat, status_of, read_file, inode_at, ino_at.
      rewrite H1, H2. auto. }
  unfold stat, status_of, read_file, inode_at, ino_at. rewrite Hl.
  destruct (lookup q d) as [[j|es]|] eqn:Hq; auto.
  destruct (write_file_inode _ _ _ _ Hw) as (i & m & Hi & _).
  assert (j <> i) as Hne.
  { intros ->. unfold same_ino, ino_at in Hs.
    rewrite Hl, Hi, Nat.eqb_refl in Hs. discriminate. }
  assert (ino_at p d' = Some i) as Hip by (unfold ino_at; now rewrite Hi).
  rewrite (find_inode_write_file _ _ _ _ _ _ Hw Hip Hne). auto.
Qed.

(** A file that could be opened for writing once can be written again,
    and only its contents change. *)
Lemma write_file_again p c c' d d' :
  write_file p c d = Ok d' ->
  exists d'',
    write_file p c' d' = Ok d''
    /\ tree d'' = tree d' /\ unlistable d'' = unlistable d'
    /\ clock d'' = clock d'
    /\ forall q, ino_at q d'' = ino_at q d'.
Proof.
  intros Hw. destruct (write_file_inode _ _ _ _ Hw)
    as (i & m & Hl & Hm & Hr & _).
  unfold write_file. rewrite Hl, Hm, Hr. eexists. split; [reflexivity|].
  simpl. repeat split.
Qed.

(** Writing twice is writing the second contents once. *)
Lemma write_file_twice p c c' d d' d'' :
  write_file p c d = Ok d' -> write_file p c' d' = Ok d'' ->
  write_file p c' d = Ok d''.
Proof.
  intros Hw Hw'.
  destruct (write_file_inv _ _ _ _ Hw) as (Hu & Hc & [H|H]).
  - destruct H as (i & m & Hl & Hm & Hr & Ht & Hi).
    unfold write_file in Hw' |- *. unfold lookup in *. rewrite Ht, Hl in Hw'.
    rewrite Hl, Hm, Hr.
    rewrite Hi, find_upd_inode, Nat.eqb_refl, Hm in Hw'. simpl in Hw'.
    rewrite upd_inode_twice, Hu, Hc in Hw'. exact Hw'.
  - destruct H as (Hl & Hk & Hi).
    destruct (lookup_link_at_same _ _ _ _ _ Hk) as [j [Hj [Hold|[_ ->]]]];
      [unfold lookup in Hl; congruence|].
    unfold write_file in Hw' |- *. unfold lookup in *. rewrite Hj, Hi in Hw'.
    simpl in Hw'. rewrite Nat.eqb_refl in Hw'. simpl in Hw'.
    rewrite Hl, Hk. rewrite Hu, Hc in Hw'. exact Hw'.
Qed.

(** ** The walk visits exactly the regular files *)

Lemma visited_app l1 l2 : visited (l1 ++ l2) = visited l1 ++ visited l2.
Proof. unfold visited. apply flat_map_app. Qed.

Lemma visited_walk_Dir deny top es :
  deny top = false ->
  visited (walk deny top (Dir es)) =
  map (fun f => top ++ [f]) (files_of es)
  ++ visited (flat_map (fun e => match e with
                                 | (x, c) => walk deny (top ++ [x]) c
                                 end) es).
Proof. intros H. simpl. now rewrite H. Qed.

Lemma visited_walk_denied deny top es :
  deny top = true -> visited (walk deny top (Dir es)) = [].
Proof. intros H. simpl. now rewrite H. Qed.

Lemma in_visited_flat_map {A} (f : A -> list (path * list string * list string)) l p :
  In p (visited (flat_map f l)) <-> exists a, In a l /\ In p (visited (f a)).
Proof.
  induction l as [|a l IH]; simpl.
  - split; [contradiction|intros [a [[] _]]].
  - rewrite visited_app, in_app_iff, IH. split.
    + intros [H|[b [Hb H]]]; eauto.
    + intros [b [[<-|Hb] H]]; eauto.
Qed.

Lemma in_files_of x es : In x (files_of es) <-> exists i, In (x, File i) es.
Proof.
  unfold files_of. rewrite in_flat_map. split.
  - intros [[y [i|es']] [Hin Hx]]; simpl in Hx; [|contradiction].
    destruct Hx as [<-|[]]. eauto.
  - intros [i Hin]. exists (x, File i). simpl. auto.
Qed.

(** Every regular file below [d] is visited when every directory on
    the way can be listed... *)
Lemma lookup_visited deny d :
  forall top rel i,
    (forall q, deny (top ++ q) = false) ->
    lookup_node rel d = Some (File i) -> rel <> [] ->
    In (top ++ rel) (visited (walk deny top d)).
Proof.
  induction d as [i0|es IH] using node_ind; intros top rel i Hd Hl Hne.
  - destruct rel; [congruence|discriminate].
  - destruct rel as [|x rel]; [congruence|]. simpl in Hl.
    destruct (find_entry x es) as [c|] eqn:Hf; [|discriminate].
    apply find_entry_In in Hf.
    assert (deny top = false) as Htop
      by (specialize (Hd []); now rewrite app_nil_r in Hd).
    rewrite (visited_walk_Dir _ _ _ Htop), in_app_iff.
    destruct rel as [|y rel].
    + simpl in Hl. injection Hl as ->. left.
      apply in_map_iff. exists x. split; [reflexivity|].
      apply in_files_of. eauto.
    + right. apply in_visited_flat_map. exists (x, c). split; [exact Hf|].
      rewrite Forall_forall in IH. specialize (IH _ Hf). simpl in IH.
      replace (top ++ x :: y :: rel) with ((top ++ [x]) ++ y :: rel)
        by (rewrite <- app_assoc; reflexivity).
      apply IH with (i := i); [|exact Hl|discriminate].
      intros q. rewrite <- app_assoc. apply Hd.
Qed.

Section WellFormed.
Context {os : OsPath}.

Lemma nodupb_find_entry x c es :
  nodupb (map fst es) = true -> In (x, c) es -> find_entry x es = Some c.
Proof.
  induction es as [|[y d] es IH]; simpl; [contradiction|].
  intros Hnd [Heq|Hin].
  - injection Heq as -> ->. now rewrite String.eqb_refl.
  - apply andb_true_iff in Hnd as [Hy Hnd].
    destruct (String.eqb x y) eqn:E; [|auto].
    apply String.eqb_eq in E; subst y. exfalso.
    apply negb_true_iff in Hy.
    assert (existsb (String.eqb x) (map fst es) = true) as Hex.
    { apply existsb_exists. exists x. split; [|apply String.eqb_refl].
      apply in_map_iff. exists (x, c). auto. }
    congruence.
Qed.

Lemma wf_node_Dir es :
  wf_node (Dir es) = true ->
  nodupb (map fst es) = true
  /\ forall x c, In (x, c) es -> valid_name x = true /\ wf_node c = true.
Proof.
  simpl. intros H. apply andb_true_iff in H as [Hnd Hall]. split; [exact Hnd|].
  intros x c Hin. rewrite forallb_forall in Hall. specialize (Hall _ Hin).
  simpl in Hall. now apply andb_true_iff in Hall.
Qed.

(** ... and, in a well-formed tree, nothing else is. *)
Lemma visited_lookup deny d :
  forall top p,
    wf_node d = true ->
    In p (visited (walk deny top d)) ->
    exists rel i,
      rel <> [] /\ p = top ++ rel /\ lookup_node rel d = Some (File i).
Proof.
  induction d as [i0|es IH] using node_ind; intros top p Hwf Hin.
  - contradiction.
  - apply wf_node_Dir in Hwf as [Hnd Hall].
    destruct (deny top) eqn:Htop;
      [rewrite (visited_walk_denied _ _ _ Htop) in Hin; contradiction|].
    rewrite (visited_walk_Dir _ _ _ Htop), in_app_iff in Hin.
    destruct Hin as [Hin|Hin].
    + apply in_map_iff in Hin as [f [<- Hf]].
      apply in_files_of in Hf as [i Hi].
      exists [f], i. split; [discriminate|]. split; [reflexivity|].
      simpl. now rewrite (nodupb_find_entry _ _ _ Hnd Hi).
    + apply in_visited_flat_map in Hin as [[x c] [Hxc Hin]].
      rewrite Forall_forall in IH. specialize (IH _ Hxc). simpl in IH.
      destruct (Hall _ _ Hxc) as [_ Hwc].
      destruct (IH _ _ Hwc Hin) as [rel [i [Hne [-> Hl]]]].
      exists (x :: rel), i. split; [discriminate|]. split.
      * rewrite <- app_assoc. reflexivity.
      * simpl. now rewrite (nodupb_find_entry _ _ _ Hnd Hxc).
Qed.

(** Paths that resolve in a well-formed tree are made of valid names. *)
Lemma wf_lookup rel :
  forall n m,
    wf_node n = true -> lookup_node rel n = Some m ->
    Forall (fun x => valid_name x = true) rel /\ wf_node m = true.
Proof.
  induction rel as [|x rel IH]; intros n m Hwf Hl.
  - injection Hl as <-. auto.
  - destruct n as [b|es]; [discriminate|]. simpl in Hl.
    destruct (find_entry x es) as [c|] eqn:Hf; [|discriminate].
    apply find_entry_In in Hf.
    apply wf_node_Dir in Hwf as [_ Hall]. destruct (Hall _ _ Hf) as [Hx Hc].
    destruct (IH _ _ Hc Hl). auto.
Qed.

Lemma wf_fs_tree d : wf_fs d = true -> wf_node (tree d) = true.
Proof. unfold wf_fs. intros H. now apply andb_true_iff in H. Qed.

Lemma lookup_node_inos p :
  forall n i, lookup_node p n = Some (File i) -> In i (inos_of n).
Proof.
  induction p as [|x p IH]; intros n i Hl.
  - injection Hl as ->. simpl. auto.
  - destruct n as [j|es]; [discriminate|]. simpl in Hl.
    destruct (find_entry x es) as [c|] eqn:Hf; [|discriminate].
    apply find_entry_In in Hf. simpl. apply in_flat_map.
    exists (x, c). split; [exact Hf|]. now apply IH.
Qed.

(** On a well-formed disk every regular file has an inode, and none has
    the fresh number. *)
Lemma wf_fs_inode d p i :
  wf_fs d = true -> lookup p d = Some (File i) ->
  (exists m, find_inode i (inodes d) = Some m) /\ i <> fresh_ino (inodes d).
Proof.
  unfold wf_fs. intros H Hl. apply andb_true_iff in H as [_ H].
  rewrite forallb_forall in H.
  specialize (H i (lookup_node_inos _ _ _ Hl)).
  apply find_inode_keys in H as [m Hm]. split; [eauto|].
  intros ->. rewrite find_inode_fresh in Hm. discriminate.
Qed.
End WellFormed.

Lemma path_eqb_eq p q : path_eqb p q = true <-> p = q.
Proof.
  revert q. induction p as [|x p IH]; intros [|y q]; simpl;
    try (split; [discriminate|congruence]); [tauto|].
  rewrite andb_true_iff, String.eqb_eq, IH. split.
  - intros [-> ->]. reflexivity.
  - intros [= -> ->]. auto.
Qed.

Lemma is_prefix_app p q : is_prefix p (p ++ q) = true.
Proof.
  induction p as [|x p IH]; simpl; [reflexivity|].
  now rewrite String.eqb_refl.
Qed.

Lemma is_prefix_app_false p q r :
  is_prefix p q = false -> is_prefix (p ++ r) q = false.
Proof.
  revert q. induction p as [|x p IH]; intros q H; [discriminate|].
  destruct q as [|y q]; [reflexivity|]. simpl in *.
  apply andb_false_iff in H as [H|H]; apply andb_false_iff; auto.
Qed.

Lemma listable_under_denied folder d q :
  listable_under folder d = true -> denied d (folder ++ q) = false.
Proof.
  unfold listable_under, denied. intros H.
  destruct (existsb (path_eqb (folder ++ q)) (unlistable d)) eqn:E;
    [|reflexivity].
  apply existsb_exists in E as [u [Hu Eu]]. apply path_eqb_eq in Eu; subst u.
  rewrite forallb_forall in H. specialize (H _ Hu).
  now rewrite is_prefix_app in H.
Qed.

Lemma os_walk_not_dir folder d : is_dir folder d = false -> os_walk folder d = [].
Proof.
  unfold is_dir, os_walk. destruct (lookup folder d) as [[b|es]|]; auto.
  discriminate.
Qed.


Lemma no_files_visited deny d :
  forall top, no_files d = true -> visited (walk deny top d) = [].
Proof.
  induction d as [b|es IH] using node_ind; intros top H; [reflexivity|].
  destruct (deny top) eqn:Htop; [now apply visited_walk_denied|].
  rewrite (visited_walk_Dir _ _ _ Htop). simpl in H.
  rewrite forallb_forall in H.
  replace (files_of es) with (@nil string).
  - simpl. apply incl_l_nil. intros p Hp.
    apply in_visited_flat_map in Hp as [[x c] [Hxc Hp]].
    rewrite Forall_forall in IH. specialize (IH _ Hxc). specialize (H _ Hxc).
    simpl in IH, H. rewrite (IH (top ++ [x]) H) in Hp. contradiction.
  - symmetry. apply incl_l_nil. intros f Hf.
    apply in_files_of in Hf as [b Hb]. specialize (H _ Hb). discriminate.
Qed.

Section WalkSpec.
Context {os : OsPath}.

(** On a well-formed disk, the loops of [zip_folder] visit only regular
    files strictly below [folder]... *)
Lemma visited_os_walk_file folder d p :
  wf_node (tree d) = true ->
  In p (visited (os_walk folder d)) ->
  exists rel i,
    rel <> [] /\ p = folder ++ rel /\ lookup (folder ++ rel) d = Some (File i).
Proof.
  intros Hwf. unfold os_walk.
  destruct (lookup folder d) as [[b0|es]|] eqn:Hf; try contradiction.
  intros Hin. destruct (wf_lookup _ _ _ Hwf Hf) as [_ Hsub].
  destruct (visited_lookup _ _ _ _ Hsub Hin) as [rel [i [Hne [-> Hl]]]].
  exists rel, i. rewrite lookup_app, Hf. auto.
Qed.

(** ... and all of them when every directory below can be listed. *)
Lemma visited_os_walk folder d p :
  wf_node (tree d) = true ->
  listable_under folder d = true ->
  In p (visited (os_walk folder d)) <->
  exists rel i,
    rel <> [] /\ p = folder ++ rel /\ lookup (folder ++ rel) d = Some (File i).
Proof.
  intros Hwf Hls. split; [now apply visited_os_walk_file|].
  unfold os_walk.
  intros [rel [i [Hne [-> Hl]]]]. rewrite lookup_app in Hl.
  destruct (lookup folder d) as [[b0|es]|] eqn:Hf; try discriminate.
  - destruct rel; [congruence|discriminate].
  - apply lookup_visited with (i := i); auto.
    intros q. now apply listable_under_denied.
Qed.
End WalkSpec.

(** ** Entry names *)

Lemma string_app_assoc (s t u : string) :
  ((s ++ t) ++ u)%string = (s ++ (t ++ u))%string.
Proof. induction s as [|a s IH]; simpl; [reflexivity|]. now rewrite IH. Qed.

Lemma string_app_nil_r (s : string) : (s ++ "")%string = s.
Proof. induction s as [|a s IH]; simpl; [reflexivity|]. now rewrite IH. Qed.

Section Names.
Context {os : OsPath}.

Lemma common_prefix_len_app folder rel :
  common_prefix_len folder (folder ++ rel) = List.length folder.
Proof.
  induction folder as [|x folder IH]; simpl; [reflexivity|].
  now rewrite String.eqb_refl, IH.
Qed.

Lemma rel_list_under folder rel : rel_list (folder ++ rel) folder = rel.
Proof.
  unfold rel_list. rewrite common_prefix_len_app, Nat.sub_diag. simpl.
  rewrite skipn_app, skipn_all, Nat.sub_diag. reflexivity.
Qed.

Lemma relpath_under folder rel :
  rel <> [] ->
  relpath (folder ++ rel) folder = String.concat (String sep "") rel.
Proof.
  intros Hne. unfold relpath. rewrite rel_list_under.
  destruct rel; [congruence|reflexivity].
Qed.

Lemma replace_sep_app s t :
  replace_sep (s ++ t)%string = (replace_sep s ++ replace_sep t)%string.
Proof. induction s as [|a s IH]; simpl; [reflexivity|]. now rewrite IH. Qed.

Lemma no_seps_cons c s :
  no_seps (String c s) = true ->
  is_sep c = false /\ Ascii.eqb c "/" = false /\ no_seps s = true.
Proof.
  simpl. intros H. apply andb_true_iff in H as [H1 H2].
  apply negb_true_iff, orb_false_iff in H1. tauto.
Qed.

Lemma is_sep_false c : is_sep c = false -> Ascii.eqb c sep = false.
Proof. unfold is_sep. intros H. now apply orb_false_iff in H. Qed.

Lemma replace_sep_no_seps s : no_seps s = true -> replace_sep s = s.
Proof.
  induction s as [|c s IH]; [reflexivity|]. intros H.
  apply no_seps_cons in H as [H1 [_ H3]]. simpl.
  now rewrite (is_sep_false _ H1), (IH H3).
Qed.

Lemma valid_name_inv s :
  valid_name s = true ->
  s <> "" /\ s <> "." /\ s <> ".." /\ no_seps s = true.
Proof.
  unfold valid_name. intros H.
  repeat (apply andb_true_iff in H as [H ?]).
  repeat split; try assumption; intros ->; discriminate.
Qed.

Lemma replace_sep_concat rel :
  Forall (fun x => valid_name x = true) rel ->
  replace_sep (String.concat (String sep "") rel) = String.concat "/" rel.
Proof.
  induction 1 as [|x rel Hx Hrel IH]; [reflexivity|].
  apply valid_name_inv in Hx as [_ [_ [_ Hx]]].
  destruct rel as [|y rel]; simpl.
  - now apply replace_sep_no_seps.
  - rewrite replace_sep_app. simpl replace_sep at 2.
    rewrite Ascii.eqb_refl, replace_sep_no_seps by assumption.
    simpl in IH. now rewrite IH.
Qed.

Lemma concat_head (s : string) x rel :
  exists t, String.concat s (x :: rel) = (x ++ t)%string.
Proof.
  destruct rel; simpl; [exists ""; now rewrite string_app_nil_r|eauto].
Qed.

Lemma strip_leading_concat x rel :
  valid_name x = true ->
  strip_leading (String.concat (String sep "") (x :: rel))
  = String.concat (String sep "") (x :: rel).
Proof.
  intros Hx. destruct (concat_head (String sep "") x rel) as [t ->].
  apply valid_name_inv in Hx as [Hne [_ [_ Hx]]].
  destruct x as [|c x]; [congruence|].
  apply no_seps_cons in Hx as [Hc _]. simpl. now rewrite Hc.
Qed.

(** The name an entry gets for a file [rel] below the folder. *)
Lemma zip_name_relpath folder rel :
  rel <> [] ->
  Forall (fun x => valid_name x = true) rel ->
  zip_name (relpath (folder ++ rel) folder) = String.concat "/" rel.
Proof.
  intros Hne Hv. rewrite relpath_under by assumption. unfold zip_name.
  destruct rel as [|x rel]; [congruence|].
  rewrite strip_leading_concat by (now inversion Hv).
  now apply replace_sep_concat.
Qed.

Lemma split_on_no_slash s :
  forall acc, no_seps s = true -> split_on "/" acc s = [(acc ++ s)%string].
Proof.
  induction s as [|c s IH]; intros acc H; simpl.
  - now rewrite string_app_nil_r.
  - apply no_seps_cons in H as [_ [Hc Hs]]. rewrite Hc.
    rewrite IH by assumption. now rewrite string_app_assoc.
Qed.

Lemma split_on_slash s :
  forall acc t,
    no_seps s = true ->
    split_on "/" acc (s ++ String "/" t)
    = (acc ++ s)%string :: split_on "/" "" t.
Proof.
  induction s as [|c s IH]; intros acc t H; simpl.
  - now rewrite string_app_nil_r.
  - apply no_seps_cons in H as [_ [Hc Hs]]. rewrite Hc.
    rewrite IH by assumption. now rewrite string_app_assoc.
Qed.

(** Splitting an entry name on ["/"] gives back the components. *)
Lemma split_on_concat rel :
  rel <> [] ->
  Forall (fun x => valid_name x = true) rel ->
  split_on "/" "" (String.concat "/" rel) = rel.
Proof.
  intros Hne Hv. induction Hv as [|x rel Hx Hrel IH]; [congruence|].
  apply valid_name_inv in Hx as [_ [_ [_ Hx]]].
  destruct rel as [|y rel].
  - simpl. now rewrite split_on_no_slash.
  - change (String.concat "/" (x :: y :: rel))
      with (x ++ String "/" (String.concat "/" (y :: rel)))%string.
    rewrite split_on_slash by assumption. simpl append.
    f_equal. apply IH. discriminate.
Qed.
End Names.

(** ** Loops *)

Lemma for_each_app {A} (l1 l2 : list A) (f : A -> M unit) w :
  for_each (l1 ++ l2) f w = (for_each l1 f ;; for_each l2 f) w.
Proof.
  revert w. induction l1 as [|a l1 IH]; intros w; simpl.
  - reflexivity.
  - unfold bind in *. destruct (f a w) as [[[]|e] w1]; [apply IH|reflexivity].
Qed.

Lemma for_each_map {A B} (g : A -> B) (l : list A) (f : B -> M unit) w :
  for_each (map g l) f w = for_each l (fun a => f (g a)) w.
Proof.
  revert w. induction l as [|a l IH]; intros w; simpl; [reflexivity|].
  unfold bind. destruct (f (g a) w) as [[[]|e] w1]; [apply IH|reflexivity].
Qed.

Ltac world_simpl :=
  cbn [net disk sessions remote_cwd log zip_buffer zip_wreck set_sessions
       add_log set_remote_cwd set_net set_disk set_zip_buffer set_zip_wreck
       fst snd].
Ltac world_simpl_in H :=
  cbn [net disk sessions remote_cwd log zip_buffer zip_wreck set_sessions
       add_log set_remote_cwd set_net set_disk set_zip_buffer set_zip_wreck
       fst snd] in H.

Section Archiver.
Context {os : OsPath} {zf : ZipFormat}.

(** The two nested loops of [zip_folder] are one loop over the visited
    paths. *)
Lemma loop_flatten folder zip triples :
  forall w,
    for_each triples (fun t =>
      match t with
      | (root, dirs, files) =>
          for_each files (fun file =>
            ZipFile_write zip (join root file)
                          (relpath (join root file) folder))
      end) w
    = for_each (visited triples) (zip_one folder zip) w.
Proof.
  induction triples as [|[[root ds] files] triples IH]; intros w.
  - reflexivity.
  - change (visited ((root, ds, files) :: triples))
      with (map (fun f => root ++ [f]) files ++ visited triples).
    rewrite for_each_app. simpl for_each at 1. unfold bind.
    rewrite for_each_map. unfold zip_one, join.
    match goal with
    | |- match ?a with _ => _ end = match ?b with _ => _ end =>
        change b with a; destruct a as [[[]|e] w1]
    end; [apply IH|reflexivity].
Qed.

(** A member that was added: its name is the entry name of [arcname],
    the file could be stored, and unless the file is the archive itself
    the data is the deflated contents. *)
Lemma zip_member_added zipf ms p a d r :
  zip_member zipf ms p a d = Added r ->
  zr_name r = zip_name a
  /\ exists m,
      inode_at p d = Some m /\ zippable (zip_name a) m = true
      /\ zr_mtime r = mtime m /\ zr_mode r = mode m
      /\ (same_ino p zipf d = false -> zr_data r = deflate (content m)).
Proof.
  unfold zip_member, inode_at, zippable.
  destruct (lookup p d) as [[i|es]|]; try discriminate.
  destruct (find_inode i (inodes d)) as [m|]; [|discriminate].
  destruct (Nat.ltb (mtime m) 1980) eqn:E1; [discriminate|].
  destruct (readable m) eqn:E2; [|discriminate]. cbn [negb].
  destruct (utf8_valid (zip_name a)) eqn:E3; [|discriminate]. cbn [negb].
  destruct (Nat.ltb 2107 (mtime m)) eqn:E4; [discriminate|].
  apply Nat.ltb_ge in E1, E4.
  assert (Nat.leb 1980 (mtime m) && Nat.leb (mtime m) 2107 && true && true
          = true) as Hz.
  { apply Nat.leb_le in E1, E4. now rewrite E1, E4. }
  destruct (same_ino p zipf d).
  - destruct (zip_self_copy os ms (zip_name a)) as [b|g]; [|discriminate].
    intros [= <-]. cbn [zr_name zr_data zr_mtime zr_mode].
    split; [reflexivity|]. exists m.
    split; [reflexivity|]. split; [rewrite E2; exact Hz|]. split; [reflexivity|].
    split; [reflexivity|]. discriminate.
  - intros [= <-]. cbn [zr_name zr_data zr_mtime zr_mode].
    split; [reflexivity|]. exists m.
    split; [reflexivity|]. split; [rewrite E2; exact Hz|]. split; [reflexivity|].
    split; reflexivity.
Qed.

(** A file that can be stored and is not the archive is added. *)
Lemma zip_member_plain zipf ms p a d m :
  inode_at p d = Some m -> zippable (zip_name a) m = true ->
  same_ino p zipf d = false ->
  zip_member zipf ms p a d
  = Added {| zr_name := zip_name a; zr_data := deflate (content m);
             zr_mtime := mtime m; zr_mode := mode m |}.
Proof.
  unfold zip_member, inode_at, zippable. intros Hm Hz Hs.
  destruct (lookup p d) as [[i|es]|]; try discriminate.
  rewrite Hm, Hs.
  apply andb_true_iff in Hz as [Hz H4]. apply andb_true_iff in Hz as [Hz H3].
  apply andb_true_iff in Hz as [H1 H2].
  apply Nat.leb_le in H1, H2.
  destruct (Nat.ltb_spec (mtime m) 1980); [lia|].
  destruct (Nat.ltb_spec 2107 (mtime m)); [lia|].
  now rewrite H3, H4.
Qed.

(** A member that fails does not fail for lack of space. *)
Lemma zip_member_failed zipf ms p a d e :
  zip_member zipf ms p a d = Failed e -> e <> OSError 28.
Proof.
  unfold zip_member.
  destruct (lookup p d) as [[i|es]|]; try (intros [= <-]; discriminate).
  destruct (find_inode i (inodes d)) as [m|];
    [|intros [= <-]; discriminate].
  destruct (Nat.ltb (mtime m) 1980); [intros [= <-]; discriminate|].
  destruct (negb (readable m)); [intros [= <-]; discriminate|].
  destruct (negb (utf8_valid (zip_name a))); [intros [= <-]; discriminate|].
  destruct (Nat.ltb 2107 (mtime m)); [intros [= <-]; discriminate|].
  destruct (same_ino p zipf d); [|discriminate].
  destruct (zip_self_copy os ms (zip_name a)); discriminate.
Qed.

(** One round of the loop, by the outcome of the member. *)
Lemma zip_one_eq folder zip p w :
  zip_one folder zip p w =
  let w1 := add_log (EvZipWrite p (relpath p folder)) w in
  match zip_member zip (zip_buffer w) p (relpath p folder) (disk w) with
  | Added r => (Ok tt, set_zip_buffer (zip_buffer w ++ [r]) w1)
  | Failed e => (Raise e, w1)
  | Wrecked rest => (Raise (OSError 28), set_zip_wreck (Some rest) w1)
  end.
Proof. reflexivity. Qed.

(** Whatever happens in the loop, it only adds members and log lines;
    it comes out with [ENOSPC] exactly when the archive wrecked itself. *)
Lemma zip_loop_frame folder zip paths :
  forall w r w',
    for_each paths (zip_one folder zip) w = (r, w') ->
    disk w' = disk w /\ net w' = net w /\ sessions w' = sessions w
    /\ remote_cwd w' = remote_cwd w
    /\ (exists evs, log w' = log w ++ evs /\ Forall is_zip_write evs)
    /\ (exists done,
        zip_buffer w' = zip_buffer w ++ done
        /\ Forall (fun r0 => exists p ms,
                       In p paths
                       /\ zip_member zip ms p (relpath p folder) (disk w)
                          = Added r0) done)
    /\ ((zip_wreck w' = zip_wreck w /\ r <> Raise (OSError 28))
        \/ (exists rest, zip_wreck w' = Some rest /\ r = Raise (OSError 28))).
Proof.
  induction paths as [|p paths IH]; intros w r w' H.
  - injection H as <- <-. repeat split; trivial.
    + exists []. now rewrite app_nil_r.
    + exists []. now rewrite app_nil_r.
    + left. split; [reflexivity|discriminate].
  - simpl for_each in H. unfold bind at 1 in H. rewrite zip_one_eq in H.
    cbv zeta in H.
    destruct (zip_member zip (zip_buffer w) p (relpath p folder) (disk w))
      as [r0|e|rest] eqn:Hm.
    + apply IH in H. world_simpl_in H.
      destruct H as (Hd & Hn & Hs & Hc & [evs [Hl He]] & [done [Hb Hf]] & Hw).
      repeat split; trivial.
      * exists (EvZipWrite p (relpath p folder) :: evs).
        rewrite Hl, <- app_assoc. split; [reflexivity|].
        constructor; [exact I|exact He].
      * exists (r0 :: done).
        rewrite Hb, <- app_assoc. split; [reflexivity|].
        constructor.
        -- exists p, (zip_buffer w). split; [now left|exact Hm].
        -- eapply Forall_impl; [|exact Hf]. simpl.
           intros a [q [ms [Hq Ha]]]. exists q, ms. auto.
    + injection H as <- <-. world_simpl. repeat split; trivial.
      * exists [EvZipWrite p (relpath p folder)]. split; [reflexivity|].
        repeat constructor.
      * exists []. split; [now rewrite app_nil_r|constructor].
      * left. split; [reflexivity|].
        intros [= ->]. now apply (zip_member_failed _ _ _ _ _ _ Hm).
    + injection H as <- <-. world_simpl. repeat split; trivial.
      * exists [EvZipWrite p (relpath p folder)]. split; [reflexivity|].
        repeat constructor.
      * exists []. split; [now rewrite app_nil_r|constructor].
      * right. eauto.
Qed.

Lemma record_of_inode d folder p m :
  inode_at p d = Some m ->
  record_of d folder p
  = {| zr_name := zip_name (relpath p folder); zr_data := deflate (content m);
       zr_mtime := mtime m; zr_mode := mode m |}.
Proof. unfold record_of. now intros ->. Qed.

(** A loop that completes has added a member for every path, in
    order. *)
Lemma zip_loop_all folder zip paths :
  forall w w',
    for_each paths (zip_one folder zip) w = (Ok tt, w') ->
    exists done,
      zip_buffer w' = zip_buffer w ++ done
      /\ Forall2 (fun p r0 =>
                    exists ms,
                      zip_member zip ms p (relpath p folder) (disk w)
                      = Added r0) paths done.
Proof.
  induction paths as [|p paths IH]; intros w w' H.
  - injection H as <-. exists []. split; [now rewrite app_nil_r|constructor].
  - simpl for_each in H. unfold bind at 1 in H. rewrite zip_one_eq in H.
    cbv zeta in H.
    destruct (zip_member zip (zip_buffer w) p (relpath p folder) (disk w))
      as [r0|e|rest] eqn:Hm; try discriminate.
    destruct (IH _ _ H) as [done [Hb Hf]]. world_simpl_in Hb.
    world_simpl_in Hf.
    exists (r0 :: done). split; [now rewrite Hb, <- app_assoc|].
    constructor; [eauto|exact Hf].
Qed.

(** When every visited path can be stored and none is the archive, the
    loop completes and leaves one member per path, in order. *)
Lemma zip_loop_ok folder zip paths :
  forall w,
    (forall p, In p paths ->
               same_ino p zip (disk w) = false
               /\ exists m, inode_at p (disk w) = Some m
                            /\ zippable (zip_name (relpath p folder)) m = true) ->
    for_each paths (zip_one folder zip) w
    = (Ok tt,
       {| disk := disk w;
          zip_buffer := zip_buffer w ++ map (record_of (disk w) folder) paths;
          zip_wreck := zip_wreck w;
          net := net w; sessions := sessions w;
          remote_cwd := remote_cwd w;
          log := log w ++ map (fun p => EvZipWrite p (relpath p folder)) paths |}).
Proof.
  induction paths as [|p paths IH]; intros w H.
  - simpl. unfold ret. destruct w; simpl. now rewrite !app_nil_r.
  - simpl for_each. unfold bind at 1. rewrite zip_one_eq. cbv zeta.
    destruct (H p (or_introl eq_refl)) as [Hs [m [Hm Hz]]].
    rewrite (zip_member_plain _ _ _ _ _ _ Hm Hz Hs).
    rewrite <- (record_of_inode _ folder _ _ Hm).
    rewrite IH by (intros q Hq; world_simpl; apply H; now right).
    world_simpl. simpl map.
    now rewrite <- !app_assoc.
Qed.
End Archiver.

(** ** What [zip_folder] does *)

Section ZipFolder.
Context {os : OsPath} {zf : ZipFormat}.

(** The archive cannot be opened: the error comes out, nothing else
    happens. *)
Lemma zip_folder_open_fails folder zip w e :
  write_file zip [] (disk w) = Raise e ->
  zip_folder folder zip w = (Raise e, add_log (EvOpenWrite zip) w).
Proof.
  intros H. unfold zip_folder, ZipFile_open, bind, emit, on_disk. world_simpl.
  now rewrite H.
Qed.

(** The archive can be opened: the disk [d1] with the empty file is what
    the walk sees; the members written are those of visited paths; the
    archive is closed on either outcome.  Unless the archive wrecked
    itself, it holds the image of the members. *)
Lemma zip_folder_run folder zip w d1 :
  write_file zip [] (disk w) = Ok d1 ->
  exists r d2 evs,
    zip_folder folder zip w
    = (r, {| disk := d2; zip_buffer := []; zip_wreck := None; net := net w;
             sessions := sessions w; remote_cwd := remote_cwd w;
             log := log w ++ EvOpenWrite zip :: EvWalk folder
                          :: evs ++ [EvZipClose zip] |})
    /\ Forall is_zip_write evs
    /\ tree d2 = tree d1 /\ unlistable d2 = unlistable d1
    /\ ((r = Raise (OSError 28) /\ exists rest, write_file zip rest d1 = Ok d2)
        \/ (r <> Raise (OSError 28)
            /\ exists members,
                write_file zip (zip_image members) d1 = Ok d2
                /\ Forall (fun r0 => exists p ms,
                               In p (visited (os_walk folder d1))
                               /\ zip_member zip ms p (relpath p folder) d1
                                  = Added r0) members
                /\ (r = Ok tt ->
                    Forall2 (fun p r0 =>
                               exists ms,
                                 zip_member zip ms p (relpath p folder) d1
                                 = Added r0)
                            (visited (os_walk folder d1)) members)))
    /\ ((forall p, In p (visited (os_walk folder d1)) ->
                   same_ino p zip d1 = false
                   /\ exists m, inode_at p d1 = Some m
                                /\ zippable (zip_name (relpath p folder)) m
                                   = true) ->
        r = Ok tt
        /\ write_file zip
             (zip_image (map (record_of d1 folder)
                             (visited (os_walk folder d1)))) d1 = Ok d2
        /\ evs = map (fun p => EvZipWrite p (relpath p folder))
                     (visited (os_walk folder d1))).
Proof.
  intros Hopen.
  unfold zip_folder, ZipFile_open, finally, walk_now.
  unfold bind at 1 2 3, emit, on_disk. world_simpl. rewrite Hopen. world_simpl.
  unfold bind at 1 2, emit. world_simpl. rewrite loop_flatten.
  match goal with
  | |- context [for_each ?l ?f ?w0] =>
      destruct (for_each l f w0) as [r w2] eqn:Hloop
  end.
  pose proof (zip_loop_frame _ _ _ _ _ _ Hloop) as Hframe.
  world_simpl_in Hframe.
  destruct Hframe
    as (Hd & Hn & Hs & Hc & [evs [Hl He]] & [done [Hb Hf]] & Hwr).
  simpl app in Hb.
  unfold ZipFile_close, bind, emit. world_simpl.
  destruct Hwr as [[Hw2 Hr]|[rest [Hw2 Hr]]]; rewrite Hw2.
  - destruct (write_file_again zip [] (zip_image (zip_buffer w2)) _ _ Hopen)
      as [d2 (Hclose & Ht & Hu & _)].
    rewrite Hd, Hclose.
    exists r, d2, evs. split.
    { destruct w2; simpl in *. subst.
      unfold set_zip_buffer, set_disk, add_log. simpl.
      rewrite <- !app_assoc. reflexivity. }
    split; [exact He|]. split; [exact Ht|]. split; [exact Hu|]. split.
    + right. split; [exact Hr|]. exists done.
      split; [now rewrite <- Hb|]. split; [exact Hf|].
      intros ->.
      destruct (zip_loop_all _ _ _ _ _ Hloop) as [done' [Hb' Hf']].
      world_simpl_in Hb'. world_simpl_in Hf'. simpl app in Hb'.
      rewrite Hb in Hb'. now subst done'.
    + intros Hall. rewrite zip_loop_ok in Hloop by exact Hall.
      injection Hloop as <- <-. world_simpl_in Hclose.
      simpl in Hl. apply app_inv_head in Hl. simpl in Hclose. auto.
  - destruct (write_file_again zip [] rest _ _ Hopen)
      as [d2 (Hclose & Ht & Hu & _)].
    rewrite Hd, Hclose.
    exists (Raise (OSError 28)), d2, evs. split.
    { destruct w2; simpl in *. subst.
      unfold set_zip_buffer, set_zip_wreck, set_disk, add_log. simpl.
      rewrite <- !app_assoc. reflexivity. }
    split; [exact He|]. split; [exact Ht|]. split; [exact Hu|]. split.
    + left. split; [reflexivity|]. eauto.
    + intros Hall. rewrite zip_loop_ok in Hloop by exact Hall.
      injection Hloop as Hr' _. subst r. discriminate.
Qed.
End ZipFolder.

(** ** The transporter *)

Lemma read_file_raises p d e : read_file p d = Raise e -> IOError e = true.
Proof.
  unfold read_file. destruct (lookup p d) as [[i|es]|];
    try (intros [= <-]; reflexivity).
  destruct (find_inode i (inodes d)) as [m|]; [|intros [= <-]; reflexivity].
  destruct (readable m); [discriminate|intros [= <-]; reflexivity].
Qed.

(** [upload_to_ftp] run symbolically: one branch per step that can fail. *)
Lemma upload_to_ftp_eq zip_path w :
  upload_to_ftp zip_path w =
  let w1 := set_sessions (S (sessions w)) (add_log (EvConnect FTP_HOST) w) in
  let w2 := add_log (EvLogin FTP_USER) w1 in
  let w3 := add_log (EvCwd REMOTE_DIR) w2 in
  let w4 := add_log (EvOpenRead zip_path) (set_remote_cwd REMOTE_DIR w3) in
  let w5 := add_log (EvStor ZIP_FILE) w4 in
  if reachable (net w) then
    if accepts (net w) FTP_USER FTP_PASS then
      if has_dir (net w) REMOTE_DIR then
        match read_file zip_path (disk w) with
        | Ok b =>
            match stor_refused (net w) with
            | None =>
                (Ok tt,
                 closed (set_net (put_remote REMOTE_DIR ZIP_FILE b (net w)) w5))
            | Some code =>
                (Raise (reply_error code),
                 closed
                   match stor_keeps (net w) with
                   | None => w5
                   | Some n =>
                       set_net (put_remote REMOTE_DIR ZIP_FILE (firstn n b)
                                           (net w)) w5
                   end)
            end
        | Raise e => (Raise e, closed w4)
        end
      else (Raise (error_perm 550), closed w3)
    else (Raise (error_perm 530), closed w2)
  else match bad_greeting (net w) with
       | None => (Raise (ConnectionRefusedError FTP_HOST),
                  add_log (EvConnect FTP_HOST) w)
       | Some code => (Raise (reply_error code), w1)
       end.
Proof.
  unfold upload_to_ftp, finally, FTP, login, cwd, open_rb, storbinary,
    FTP_exit, bind, emit, closed.
  world_simpl.
  destruct (reachable (net w));
    [|destruct (bad_greeting (net w)); reflexivity]. world_simpl.
  destruct (accepts (net w) FTP_USER FTP_PASS); [|reflexivity]. world_simpl.
  destruct (has_dir (net w) REMOTE_DIR); [|reflexivity]. world_simpl.
  destruct (read_file zip_path (disk w)) as [b|e]; [|reflexivity]. world_simpl.
  destruct (stor_refused (net w)); [|reflexivity].
  destruct (stor_keeps (net w)); reflexivity.
Qed.

(** C4 (amended).  Once [FTP(host)] has returned, [upload_to_ftp] leaves
    no session behind: whatever the login, the directory change, the
    opening of the archive and the store do, return or raise, the number
    of open control connections after the call is what it was before,
    and the last thing the client does is close the connection.  When
    the constructor raises, the block is never entered and nothing is
    closed: after a connection that was not made there is nothing open;
    after a connection that was made and greeted with an error reply,
    one more connection is open than before. *)
Theorem upload_closes_connection (zip_path : path) (w : world) :
  (reachable (net w) = true ->
   sessions (snd (upload_to_ftp zip_path w)) = sessions w
   /\ exists evs,
       log (snd (upload_to_ftp zip_path w))
       = log w ++ EvConnect FTP_HOST :: evs ++ [EvClose])
  /\ (reachable (net w) = false ->
      bad_greeting (net w) = None ->
      upload_to_ftp zip_path w
      = (Raise (ConnectionRefusedError FTP_HOST),
         add_log (EvConnect FTP_HOST) w))
  /\ (forall code,
      reachable (net w) = false ->
      bad_greeting (net w) = Some code ->
      upload_to_ftp zip_path w
      = (Raise (reply_error code),
         set_sessions (S (sessions w)) (add_log (EvConnect FTP_HOST) w))).
Proof.
  rewrite upload_to_ftp_eq. cbv zeta. split; [|split].
  - intros ->.
    destruct (accepts (net w) FTP_USER FTP_PASS).
    + destruct (has_dir (net w) REMOTE_DIR).
      * destruct (read_file zip_path (disk w)) as [b|e].
        -- destruct (stor_refused (net w));
             [destruct (stor_keeps (net w))|]; unfold closed; world_simpl;
             (split; [reflexivity|]);
             exists [EvLogin FTP_USER; EvCwd REMOTE_DIR; EvOpenRead zip_path;
                     EvStor ZIP_FILE];
             now rewrite <- !app_assoc.
        -- split; [reflexivity|].
           exists [EvLogin FTP_USER; EvCwd REMOTE_DIR; EvOpenRead zip_path].
           unfold closed. world_simpl. now rewrite <- !app_assoc.
      * split; [reflexivity|].
        exists [EvLogin FTP_USER; EvCwd REMOTE_DIR]. unfold closed.
        world_simpl. now rewrite <- !app_assoc.
    + split; [reflexivity|].
      exists [EvLogin FTP_USER]. unfold closed. world_simpl.
      now rewrite <- !app_assoc.
  - intros -> ->. reflexivity.
  - intros code -> ->. reflexivity.
Qed.

(** The steps are taken in the order of the script, each only after the
    one before it succeeded. *)
Lemma upload_in_sequence zip_path w :
  exists k,
    1 <= k <= 5
    /\ log (snd (upload_to_ftp zip_path w))
       = log w ++ firstn k (upload_script zip_path)
               ++ (if reachable (net w) then [EvClose] else [])
    /\ (fst (upload_to_ftp zip_path w) = Ok tt -> k = 5)
    /\ (accepts (net w) FTP_USER FTP_PASS = false -> k <= 2)
    /\ (has_dir (net w) REMOTE_DIR = false -> k <= 3).
Proof.
  rewrite upload_to_ftp_eq. cbv zeta.
  destruct (reachable (net w)).
  2:{ exists 1. destruct (bad_greeting (net w)); simpl;
        repeat split; try lia; discriminate. }
  destruct (accepts (net w) FTP_USER FTP_PASS).
  2:{ exists 2. simpl. rewrite <- !app_assoc.
      repeat split; try lia; discriminate. }
  destruct (has_dir (net w) REMOTE_DIR).
  2:{ exists 3. simpl. rewrite <- !app_assoc.
      repeat split; try lia; discriminate. }
  destruct (read_file zip_path (disk w)) as [b|e].
  2:{ exists 4. simpl. rewrite <- !app_assoc.
      repeat split; try lia; discriminate. }
  exists 5.
  destruct (stor_refused (net w)); [destruct (stor_keeps (net w))|];
    unfold closed; world_simpl; simpl firstn; rewrite <- !app_assoc;
    repeat split; try lia; discriminate.
Qed.

(** C5.  The steps of [upload_to_ftp] are taken in strict sequence:
    what the client does is a prefix of connect, login, cwd, open,
    store, cut at the first step that fails, then the closing of the
    connection.  When the remote directory does not exist the run stops
    at [cwd] at the latest: the call raises, the archive is neither
    opened nor sent, and the server's files are what they were.  If the
    server was reachable and took the login, the error is the refusal
    of [cwd], [error_perm 550], the [RemoteFSError] of the spec. *)
Theorem upload_strict_sequence (zip_path : path) (w : world) :
  (exists k,
      1 <= k <= 5
      /\ log (snd (upload_to_ftp zip_path w))
         = log w ++ firstn k (upload_script zip_path)
                 ++ (if reachable (net w) then [EvClose] else [])
      /\ (fst (upload_to_ftp zip_path w) = Ok tt -> k = 5))
  /\ (has_dir (net w) REMOTE_DIR = false ->
      exists e k,
        fst (upload_to_ftp zip_path w) = Raise e
        /\ 1 <= k <= 3
        /\ log (snd (upload_to_ftp zip_path w))
           = log w ++ firstn k (upload_script zip_path)
                   ++ (if reachable (net w) then [EvClose] else [])
        /\ net (snd (upload_to_ftp zip_path w)) = net w
        /\ (reachable (net w) = true ->
            accepts (net w) FTP_USER FTP_PASS = true ->
            e = error_perm 550 /\ RemoteFSError e = true /\ k = 3)).
Proof.
  split.
  - destruct (upload_in_sequence zip_path w) as [k (Hk & Hl & Hok & _)].
    exists k. auto.
  - intros Hdir. rewrite upload_to_ftp_eq. cbv zeta. rewrite Hdir.
    destruct (reachable (net w)).
    + destruct (accepts (net w) FTP_USER FTP_PASS).
      * exists (error_perm 550), 3. simpl. rewrite <- !app_assoc.
        repeat split; auto.
      * exists (error_perm 530), 2. simpl. rewrite <- !app_assoc.
        repeat split; auto; discriminate.
    + destruct (bad_greeting (net w)) as [code|].
      * exists (reply_error code), 1. simpl.
        repeat split; auto; discriminate.
      * exists (ConnectionRefusedError FTP_HOST), 1. simpl.
        repeat split; auto; discriminate.
Qed.

(** C10.  The local archive is opened fourth: whenever the client gets
    to open it, it has connected, logged in and changed directory
    before.  So when the server is reachable, takes the login and has
    the directory, but the archive cannot be read, all three steps are
    carried out on the server, the remote directory is changed, and
    only then does the call fail, with the local error of [open]; the
    connection is closed and nothing is stored. *)
Theorem upload_opens_archive_late (zip_path : path) (w : world) :
  (forall evs,
      log (snd (upload_to_ftp zip_path w)) = log w ++ evs ->
      In (EvOpenRead zip_path) evs ->
      firstn 4 evs = [EvConnect FTP_HOST; EvLogin FTP_USER; EvCwd REMOTE_DIR;
                      EvOpenRead zip_path]
      /\ reachable (net w) = true
      /\ accepts (net w) FTP_USER FTP_PASS = true
      /\ has_dir (net w) REMOTE_DIR = true)
  /\ (forall e,
      reachable (net w) = true ->
      accepts (net w) FTP_USER FTP_PASS = true ->
      has_dir (net w) REMOTE_DIR = true ->
      read_file zip_path (disk w) = Raise e ->
      exists w',
        upload_to_ftp zip_path w = (Raise e, w')
        /\ IOError e = true
        /\ log w' = log w ++ [EvConnect FTP_HOST; EvLogin FTP_USER;
                              EvCwd REMOTE_DIR; EvOpenRead zip_path; EvClose]
        /\ remote_cwd w' = REMOTE_DIR
        /\ net w' = net w /\ sessions w' = sessions w /\ disk w' = disk w).
Proof.
  split.
  - intros evs Hl Hin. rewrite upload_to_ftp_eq in Hl. cbv zeta in Hl.
    destruct (reachable (net w));
      [destruct (accepts (net w) FTP_USER FTP_PASS);
       [destruct (has_dir (net w) REMOTE_DIR);
        [destruct (read_file zip_path (disk w));
         [destruct (stor_refused (net w));
          [destruct (stor_keeps (net w))|]|]|]|]
      |destruct (bad_greeting (net w))];
      unfold closed in Hl; world_simpl_in Hl; rewrite <- ?app_assoc in Hl;
      apply app_inv_head in Hl; subst evs; simpl in Hin;
      try (repeat split; reflexivity);
      exfalso; repeat (destruct Hin as [Hin|Hin]; [discriminate|]);
      exact Hin.
  - intros e Hr Ha Hd He. rewrite upload_to_ftp_eq. cbv zeta.
    rewrite Hr, Ha, Hd, He. eexists. split; [reflexivity|].
    split; [exact (read_file_raises _ _ _ He)|].
    unfold closed. world_simpl. rewrite <- !app_assoc.
    repeat split; reflexivity.
Qed.

(** ** The archiver *)

Section WellFormedWrites.
Context {os : OsPath}.

Lemma nodupb_app_one l x :
  nodupb l = true -> existsb (String.eqb x) l = false ->
  nodupb (l ++ [x]) = true.
Proof.
  induction l as [|y l IH]; simpl; [reflexivity|].
  intros Hnd Hx. apply andb_true_iff in Hnd as [Hy Hnd].
  apply orb_false_iff in Hx as [Hxy Hx].
  rewrite existsb_app. simpl. rewrite orb_false_r.
  apply negb_true_iff in Hy. rewrite Hy. simpl.
  rewrite String.eqb_sym, Hxy. simpl. auto.
Qed.

Lemma in_set_entry x c es y d :
  In (y, d) (set_entry x c es) -> In (y, d) es \/ (y = x /\ d = c).
Proof.
  induction es as [|[z e] es IH]; simpl; [contradiction|].
  destruct (String.eqb x z) eqn:E; simpl.
  - apply String.eqb_eq in E; subst z.
    intros [[= <- <-]|H]; auto.
  - intros [H|H]; auto. destruct (IH H); auto.
Qed.

(** Entering a file with a valid name keeps the tree well-formed. *)
Lemma wf_link_at full p i :
  forall n n',
    wf_node n = true ->
    Forall (fun x => valid_name x = true) p ->
    link_at full p i n = Ok n' ->
    wf_node n' = true.
Proof.
  induction p as [|x p IH]; intros n n' Hwf Hv Hw.
  - destruct n; simpl in Hw; [|discriminate]. now injection Hw as <-.
  - destruct n as [b|es]; simpl in Hw; [discriminate|].
    inversion Hv as [|? ? Hx Hp]; subst.
    destruct (wf_node_Dir _ Hwf) as [Hnd Hall].
    destruct (find_entry x es) as [child|] eqn:Hf.
    + destruct (link_at full p i child) as [child'|e] eqn:Hc; [|discriminate].
      injection Hw as <-. simpl. rewrite map_fst_set_entry, Hnd. simpl.
      apply forallb_forall. intros [y d] Hin.
      apply in_set_entry in Hin as [Hin|[-> ->]].
      * destruct (Hall _ _ Hin) as [H1 H2]. now rewrite H1, H2.
      * rewrite Hx. simpl. apply find_entry_In in Hf.
        destruct (Hall _ _ Hf) as [_ H2]. eapply IH; eassumption.
    + destruct p as [|z p]; [|discriminate].
      injection Hw as <-. simpl. rewrite map_app. simpl.
      rewrite nodupb_app_one by (auto using find_entry_None). simpl.
      rewrite forallb_app. simpl. rewrite Hx. simpl. rewrite andb_true_r.
      apply forallb_forall. intros [y d] Hin.
      destruct (Hall _ _ Hin) as [H1 H2]. now rewrite H1, H2.
Qed.

(** The only inode a new entry adds to the tree is its own. *)
Lemma inos_of_link_at full p i :
  forall n n' j,
    link_at full p i n = Ok n' ->
    In j (inos_of n') -> In j (inos_of n) \/ j = i.
Proof.
  induction p as [|x p IH]; intros n n' j Hw Hj.
  - destruct n; simpl in Hw; [|discriminate]. injection Hw as <-. auto.
  - destruct n as [b|es]; simpl in Hw; [discriminate|].
    destruct (find_entry x es) as [child|] eqn:Hf.
    + destruct (link_at full p i child) as [child'|e] eqn:Hc; [|discriminate].
      injection Hw as <-. simpl in Hj. apply in_flat_map in Hj as [[y d] [Hin Hj]].
      apply in_set_entry in Hin as [Hin|[-> ->]].
      * left. simpl. apply in_flat_map. exists (y, d). auto.
      * destruct (IH _ _ _ Hc Hj) as [H|H]; [|auto].
        left. simpl. apply in_flat_map. exists (x, child).
        split; [now apply find_entry_In|exact H].
    + destruct p as [|z p]; [|discriminate].
      injection Hw as <-. simpl in Hj. rewrite flat_map_app, in_app_iff in Hj.
      destruct Hj as [Hj|Hj]; [left; exact Hj|].
      simpl in Hj. destruct Hj as [<-|[]]. auto.
Qed.

(** Creating or overwriting a file with a valid name keeps the disk
    well-formed. *)
Lemma wf_fs_write_file p c d d' :
  wf_fs d = true ->
  Forall (fun x => valid_name x = true) p ->
  write_file p c d = Ok d' ->
  wf_fs d' = true.
Proof.
  unfold wf_fs. intros Hwf Hv Hw. apply andb_true_iff in Hwf as [Ht Hi].
  rewrite forallb_forall in Hi.
  destruct (write_file_inv _ _ _ _ Hw) as (_ & _ & [H|H]).
  - destruct H as (i & m & _ & _ & _ & Htree & Hin).
    rewrite Htree, Hin, map_fst_upd_inode, Ht. simpl.
    apply forallb_forall. exact Hi.
  - destruct H as (_ & Hk & Hin).
    rewrite (wf_link_at _ _ _ _ _ Ht Hv Hk). simpl.
    apply forallb_forall. intros j Hj. rewrite Hin. simpl.
    destruct (inos_of_link_at _ _ _ _ _ _ Hk Hj) as [H| ->].
    + rewrite (Hi _ H). apply orb_true_r.
    + now rewrite Nat.eqb_refl.
Qed.
End WellFormedWrites.



Lemma denied_ext d d' :
  unlistable d' = unlistable d -> denied d' = denied d.
Proof. unfold denied. now intros ->. Qed.

(** When the archive is not under the folder, opening it changes nothing
    the walk can see. *)
Lemma open_outside_folder folder zip c d d1 :
  write_file zip c d = Ok d1 ->
  is_prefix folder zip = false ->
  forall rel, lookup (folder ++ rel) d1 = lookup (folder ++ rel) d.
Proof.
  intros Hw Hp rel. apply (lookup_write_file _ _ _ _ _ Hw).
  now apply is_prefix_app_false.
Qed.

Lemma os_walk_after_open folder zip c d d1 :
  write_file zip c d = Ok d1 ->
  is_prefix folder zip = false ->
  os_walk folder d1 = os_walk folder d.
Proof.
  intros Hw Hp. unfold os_walk.
  pose proof (open_outside_folder _ _ _ _ _ Hw Hp []) as Hl.
  rewrite app_nil_r in Hl. rewrite Hl.
  destruct (write_file_inv _ _ _ _ Hw) as (Hu & _).
  now rewrite (denied_ext _ _ Hu).
Qed.

Lemma listable_under_write_file folder p c d d' :
  write_file p c d = Ok d' ->
  listable_under folder d' = listable_under folder d.
Proof.
  intros Hw. destruct (write_file_inv _ _ _ _ Hw) as (Hu & _).
  unfold listable_under. now rewrite Hu.
Qed.

Section Apart.
Context {os : OsPath}.

(** On a well-formed disk, a path that is not on the way to the archive
    and was no name of the archive's file is none after the archive was
    opened. *)
Lemma apart_after_write q zip c d d1 :
  wf_fs d = true ->
  write_file zip c d = Ok d1 ->
  is_prefix q zip = false ->
  same_ino q zip d = false ->
  same_ino q zip d1 = false.
Proof.
  intros Hwf Hw Hp Hs.
  pose proof (lookup_write_file _ _ _ _ _ Hw Hp) as Hl1.
  destruct (lookup q d) as [[j|es]|] eqn:Hl;
    try (unfold same_ino, ino_at; now rewrite Hl1).
  destruct (write_file_inode _ _ _ _ Hw) as (i & m & Hi & _).
  unfold same_ino, ino_at. rewrite Hl1, Hi.
  apply Nat.eqb_neq. intros ->.
  destruct (write_file_inv _ _ _ _ Hw) as (_ & _ & [H|H]).
  - destruct H as (i0 & m0 & Hz & _ & _ & Ht & _).
    unfold lookup in Hi, Hz. rewrite Ht, Hz in Hi. injection Hi as ->.
    unfold same_ino, ino_at, lookup in Hs. unfold lookup in Hl.
    rewrite Hl, Hz, Nat.eqb_refl in Hs. discriminate.
  - destruct H as (Hz & Hk & _).
    destruct (lookup_link_at_same _ _ _ _ _ Hk) as [j [Hj [Hold|[_ ->]]]];
      [unfold lookup in Hz; congruence|].
    unfold lookup in Hi. rewrite Hj in Hi. injection Hi as <-.
    destruct (wf_fs_inode _ _ _ Hwf Hl) as [_ Hne]. congruence.
Qed.

(** On a well-formed disk, an archive that is opened outside the folder
    and is no hard link to a file the walk reaches is none of the files
    the walk reaches, and those are what they were before the open. *)
Lemma archive_apart folder zip c d d1 :
  wf_fs d = true ->
  write_file zip c d = Ok d1 ->
  is_prefix folder zip = false ->
  walk_reaches folder zip d = false ->
  forall p, In p (visited (os_walk folder d)) ->
            same_ino p zip d1 = false
            /\ inode_at p d1 = inode_at p d
            /\ read_file p d1 = read_file p d.
Proof.
  intros Hwf Hw Hp Hr p Hin.
  assert (same_ino p zip d1 = false) as Hs.
  { destruct (visited_os_walk_file _ _ _ (wf_fs_tree _ Hwf) Hin)
      as [rel [j [_ [-> _]]]].
    apply (apart_after_write _ _ _ _ _ Hwf Hw);
      [now apply is_prefix_app_false|].
    unfold walk_reaches in Hr.
    destruct (same_ino (folder ++ rel) zip d) eqn:E; [|reflexivity].
    assert (existsb (fun p => same_ino p zip d)
                    (visited (os_walk folder d)) = true) as Hex
      by (apply existsb_exists; eauto).
    congruence. }
  split; [exact Hs|].
  destruct (write_file_frame _ _ _ _ _ Hw Hs) as (_ & H1 & H2 & _). auto.
Qed.
End Apart.

Section ArchiverClaims.
Context {os : OsPath} {zf : ZipFormat}.

Lemma read_archive_written {zl : ZipLossless zf} zip rs d1 d2 :
  write_file zip (zip_image rs) d1 = Ok d2 ->
  read_archive zip d2 = Some (map entry_of_record rs).
Proof.
  intros H. unfold read_archive. rewrite (read_write_file _ _ _ _ H).
  apply zip_parse_image.
Qed.

(** The entry written for a regular file below [folder]. *)
Lemma entry_of_under folder d rel i :
  wf_node (tree d) = true ->
  rel <> [] ->
  lookup (folder ++ rel) d = Some (File i) ->
  Forall (fun x => valid_name x = true) rel
  /\ zip_name (relpath (folder ++ rel) folder) = String.concat "/" rel.
Proof.
  intros Hwf Hne Hl.
  destruct (wf_lookup _ _ _ Hwf Hl) as [Hv _].
  apply Forall_app in Hv as [_ Hv]. split; [exact Hv|].
  now apply zip_name_relpath.
Qed.

(** What the hypotheses of a good run give for each visited path: it is
    not the archive and can be stored, on the disk the walk sees. *)
Lemma good_run_paths folder zip d d1 :
  wf_fs d = true ->
  write_file zip [] d = Ok d1 ->
  is_prefix folder zip = false ->
  walk_reaches folder zip d = false ->
  all_zippable folder d = true ->
  forall p, In p (visited (os_walk folder d1)) ->
            same_ino p zip d1 = false
            /\ exists m, inode_at p d1 = Some m
                         /\ zippable (zip_name (relpath p folder)) m = true.
Proof.
  intros Hwf Hopen Hout Hreach Hzip p Hp.
  rewrite (os_walk_after_open _ _ _ _ _ Hopen Hout) in Hp.
  destruct (archive_apart _ _ _ _ _ Hwf Hopen Hout Hreach p Hp)
    as (Hs & Hi & _).
  split; [exact Hs|]. rewrite Hi.
  unfold all_zippable in Hzip. rewrite forallb_forall in Hzip.
  specialize (Hzip _ Hp).
  destruct (inode_at p d) as [m|]; [eauto|discriminate].
Qed.

(** The entries of a good run are those of the visited files, as they
    were before the archive was opened. *)
Lemma good_run_entries folder zip d d1 :
  wf_fs d = true ->
  write_file zip [] d = Ok d1 ->
  is_prefix folder zip = false ->
  walk_reaches folder zip d = false ->
  all_zippable folder d = true ->
  map entry_of_record
      (map (record_of d1 folder) (visited (os_walk folder d1)))
  = map (entry_of d folder) (visited (os_walk folder d)).
Proof.
  intros Hwf Hopen Hout Hreach Hzip.
  rewrite (os_walk_after_open _ _ _ _ _ Hopen Hout), map_map.
  apply map_ext_in. intros p Hp.
  destruct (archive_apart _ _ _ _ _ Hwf Hopen Hout Hreach p Hp)
    as (_ & Hi & _).
  unfold all_zippable in Hzip. rewrite forallb_forall in Hzip.
  specialize (Hzip _ Hp).
  unfold entry_of_record, record_of, entry_of. simpl. rewrite Hi.
  unfold inode_at, read_file in *.
  destruct (lookup p d) as [[i|es]|]; try discriminate.
  destruct (find_inode i (inodes d)) as [m|]; [|discriminate].
  unfold zippable in Hzip.
  apply andb_true_iff in Hzip as [Hzip _].
  apply andb_true_iff in Hzip as [_ Hr]. now rewrite Hr.
Qed.

(** C1 (amended).  On a well-formed disk where every directory under
    the folder can be listed and every file under it can be stored
    (readable, last modified between 1980 and 2107, entry name encodable
    as UTF-8), when the archive can be opened for writing, does not lie
    under the folder and is no hard link to a file under it,
    [zip_folder] succeeds and leaves at [zip_path] an archive that reads
    back as a list of entries such that: the entry names are exactly the
    ["/"]-joined relative paths of the regular files strictly below the
    folder, at any depth; an entry with a given name and data is in the
    archive exactly when the data is the deflated contents of the file of
    that name; and inflating any entry gives back, byte for byte, the
    file found under the folder at the entry's name. *)
Theorem zip_folder_entries {zl : ZipLossless zf}
    (folder zip : path) (w : world) (d1 : fs) :
  wf_fs (disk w) = true ->
  listable_under folder (disk w) = true ->
  all_zippable folder (disk w) = true ->
  write_file zip [] (disk w) = Ok d1 ->
  is_prefix folder zip = false ->
  walk_reaches folder zip (disk w) = false ->
  exists w' entries,
    zip_folder folder zip w = (Ok tt, w')
    /\ read_archive zip (disk w') = Some entries
    /\ (forall name,
           In name (map fst entries) <->
           exists rel,
             rel <> [] /\ is_file (folder ++ rel) (disk w) = true
             /\ name = String.concat "/" rel)
    /\ (forall name data,
           In (name, data) entries <->
           exists rel b,
             rel <> []
             /\ read_file (folder ++ rel) (disk w) = Ok b
             /\ name = String.concat "/" rel /\ data = deflate b)
    /\ (forall name data,
           In (name, data) entries ->
           exists b,
             inflate data = Some b
             /\ read_file (folder ++ split_on "/" "" name) (disk w) = Ok b).
Proof.
  intros Hwf Hls Hzip Hopen Hout Hreach.
  destruct (zip_folder_run folder zip w d1 Hopen)
    as (r & d2 & evs & Hrun & _ & _ & _ & _ & Hall).
  destruct (Hall (good_run_paths _ _ _ _ Hwf Hopen Hout Hreach Hzip))
    as (-> & Hclose & _). clear Hall.
  apply read_archive_written in Hclose.
  rewrite (good_run_entries _ _ _ _ Hwf Hopen Hout Hreach Hzip) in Hclose.
  pose proof (wf_fs_tree _ Hwf) as Hwt.
  assert (forall rel i,
             rel <> [] -> lookup (folder ++ rel) (disk w) = Some (File i) ->
             exists b, read_file (folder ++ rel) (disk w) = Ok b) as Hreadable.
  { intros rel i Hne Hl.
    assert (In (folder ++ rel) (visited (os_walk folder (disk w)))) as Hin
      by (apply (visited_os_walk _ _ _ Hwt Hls); eauto).
    unfold all_zippable in Hzip. rewrite forallb_forall in Hzip.
    specialize (Hzip _ Hin). unfold inode_at, read_file in *. rewrite Hl in *.
    destruct (find_inode i (inodes (disk w))) as [m|]; [|discriminate].
    unfold zippable in Hzip.
    apply andb_true_iff in Hzip as [Hzip _].
    apply andb_true_iff in Hzip as [_ Hr]. rewrite Hr. eauto. }
  assert (forall rel b,
             read_file (folder ++ rel) (disk w) = Ok b ->
             exists i, lookup (folder ++ rel) (disk w) = Some (File i)) as Hfile.
  { intros rel b. unfold read_file.
    destruct (lookup (folder ++ rel) (disk w)) as [[i|]|]; try discriminate.
    eauto. }
  assert (forall name data,
             In (name, data)
                (map (entry_of (disk w) folder)
                     (visited (os_walk folder (disk w))))
             <-> exists rel b,
               rel <> []
               /\ read_file (folder ++ rel) (disk w) = Ok b
               /\ name = String.concat "/" rel /\ data = deflate b) as Hiff.
  { intros name data. rewrite in_map_iff. split.
    - intros [p [He Hp]].
      apply (visited_os_walk _ _ _ Hwt Hls) in Hp as [rel [i [Hne [-> Hl]]]].
      destruct (Hreadable _ _ Hne Hl) as [b Hb].
      exists rel, b. split; [exact Hne|]. split; [exact Hb|].
      destruct (entry_of_under _ _ _ _ Hwt Hne Hl) as [_ Hname].
      unfold entry_of in He. rewrite Hb, Hname in He.
      now injection He as <- <-.
    - intros [rel [b [Hne [Hb [-> ->]]]]].
      destruct (Hfile _ _ Hb) as [i Hl].
      exists (folder ++ rel). split.
      + destruct (entry_of_under _ _ _ _ Hwt Hne Hl) as [_ Hname].
        unfold entry_of. now rewrite Hb, Hname.
      + apply (visited_os_walk _ _ _ Hwt Hls). eauto. }
  eexists. eexists. split; [exact Hrun|]. world_simpl.
  split; [exact Hclose|].
  split; [|split; [exact Hiff|]].
  { intros name. rewrite in_map_iff. split.
    - intros [[n data] [<- Hin]]. simpl.
      apply Hiff in Hin as [rel [b [Hne [Hb [-> _]]]]].
      destruct (Hfile _ _ Hb) as [i Hl].
      exists rel. unfold is_file. rewrite Hl. auto.
    - intros [rel [Hne [Hf ->]]]. unfold is_file in Hf.
      destruct (lookup (folder ++ rel) (disk w)) as [[i|]|] eqn:Hl;
        try discriminate.
      destruct (Hreadable _ _ Hne Hl) as [b Hb].
      exists (String.concat "/" rel, deflate b). split; [reflexivity|].
      apply Hiff. exists rel, b. auto. }
  intros name data Hin. apply Hiff in Hin as [rel [b [Hne [Hb [-> ->]]]]].
  exists b. split; [apply inflate_deflate|].
  destruct (Hfile _ _ Hb) as [i Hl].
  destruct (entry_of_under _ _ _ _ Hwt Hne Hl) as [Hv _].
  now rewrite split_on_concat.
Qed.

Lemma valid_name_not_dotdot : valid_name ".." = false.
Proof. reflexivity. Qed.

Lemma valid_name_not_empty : valid_name "" = false.
Proof. reflexivity. Qed.

(** C6.  On a well-formed disk, whatever the host's separator, and
    unless the run ended with the disk full, the archive [zip_folder]
    leaves reads back, and every entry of it has a name that splits on
    ["/"] into a non-empty list of file names (none empty, none ["."] or
    [".."], none containing a separator), is the ["/"]-join of that
    list, and that list is the path, below the folder, of a regular
    file: names are relative to the folder, reflect the nesting, never
    start with ["/"] and never climb out.  When the run returned
    normally and every directory under the folder can be listed, every
    regular file below the folder, at any depth, has its entry under the
    ["/"]-join of its path below the folder. *)
Theorem entry_names_relative {zl : ZipLossless zf}
    (folder zip : path) (w w' : world) (d1 : fs) (r : result unit) :
  wf_fs (disk w) = true ->
  Forall (fun x => valid_name x = true) zip ->
  write_file zip [] (disk w) = Ok d1 ->
  zip_folder folder zip w = (r, w') ->
  r <> Raise (OSError 28) ->
  exists entries,
    read_archive zip (disk w') = Some entries
    /\ (forall name data,
        In (name, data) entries ->
        let segs := split_on "/" "" name in
        segs <> []
        /\ name = String.concat "/" segs
        /\ Forall (fun x => valid_name x = true) segs
        /\ ~ In ".." segs /\ ~ In "" segs
        /\ is_file (folder ++ segs) (disk w') = true)
    /\ (r = Ok tt ->
        listable_under folder (disk w) = true ->
        forall rel,
          rel <> [] -> is_file (folder ++ rel) (disk w') = true ->
          In (String.concat "/" rel) (map fst entries)).
Proof.
  intros Hwf Hzip Hopen Hrun Hr.
  destruct (zip_folder_run folder zip w d1 Hopen)
    as (r0 & d2 & evs & Hrun' & _ & Htree & Hunl & Hcase & _).
  rewrite Hrun in Hrun'. injection Hrun' as <- ->. world_simpl.
  destruct Hcase as [[Hr' _]|[_ [members [Hclose [Hent Hall]]]]];
    [contradiction|].
  assert (wf_node (tree d1) = true) as Hwf1
    by (apply wf_fs_tree; eapply wf_fs_write_file; eassumption).
  exists (map entry_of_record members).
  split; [exact (read_archive_written _ _ _ _ Hclose)|]. split.
  - intros name data Hin. apply in_map_iff in Hin as [r0 [He Hin]].
    rewrite Forall_forall in Hent.
    destruct (Hent _ Hin) as [p [ms [Hp Hm]]].
    destruct (zip_member_added _ _ _ _ _ _ Hm) as [Hname _].
    injection He as <- _. rewrite Hname.
    apply (visited_os_walk_file _ _ _ Hwf1) in Hp as [rel [i [Hne [-> Hl]]]].
    destruct (entry_of_under _ _ _ _ Hwf1 Hne Hl) as [Hv Hn].
    rewrite Hn. cbv zeta. rewrite split_on_concat by assumption.
    split; [exact Hne|]. split; [reflexivity|]. split; [exact Hv|].
    rewrite Forall_forall in Hv.
    split; [intros H; apply Hv in H; now rewrite valid_name_not_dotdot in H|].
    split; [intros H; apply Hv in H; now rewrite valid_name_not_empty in H|].
    unfold is_file, lookup in *. now rewrite Htree, Hl.
  - intros -> Hls rel Hne Hf. specialize (Hall eq_refl).
    unfold is_file, lookup in Hf. rewrite Htree in Hf.
    destruct (lookup_node (folder ++ rel) (tree d1)) as [[i|]|] eqn:Hl;
      try discriminate.
    assert (In (folder ++ rel) (visited (os_walk folder d1))) as Hin.
    { apply (visited_os_walk _ _ _ Hwf1).
      - now rewrite (listable_under_write_file _ _ _ _ _ Hopen).
      - exists rel, i. auto. }
    destruct (entry_of_under folder d1 rel i Hwf1 Hne Hl) as [_ Hn].
    rewrite <- Hn. clear - Hall Hin.
    induction Hall as [|p r0 ps rs [ms Hm] _ IH]; [contradiction|].
    destruct (zip_member_added _ _ _ _ _ _ Hm) as [Hname _].
    simpl. destruct Hin as [->|Hin]; [left; exact Hname|right; auto].
Qed.

(** C7 (amended).  When the folder is an existing directory with no
    regular file anywhere below it, and the archive can be opened for
    writing and does not lie under the folder, [zip_folder] raises
    nothing and leaves at [zip_path] a valid archive that reads back
    with zero entries. *)
Theorem zip_folder_no_files {zl : ZipLossless zf}
    (folder zip : path) (w : world) (d1 : fs) (sub : node) :
  lookup folder (disk w) = Some sub ->
  no_files sub = true ->
  write_file zip [] (disk w) = Ok d1 ->
  is_prefix folder zip = false ->
  exists w',
    zip_folder folder zip w = (Ok tt, w')
    /\ read_archive zip (disk w') = Some []
    /\ log w' = log w ++ [EvOpenWrite zip; EvWalk folder; EvZipClose zip].
Proof.
  intros Hsub Hnf Hopen Hout.
  destruct (zip_folder_run folder zip w d1 Hopen)
    as (r & d2 & evs & Hrun & _ & _ & _ & _ & Hall).
  assert (visited (os_walk folder d1) = []) as Hnone.
  { unfold os_walk.
    pose proof (open_outside_folder _ _ _ _ _ Hopen Hout []) as Hsame.
    rewrite app_nil_r in Hsame. rewrite Hsame, Hsub.
    destruct sub as [b|es]; [reflexivity|].
    now apply no_files_visited. }
  rewrite Hnone in Hall.
  destruct Hall as (-> & Hclose & ->); [intros p []|].
  eexists. split; [exact Hrun|]. world_simpl.
  split; [exact (read_archive_written _ _ _ _ Hclose)|reflexivity].
Qed.

(** C8 (amended).  [zip_folder] touches the local disk at the file
    [zip_path] names and nowhere else: on every outcome, every path that
    is not a name of that file afterwards ([zip_path] itself or a hard
    link to it) is what it was before (absent, a directory, or a regular
    file with the same bytes), and reading it gives what it gave.  When
    the archive is not under the folder, the folder's tree of names is
    unchanged, and on a well-formed disk every path at or below the
    folder that was no hard link to the archive keeps its status and
    its contents.  The server is not involved. *)
Theorem zip_folder_frame (folder zip : path) (w : world) :
  (forall q,
      same_ino q zip (disk (snd (zip_folder folder zip w))) = false ->
      stat q (disk (snd (zip_folder folder zip w))) = stat q (disk w)
      /\ read_file q (disk (snd (zip_folder folder zip w)))
         = read_file q (disk w))
  /\ (is_prefix folder zip = false ->
      lookup folder (disk (snd (zip_folder folder zip w)))
      = lookup folder (disk w))
  /\ (wf_fs (disk w) = true ->
      is_prefix folder zip = false ->
      forall rel,
        same_ino (folder ++ rel) zip (disk w) = false ->
        stat (folder ++ rel) (disk (snd (zip_folder folder zip w)))
        = stat (folder ++ rel) (disk w)
        /\ read_file (folder ++ rel) (disk (snd (zip_folder folder zip w)))
           = read_file (folder ++ rel) (disk w))
  /\ net (snd (zip_folder folder zip w)) = net w
  /\ sessions (snd (zip_folder folder zip w)) = sessions w.
Proof.
  destruct (write_file zip [] (disk w)) as [d1|e] eqn:Hopen.
  - destruct (zip_folder_run folder zip w d1 Hopen)
      as (r & d2 & evs & Hrun & _ & Htree & _ & Hcase & _).
    rewrite Hrun. world_simpl.
    assert (exists c, write_file zip c d1 = Ok d2) as [c Hclose].
    { destruct Hcase as [[_ [rest H]]|[_ [members [H _]]]]; eauto. }
    assert (forall q, same_ino q zip d2 = same_ino q zip d1) as Hsame.
    { intros q. unfold same_ino, ino_at, lookup. now rewrite Htree. }
    assert (forall q, same_ino q zip d2 = false ->
                      stat q d2 = stat q (disk w)
                      /\ read_file q d2 = read_file q (disk w)) as Hframe.
    { intros q Hq.
      destruct (write_file_frame _ _ _ _ _ Hclose Hq) as (H1 & H2 & _).
      rewrite Hsame in Hq.
      destruct (write_file_frame _ _ _ _ _ Hopen Hq) as (H3 & H4 & _).
      split; congruence. }
    split; [exact Hframe|]. split; [|split; [|split; reflexivity]].
    + intros Hout. unfold lookup. rewrite Htree.
      apply (lookup_write_file _ _ _ _ _ Hopen Hout).
    + intros Hwf Hout rel Hs. apply Hframe. rewrite Hsame.
      apply (apart_after_write _ _ _ _ _ Hwf Hopen);
        [now apply is_prefix_app_false|exact Hs].
  - rewrite (zip_folder_open_fails folder zip w e Hopen). world_simpl. auto.
Qed.

End ArchiverClaims.


(** ** The main block *)

Section MainBlock.
Context {os : OsPath} {zf : ZipFormat}.

Lemma os_remove_eq p w :
  os_remove p w =
  match remove_file p (disk w) with
  | Ok d => (Ok tt, set_disk d (add_log (EvRemove p) w))
  | Raise e => (Raise e, add_log (EvRemove p) w)
  end.
Proof. reflexivity. Qed.

(** The main block run symbolically: each step is reached only when the
    one before it returned. *)
Lemma main_eq w :
  main w =
  match zip_folder (path_of LOCAL_DIR) (path_of ZIP_FILE)
                   (add_log (EvPrint "Zipping folder...") w) with
  | (Ok _, w1) =>
      match upload_to_ftp (path_of ZIP_FILE)
              (add_log (EvPrint "Uploading zip file to FTP server...") w1) with
      | (Ok _, w2) =>
          os_remove (path_of ZIP_FILE)
            (add_log (EvPrint "Cleaning up local zip file...")
               (add_log (EvPrint "Unzipping on the server must be handled server-side, e.g., via SSH or a server script.")
                  (add_log (EvPrint "Unzipping on the server...") w2)))
      | (Raise e, w2) => (Raise e, w2)
      end
  | (Raise e, w1) => (Raise e, w1)
  end.
Proof.
  unfold main. unfold bind at 1, print at 1, emit at 1.
  unfold bind at 1.
  destruct (zip_folder (path_of LOCAL_DIR) (path_of ZIP_FILE)
              (add_log (EvPrint "Zipping folder...") w)) as [[[]|e] w1];
    [|reflexivity].
  unfold bind at 1, print at 1, emit at 1. unfold bind at 1.
  destruct (upload_to_ftp (path_of ZIP_FILE)
              (add_log (EvPrint "Uploading zip file to FTP server...") w1))
    as [[[]|e] w2]; reflexivity.
Qed.

Lemma zip_folder_log folder zip w :
  exists evs,
    log (snd (zip_folder folder zip w)) = log w ++ evs
    /\ Forall no_remove evs.
Proof.
  destruct (write_file zip [] (disk w)) as [d1|e] eqn:Hopen.
  - destruct (zip_folder_run folder zip w d1 Hopen)
      as (r & d2 & evs & Hrun & Hev & _).
    rewrite Hrun. world_simpl. eexists. split; [reflexivity|].
    repeat constructor. apply Forall_app. split; [|repeat constructor].
    eapply Forall_impl; [|exact Hev]. intros []; simpl; tauto.
  - rewrite (zip_folder_open_fails folder zip w e Hopen). world_simpl.
    eexists. split; [reflexivity|]. repeat constructor.
Qed.

Lemma upload_log zip w :
  exists evs,
    log (snd (upload_to_ftp zip w)) = log w ++ EvConnect FTP_HOST :: evs
    /\ Forall no_remove evs.
Proof.
  rewrite upload_to_ftp_eq. cbv zeta.
  destruct (reachable (net w));
    [destruct (accepts (net w) FTP_USER FTP_PASS);
     [destruct (has_dir (net w) REMOTE_DIR);
      [destruct (read_file zip (disk w));
       [destruct (stor_refused (net w));
        [destruct (stor_keeps (net w))|]|]|]|]
    |destruct (bad_greeting (net w))];
    unfold closed; world_simpl; rewrite <- ?app_assoc; simpl;
    (eexists; split; [reflexivity|repeat constructor]).
Qed.

Lemma upload_disk zip w : disk (snd (upload_to_ftp zip w)) = disk w.
Proof.
  rewrite upload_to_ftp_eq. cbv zeta.
  destruct (reachable (net w));
    [destruct (accepts (net w) FTP_USER FTP_PASS);
     [destruct (has_dir (net w) REMOTE_DIR);
      [destruct (read_file zip (disk w));
       [destruct (stor_refused (net w));
        [destruct (stor_keeps (net w))|]|]|]|]
    |destruct (bad_greeting (net w))];
    reflexivity.
Qed.

Lemma zip_folder_ok_file folder zip w r w1 :
  zip_folder folder zip w = (r, w1) ->
  r = Ok tt ->
  exists entries, read_file zip (disk w1) = Ok (zip_image entries).
Proof.
  intros Hz ->.
  destruct (write_file zip [] (disk w)) as [d1|e] eqn:Hopen.
  - destruct (zip_folder_run folder zip w d1 Hopen)
      as (r & d2 & evs & Hrun & _ & _ & _ & Hcase & _).
    rewrite Hrun in Hz. injection Hz as -> <-. world_simpl.
    destruct Hcase as [[Hr _]|[_ [members [Hclose _]]]]; [discriminate|].
    exists members. exact (read_write_file _ _ _ _ Hclose).
  - rewrite (zip_folder_open_fails folder zip w e Hopen) in Hz. discriminate.
Qed.

Lemma no_remove_not_in evs p : Forall no_remove evs -> ~ In (EvRemove p) evs.
Proof.
  intros H Hin. rewrite Forall_forall in H. exact (H _ Hin).
Qed.

(** C3.  The main block removes the local archive only after
    [upload_to_ftp] has returned: if, after the archive was written, the
    upload raises, the run ends there with that exception, the disk is
    what the archiver left, and the archive is still at [ZIP_FILE];
    and whenever the run gets to remove the archive, both the archiver
    and the upload returned normally before. *)
Theorem main_keeps_archive_on_failed_upload (w : world) :
  (forall w1 w2 e,
      zip_folder (path_of LOCAL_DIR) (path_of ZIP_FILE)
                 (add_log (EvPrint "Zipping folder...") w) = (Ok tt, w1) ->
      upload_to_ftp (path_of ZIP_FILE)
        (add_log (EvPrint "Uploading zip file to FTP server...") w1)
      = (Raise e, w2) ->
      main w = (Raise e, w2)
      /\ disk w2 = disk w1
      /\ exists entries,
          read_file (path_of ZIP_FILE) (disk w2) = Ok (zip_image entries))
  /\ (forall evs,
      log (snd (main w)) = log w ++ evs ->
      In (EvRemove (path_of ZIP_FILE)) evs ->
      exists w1 w2,
        zip_folder (path_of LOCAL_DIR) (path_of ZIP_FILE)
                   (add_log (EvPrint "Zipping folder...") w) = (Ok tt, w1)
        /\ upload_to_ftp (path_of ZIP_FILE)
             (add_log (EvPrint "Uploading zip file to FTP server...") w1)
           = (Ok tt, w2)).
Proof.
  split.
  - intros w1 w2 e Hz Hu. rewrite main_eq, Hz, Hu. split; [reflexivity|].
    pose proof (upload_disk (path_of ZIP_FILE)
      (add_log (EvPrint "Uploading zip file to FTP server...") w1)) as Hd.
    rewrite Hu in Hd. simpl in Hd. split; [exact Hd|].
    rewrite Hd. exact (zip_folder_ok_file _ _ _ _ _ Hz eq_refl).
  - intros evs Hlog Hin. rewrite main_eq in Hlog.
    destruct (zip_folder_log (path_of LOCAL_DIR) (path_of ZIP_FILE)
                (add_log (EvPrint "Zipping folder...") w))
      as [evs1 [Hl1 Hn1]].
    destruct (zip_folder (path_of LOCAL_DIR) (path_of ZIP_FILE)
                (add_log (EvPrint "Zipping folder...") w))
      as [[[]|e] w1] eqn:Hz; simpl in Hl1.
    + destruct (upload_log (path_of ZIP_FILE)
        (add_log (EvPrint "Uploading zip file to FTP server...") w1))
        as [evs2 [Hl2 Hn2]].
      destruct (upload_to_ftp (path_of ZIP_FILE)
        (add_log (EvPrint "Uploading zip file to FTP server...") w1))
        as [[[]|e] w2] eqn:Hu; simpl in Hl2.
      * exists w1, w2. auto.
      * exfalso. simpl in Hlog. rewrite Hl2, Hl1 in Hlog.
        rewrite <- !app_assoc in Hlog. apply app_inv_head in Hlog.
        subst evs.
        apply (no_remove_not_in
                 ([EvPrint "Zipping folder..."] ++ evs1
                  ++ [EvPrint "Uploading zip file to FTP server..."]
                  ++ EvConnect FTP_HOST :: evs2) (path_of ZIP_FILE));
          [|exact Hin].
        repeat (apply Forall_app; split); repeat constructor; assumption.
    + exfalso. simpl in Hlog. rewrite Hl1 in Hlog.
      rewrite <- !app_assoc in Hlog. apply app_inv_head in Hlog.
      subst evs.
      apply (no_remove_not_in ([EvPrint "Zipping folder..."] ++ evs1)
               (path_of ZIP_FILE)); [|exact Hin].
      apply Forall_app; split; [repeat constructor|assumption].
Qed.
End MainBlock.

(** ** The stored format is lossless *)

Lemma parse_nat_encode n rest :
  Stored.parse_nat (Stored.encode_nat n ++ rest) = Some (n, rest).
Proof.
  unfold Stored.encode_nat. induction n as [|n IH]; simpl; [reflexivity|].
  now rewrite IH.
Qed.

Lemma parse_block_encode b rest :
  Stored.parse_block (Stored.encode_block b ++ rest) = Some (b, rest).
Proof.
  unfold Stored.parse_block, Stored.encode_block.
  rewrite <- app_assoc, parse_nat_encode.
  assert (Nat.ltb (List.length (b ++ rest)) (List.length b) = false) as ->.
  { apply Nat.ltb_ge. rewrite length_app. lia. }
  rewrite firstn_app, firstn_all, Nat.sub_diag, skipn_app, skipn_all,
    Nat.sub_diag.
  simpl. now rewrite app_nil_r.
Qed.

Lemma parse_entries_encode es rest :
  Stored.parse_entries (List.length es) (flat_map Stored.encode_entry es ++ rest)
  = Some (es, rest).
Proof.
  induction es as [|[name data] es IH]; simpl; [reflexivity|].
  unfold Stored.encode_entry at 1. simpl.
  rewrite <- !app_assoc, parse_block_encode, parse_block_encode, IH.
  now rewrite string_of_list_byte_of_string.
Qed.

Lemma stored_lossless : ZipLossless Stored.format.
Proof.
  split; [reflexivity|]. intros os rs. simpl.
  unfold Stored.parse, Stored.image. rewrite parse_nat_encode.
  rewrite <- (app_nil_r (flat_map Stored.encode_entry _)).
  now rewrite parse_entries_encode.
Qed.

(** ** A missing source folder *)

Section MissingSource.
Context {os : OsPath} {zf : ZipFormat}.

Lemma zip_folder_missing_folder folder zip w d1 :
  is_dir folder (disk w) = false ->
  write_file zip [] (disk w) = Ok d1 ->
  exists d2,
    write_file zip (zip_image []) d1 = Ok d2
    /\ zip_folder folder zip w
       = (Ok tt,
          {| disk := d2; zip_buffer := []; zip_wreck := None; net := net w;
             sessions := sessions w; remote_cwd := remote_cwd w;
             log := log w ++ [EvOpenWrite zip; EvWalk folder; EvZipClose zip] |}).
Proof.
  intros Hd Hopen.
  destruct (zip_folder_run folder zip w d1 Hopen)
    as (r & d2 & evs & Hrun & _ & _ & _ & _ & Hall).
  rewrite <- (is_dir_write_file _ _ _ _ folder Hopen) in Hd.
  rewrite (os_walk_not_dir _ _ Hd) in Hall.
  destruct Hall as (-> & Hclose & ->); [intros p []|].
  exists d2. split; [exact Hclose|exact Hrun].
Qed.

(** C2 (amended).  A missing source folder is no error.  When
    [LOCAL_DIR] is not a directory and [ZIP_FILE] can be opened for
    writing, the archiver returns normally, having created [ZIP_FILE] as
    a valid archive with zero entries, and the run goes on: the next
    things it does are to announce the upload and to connect to the
    server. *)
Theorem main_missing_source {zl : ZipLossless zf} (w : world) (d1 : fs) :
  is_dir (path_of LOCAL_DIR) (disk w) = false ->
  write_file (path_of ZIP_FILE) [] (disk w) = Ok d1 ->
  exists w1 evs,
    zip_folder (path_of LOCAL_DIR) (path_of ZIP_FILE)
               (add_log (EvPrint "Zipping folder...") w) = (Ok tt, w1)
    /\ read_archive (path_of ZIP_FILE) (disk w1) = Some []
    /\ log (snd (main w))
       = log w ++ [EvPrint "Zipping folder...";
                   EvOpenWrite (path_of ZIP_FILE);
                   EvWalk (path_of LOCAL_DIR);
                   EvZipClose (path_of ZIP_FILE);
                   EvPrint "Uploading zip file to FTP server...";
                   EvConnect FTP_HOST] ++ evs.
Proof.
  intros Hd Hopen.
  destruct (zip_folder_missing_folder (path_of LOCAL_DIR) (path_of ZIP_FILE)
              (add_log (EvPrint "Zipping folder...") w) d1 Hd Hopen)
    as [d2 [Hclose Hz]].
  rewrite main_eq, Hz.
  match goal with
  | |- context [upload_to_ftp ?z ?w0] =>
      destruct (upload_log z w0) as [evs2 [Hl2 _]];
      destruct (upload_to_ftp z w0) as [[[]|e] w2]
  end; world_simpl_in Hl2.
  - eexists. eexists.
    split; [reflexivity|]. world_simpl.
    split; [exact (read_archive_written _ _ _ _ Hclose)|].
    rewrite os_remove_eq.
    destruct (remove_file _ _); world_simpl; rewrite Hl2;
      rewrite <- !app_assoc; simpl; reflexivity.
  - eexists. exists evs2.
    split; [reflexivity|]. world_simpl.
    split; [exact (read_archive_written _ _ _ _ Hclose)|].
    rewrite Hl2. rewrite <- !app_assoc. reflexivity.
Qed.
End MissingSource.

(** ** The claims on concrete worlds *)

(** C1, counterexample.  Five source trees on which the archive's
    entries are not the files of the tree with their bytes.  With the
    archive inside the folder, the archive lists itself: it has an entry
    [o.zip], while the tree the function was called on has no such file.
    With a file whose name is not UTF-8, or one last modified before
    1980, the call raises at that file and the archive holds only what
    was written before it.  With the archive a hard link to a file under
    the folder, opening the archive empties that file before it is read,
    so the entry of that name does not hold the file's bytes.  With a
    subdirectory that cannot be listed, the call returns normally and
    the files below that subdirectory have no entry. *)
Lemma archive_entries_differ :
  (option_map (map fst)
     (read_archive (zf := Stored.format) Demo.zip_inside
        (disk (snd (zip_folder (os := posixpath) (zf := Stored.format)
                      Demo.folder Demo.zip_inside Demo.w0))))
   = Some ["a.txt"; "o.zip"; "sub/b.txt"]
   /\ is_file (Demo.folder ++ ["o.zip"]) (disk Demo.w0) = false)
  /\ (fst (zip_folder (os := posixpath) (zf := Stored.format)
             Demo.folder Demo.zip_outside
             (Demo.start Demo.tree_with_odd_name Demo.good_server))
      = Raise (UnicodeEncodeError Demo.odd_name)
      /\ option_map (map fst)
           (read_archive (zf := Stored.format) Demo.zip_outside
              (disk (snd (zip_folder (os := posixpath) (zf := Stored.format)
                            Demo.folder Demo.zip_outside
                            (Demo.start Demo.tree_with_odd_name
                                        Demo.good_server)))))
         = Some ["a.txt"]
      /\ is_file (Demo.folder ++ ["sub"; "b.txt"]) Demo.tree_with_odd_name
         = true)
  /\ (fst (zip_folder (os := posixpath) (zf := Stored.format)
             Demo.folder Demo.zip_outside
             (Demo.start Demo.tree_with_old_file Demo.good_server))
      = Raise (ValueError "ZIP does not support timestamps before 1980")
      /\ option_map (map fst)
           (read_archive (zf := Stored.format) Demo.zip_outside
              (disk (snd (zip_folder (os := posixpath) (zf := Stored.format)
                            Demo.folder Demo.zip_outside
                            (Demo.start Demo.tree_with_old_file
                                        Demo.good_server)))))
         = Some ["a.txt"])
  /\ (read_file (Demo.folder ++ ["a.txt"]) Demo.tree_with_link
      = Ok Demo.hello
      /\ is_prefix Demo.folder Demo.zip_outside = false
      /\ fst (zip_folder (os := posixpath) (zf := Stored.format)
                Demo.folder Demo.zip_outside
                (Demo.start Demo.tree_with_link Demo.good_server))
         = Ok tt
      /\ exists entries,
          read_archive (zf := Stored.format) Demo.zip_outside
            (disk (snd (zip_folder (os := posixpath) (zf := Stored.format)
                          Demo.folder Demo.zip_outside
                          (Demo.start Demo.tree_with_link
                                      Demo.good_server))))
          = Some entries
          /\ In "a.txt" (map fst entries)
          /\ ~ In ("a.txt", Demo.hello) entries)
  /\ (fst (zip_folder (os := posixpath) (zf := Stored.format)
             Demo.folder Demo.zip_outside
             (Demo.start Demo.tree_with_closed_sub Demo.good_server))
      = Ok tt
      /\ option_map (map fst)
           (read_archive (zf := Stored.format) Demo.zip_outside
              (disk (snd (zip_folder (os := posixpath) (zf := Stored.format)
                            Demo.folder Demo.zip_outside
                            (Demo.start Demo.tree_with_closed_sub
                                        Demo.good_server)))))
         = Some ["a.txt"]
      /\ is_file (Demo.folder ++ ["sub"; "b.txt"]) Demo.tree_with_closed_sub
         = true).
Proof.
  split; [split; vm_compute; reflexivity|].
  split; [repeat split; vm_compute; reflexivity|].
  split; [repeat split; vm_compute; reflexivity|].
  split; [|repeat split; vm_compute; reflexivity].
  split; [vm_compute; reflexivity|]. split; [reflexivity|].
  split; [vm_compute; reflexivity|].
  eexists. split; [vm_compute; reflexivity|].
  split; [simpl; auto|].
  simpl. intros [H|[H|[]]]; discriminate.
Qed.

(** C1, the amended claim at the scenario of the spec. *)
Lemma zip_folder_entries_witness :
  wf_fs (os := posixpath) (disk Demo.w0) = true
  /\ listable_under Demo.folder (disk Demo.w0) = true
  /\ all_zippable (os := posixpath) Demo.folder (disk Demo.w0) = true
  /\ is_prefix Demo.folder Demo.zip_outside = false
  /\ walk_reaches Demo.folder Demo.zip_outside (disk Demo.w0) = false
  /\ exists w' entries,
      zip_folder (os := posixpath) (zf := Stored.format)
        Demo.folder Demo.zip_outside Demo.w0 = (Ok tt, w')
      /\ read_archive (zf := Stored.format) Demo.zip_outside (disk w')
         = Some entries
      /\ In ("sub/b.txt", Demo.world_) entries
      /\ ~ In "sounds.zip" (map fst entries).
Proof.
  repeat (split; [vm_compute; reflexivity|]).
  destruct (@zip_folder_entries posixpath Stored.format stored_lossless
              Demo.folder Demo.zip_outside Demo.w0
              (Demo.opened Demo.zip_outside (disk Demo.w0)))
    as (w' & entries & H1 & H2 & H3 & H4 & H5);
    try (vm_compute; reflexivity).
  exists w', entries. repeat split; try assumption.
  - apply H4. exists ["sub"; "b.txt"], Demo.world_.
    repeat split; try reflexivity. discriminate.
  - intros Hin. apply H3 in Hin as [rel [_ [Hf Hn]]].
    destruct rel as [|x [|y rel]]; try discriminate.
    + simpl in Hn. subst x. vm_compute in Hf. discriminate.
    + assert (no_seps (os := posixpath) "sounds.zip" = true) as Hs
          by reflexivity.
      rewrite Hn in Hs. clear - Hs. exfalso. revert Hs.
      change (String.concat "/" (x :: y :: rel))
        with (x ++ String "/" (String.concat "/" (y :: rel)))%string.
      induction x as [|c x IH]; simpl.
      * discriminate.
      * intros H. apply andb_true_iff in H as [_ H]. auto.
Defined.

(** C2, counterexample.  With no [./dist/sounds] at all, the archiver
    raises nothing, [sounds.zip] is created as an empty archive, the
    server is contacted, and the empty archive is uploaded. *)
Lemma missing_source_is_no_error :
  is_dir (path_of LOCAL_DIR) Demo.empty_disk = false
  /\ fst (zip_folder (os := posixpath) (zf := Stored.format)
            (path_of LOCAL_DIR) (path_of ZIP_FILE)
            (Demo.start Demo.empty_disk Demo.good_server)) = Ok tt
  /\ read_archive (zf := Stored.format) (path_of ZIP_FILE)
       (disk (snd (zip_folder (os := posixpath) (zf := Stored.format)
                     (path_of LOCAL_DIR) (path_of ZIP_FILE)
                     (Demo.start Demo.empty_disk Demo.good_server))))
     = Some []
  /\ In (EvConnect FTP_HOST)
        (log (snd (main (os := posixpath) (zf := Stored.format)
                     (Demo.start Demo.empty_disk Demo.good_server))))
  /\ stored (net (snd (main (os := posixpath) (zf := Stored.format)
                         (Demo.start Demo.empty_disk Demo.good_server))))
     = [(REMOTE_DIR, ZIP_FILE,
         zip_image (os := posixpath) (zf := Stored.format) [])].
Proof.
  repeat split; try (vm_compute; reflexivity).
  vm_compute. do 5 right. left. reflexivity.
Qed.

(** C2, the amended claim on the same world. *)
Lemma main_missing_source_witness :
  is_dir (path_of LOCAL_DIR) Demo.empty_disk = false
  /\ exists w1 evs,
      zip_folder (os := posixpath) (zf := Stored.format)
        (path_of LOCAL_DIR) (path_of ZIP_FILE)
        (add_log (EvPrint "Zipping folder...")
                 (Demo.start Demo.empty_disk Demo.good_server)) = (Ok tt, w1)
      /\ log (snd (main (os := posixpath) (zf := Stored.format)
                     (Demo.start Demo.empty_disk Demo.good_server)))
         = [EvPrint "Zipping folder...";
            EvOpenWrite (path_of ZIP_FILE);
            EvWalk (path_of LOCAL_DIR);
            EvZipClose (path_of ZIP_FILE);
            EvPrint "Uploading zip file to FTP server...";
            EvConnect FTP_HOST] ++ evs.
Proof.
  split; [reflexivity|].
  destruct (@main_missing_source posixpath Stored.format stored_lossless
              (Demo.start Demo.empty_disk Demo.good_server) _
              eq_refl eq_refl)
    as (w1 & evs & H1 & _ & H4).
  exists w1, evs. split; assumption.
Defined.

(** C3 on a world whose server cannot be reached: the run ends with the
    connection error and [sounds.zip] stays on the disk. *)
Lemma main_keeps_archive_witness :
  fst (main (os := posixpath) (zf := Stored.format)
         (Demo.start Demo.cwd_tree Demo.unreachable_server))
  = Raise (ConnectionRefusedError FTP_HOST)
  /\ exists entries,
      read_file (path_of ZIP_FILE)
        (disk (snd (main (os := posixpath) (zf := Stored.format)
                      (Demo.start Demo.cwd_tree Demo.unreachable_server))))
      = Ok (zip_image (os := posixpath) (zf := Stored.format) entries).
Proof.
  destruct (@main_keeps_archive_on_failed_upload posixpath Stored.format
              (Demo.start Demo.cwd_tree Demo.unreachable_server)) as [A _].
  destruct (A (snd (zip_folder (os := posixpath) (zf := Stored.format)
                      (path_of LOCAL_DIR) (path_of ZIP_FILE)
                      (add_log (EvPrint "Zipping folder...")
                         (Demo.start Demo.cwd_tree Demo.unreachable_server))))
              (snd (main (os := posixpath) (zf := Stored.format)
                      (Demo.start Demo.cwd_tree Demo.unreachable_server)))
              (ConnectionRefusedError FTP_HOST))
    as (H1 & _ & entries & H3); [vm_compute; reflexivity ..|].
  split; [now rewrite H1|]. exists entries. exact H3.
Defined.

(** C4, counterexample.  The server takes the connection and greets it
    with [421]: the constructor raises, the [with] block is never
    entered, nothing is closed, and one connection more is open after
    the call than before. *)
Lemma greeting_error_leaves_connection_open :
  fst (upload_to_ftp Demo.zip_outside
         (Demo.start Demo.cwd_tree Demo.busy_server))
  = Raise (error_temp 421)
  /\ sessions (Demo.start Demo.cwd_tree Demo.busy_server) = 0
  /\ sessions (snd (upload_to_ftp Demo.zip_outside
                      (Demo.start Demo.cwd_tree Demo.busy_server))) = 1
  /\ log (snd (upload_to_ftp Demo.zip_outside
                 (Demo.start Demo.cwd_tree Demo.busy_server)))
     = [EvConnect FTP_HOST].
Proof. repeat split; vm_compute; reflexivity. Qed.

(** C4, the amended claim on a server that refuses the store after
    taking the data: the connection is closed all the same. *)
Lemma upload_closes_connection_witness :
  reachable Demo.full_server = true
  /\ fst (upload_to_ftp (path_of ZIP_FILE)
            (snd (zip_folder (os := posixpath) (zf := Stored.format)
                    Demo.folder Demo.zip_outside
                    (Demo.start Demo.cwd_tree Demo.full_server))))
     = Raise (error_perm 552)
  /\ sessions (snd (upload_to_ftp (path_of ZIP_FILE)
                      (snd (zip_folder (os := posixpath) (zf := Stored.format)
                              Demo.folder Demo.zip_outside
                              (Demo.start Demo.cwd_tree Demo.full_server)))))
     = 0.
Proof.
  split; [reflexivity|]. split; [vm_compute; reflexivity|].
  destruct (upload_closes_connection (path_of ZIP_FILE)
              (snd (zip_folder (os := posixpath) (zf := Stored.format)
                      Demo.folder Demo.zip_outside
                      (Demo.start Demo.cwd_tree Demo.full_server))))
    as [H _].
  destruct (H eq_refl) as [Hs _]. rewrite Hs. vm_compute. reflexivity.
Defined.

(** C5 on a server that has no such directory. *)
Lemma upload_strict_sequence_witness :
  has_dir Demo.server_without_dir REMOTE_DIR = false
  /\ fst (upload_to_ftp Demo.zip_outside
            (Demo.start Demo.cwd_tree Demo.server_without_dir))
     = Raise (error_perm 550)
  /\ net (snd (upload_to_ftp Demo.zip_outside
                 (Demo.start Demo.cwd_tree Demo.server_without_dir)))
     = Demo.server_without_dir.
Proof.
  split; [reflexivity|].
  destruct (upload_strict_sequence Demo.zip_outside
              (Demo.start Demo.cwd_tree Demo.server_without_dir)) as [_ H].
  destruct (H eq_refl) as (e & k & He & _ & _ & Hn & Hc).
  destruct (Hc eq_refl eq_refl) as (-> & _ & _).
  split; assumption.
Defined.

(** C6 on a host whose separator is the backslash: the nested file
    [sub\b.txt] is entered as [sub/b.txt]. *)
Lemma entry_names_relative_witness :
  wf_fs (os := ntpath) (disk Demo.w0) = true
  /\ Forall (fun x => valid_name (os := ntpath) x = true) Demo.zip_outside
  /\ relpath (os := ntpath) (Demo.folder ++ ["sub"; "b.txt"]) Demo.folder
     = "sub\b.txt"
  /\ exists entries,
      read_archive (zf := Stored.format) Demo.zip_outside
        (disk (snd (zip_folder (os := ntpath) (zf := Stored.format)
                      Demo.folder Demo.zip_outside Demo.w0)))
      = Some entries
      /\ In "sub/b.txt" (map fst entries)
      /\ In "a.txt" (map fst entries)
      /\ forall name data,
          In (name, data) entries ->
          let segs := split_on "/" "" name in
          segs <> []
          /\ name = String.concat "/" segs
          /\ Forall (fun x => valid_name (os := ntpath) x = true) segs
          /\ ~ In ".." segs /\ ~ In "" segs
          /\ is_file (Demo.folder ++ segs)
               (disk (snd (zip_folder (os := ntpath) (zf := Stored.format)
                             Demo.folder Demo.zip_outside Demo.w0)))
             = true.
Proof.
  split; [vm_compute; reflexivity|]. split; [repeat constructor|].
  split; [vm_compute; reflexivity|].
  destruct (@entry_names_relative ntpath Stored.format stored_lossless
              Demo.folder Demo.zip_outside Demo.w0
              (snd (zip_folder (os := ntpath) (zf := Stored.format)
                      Demo.folder Demo.zip_outside Demo.w0))
              (Demo.opened Demo.zip_outside (disk Demo.w0))
              (Ok tt))
    as (entries & H1 & H2 & H3);
    try (vm_compute; reflexivity); [repeat constructor|discriminate|].
  exists entries. split; [exact H1|].
  split; [apply (H3 eq_refl eq_refl ["sub"; "b.txt"]);
          [discriminate|vm_compute; reflexivity]|].
  split; [apply (H3 eq_refl eq_refl ["a.txt"]);
          [discriminate|vm_compute; reflexivity]|].
  exact H2.
Defined.

(** C7, counterexample.  The folder [d] exists and is empty, the archive
    is put inside it: no error, but the archive has one entry, itself. *)
Lemma empty_folder_archive_inside :
  lookup ["d"] Demo.empty_folder = Some (Dir [])
  /\ no_files (Dir []) = true
  /\ fst (zip_folder (os := posixpath) (zf := Stored.format)
            ["d"] ["d"; "o.zip"]
            (Demo.start Demo.empty_folder Demo.good_server)) = Ok tt
  /\ read_archive (zf := Stored.format) ["d"; "o.zip"]
       (disk (snd (zip_folder (os := posixpath) (zf := Stored.format)
                     ["d"] ["d"; "o.zip"]
                     (Demo.start Demo.empty_folder Demo.good_server))))
     = Some [("o.zip", [])].
Proof. repeat split; vm_compute; reflexivity. Qed.

(** C7, the amended claim: the same folder, the archive next to it. *)
Lemma zip_folder_no_files_witness :
  lookup ["d"] Demo.empty_folder = Some (Dir [])
  /\ no_files (Dir []) = true
  /\ is_prefix ["d"] ["o.zip"] = false
  /\ exists w',
      zip_folder (os := posixpath) (zf := Stored.format) ["d"] ["o.zip"]
        (Demo.start Demo.empty_folder Demo.good_server) = (Ok tt, w')
      /\ read_archive (zf := Stored.format) ["o.zip"] (disk w') = Some []
      /\ log w' = [EvOpenWrite ["o.zip"]; EvWalk ["d"]; EvZipClose ["o.zip"]].
Proof.
  repeat (split; [reflexivity|]).
  apply (@zip_folder_no_files posixpath Stored.format stored_lossless
           ["d"] ["o.zip"] (Demo.start Demo.empty_folder Demo.good_server)
           (Demo.opened ["o.zip"] Demo.empty_folder)
           (Dir []));
    reflexivity.
Defined.

(** C8, counterexample.  An old archive lies under the folder and is
    named as the output: it is a file under the folder, and its
    contents are not what they were.  And with [sounds.zip] outside the
    folder but a hard link to [a.txt] under it, [a.txt] no longer holds
    its bytes after the call. *)
Lemma source_file_is_overwritten :
  (is_prefix ["d"] ["d"; "o.zip"] = true
   /\ stat ["d"; "o.zip"] Demo.folder_with_archive
      = Regular (list_byte_of_string "old")
   /\ stat ["d"; "o.zip"]
        (disk (snd (zip_folder (os := posixpath) (zf := Stored.format)
                      ["d"] ["d"; "o.zip"]
                      (Demo.start Demo.folder_with_archive Demo.good_server))))
      = Regular (Stored.image [("o.zip", [])])
   /\ Stored.image [("o.zip", [])] <> list_byte_of_string "old")
  /\ (is_prefix Demo.folder Demo.zip_outside = false
      /\ Demo.folder ++ ["a.txt"] <> Demo.zip_outside
      /\ stat (Demo.folder ++ ["a.txt"]) Demo.tree_with_link
         = Regular Demo.hello
      /\ stat (Demo.folder ++ ["a.txt"])
           (disk (snd (zip_folder (os := posixpath) (zf := Stored.format)
                         Demo.folder Demo.zip_outside
                         (Demo.start Demo.tree_with_link Demo.good_server))))
         <> Regular Demo.hello).
Proof.
  split.
  - repeat split; try (vm_compute; reflexivity). vm_compute. discriminate.
  - split; [reflexivity|]. split; [discriminate|].
    split; [vm_compute; reflexivity|]. vm_compute. discriminate.
Qed.

(** C8, the amended claim at the scenario: [sub/b.txt] is what it
    was, and [a.txt] reads as before. *)
Lemma zip_folder_frame_witness :
  wf_fs (os := posixpath) (disk Demo.w0) = true
  /\ is_prefix Demo.folder Demo.zip_outside = false
  /\ same_ino (Demo.folder ++ ["sub"; "b.txt"]) Demo.zip_outside
        (disk Demo.w0) = false
  /\ stat (Demo.folder ++ ["sub"; "b.txt"])
       (disk (snd (zip_folder (os := posixpath) (zf := Stored.format)
                     Demo.folder Demo.zip_outside Demo.w0)))
     = Regular Demo.world_
  /\ read_file (Demo.folder ++ ["a.txt"])
       (disk (snd (zip_folder (os := posixpath) (zf := Stored.format)
                     Demo.folder Demo.zip_outside Demo.w0)))
     = Ok Demo.hello.
Proof.
  do 3 (split; [vm_compute; reflexivity|]).
  destruct (@zip_folder_frame posixpath Stored.format
              Demo.folder Demo.zip_outside Demo.w0)
    as (H1 & _ & H3 & _).
  split.
  - destruct (H3 eq_refl eq_refl ["sub"; "b.txt"] eq_refl) as [-> _].
    vm_compute; reflexivity.
  - destruct (H1 (Demo.folder ++ ["a.txt"])) as [_ ->];
      vm_compute; reflexivity.
Defined.



(** C10 with a good server and no archive on the disk. *)
Lemma upload_opens_archive_late_witness :
  read_file Demo.zip_outside Demo.empty_disk
  = Raise (FileNotFoundError Demo.zip_outside)
  /\ exists w',
      upload_to_ftp Demo.zip_outside
        (Demo.start Demo.empty_disk Demo.good_server)
      = (Raise (FileNotFoundError Demo.zip_outside), w')
      /\ log w' = [EvConnect FTP_HOST; EvLogin FTP_USER; EvCwd REMOTE_DIR;
                   EvOpenRead Demo.zip_outside; EvClose]
      /\ remote_cwd w' = REMOTE_DIR
      /\ stored (net w') = [].
Proof.
  split; [reflexivity|].
  destruct (proj2 (upload_opens_archive_late Demo.zip_outside
                     (Demo.start Demo.empty_disk Demo.good_server))
              (FileNotFoundError Demo.zip_outside)
              eq_refl eq_refl eq_refl eq_refl)
    as (w' & H1 & _ & H3 & H4 & H5 & _).
  exists w'. rewrite H5. repeat split; assumption.
Defined.

(** * Further properties of the archiver *)

(** Every visited path lies strictly below the top of the walk. *)
Lemma visited_prefix deny d :
  forall top p,
    In p (visited (walk deny top d)) -> exists rel, rel <> [] /\ p = top ++ rel.
Proof.
  induction d as [b|es IH] using node_ind; intros top p Hin; [contradiction|].
  destruct (deny top) eqn:Htop;
    [rewrite (visited_walk_denied _ _ _ Htop) in Hin; contradiction|].
  rewrite (visited_walk_Dir _ _ _ Htop), in_app_iff in Hin.
  destruct Hin as [Hin|Hin].
  - apply in_map_iff in Hin as [f [<- _]]. exists [f]. split; [discriminate|auto].
  - apply in_visited_flat_map in Hin as [[x c] [Hxc Hin]].
    rewrite Forall_forall in IH. specialize (IH _ Hxc). simpl in IH.
    destruct (IH _ _ Hin) as [rel [_ ->]].
    exists (x :: rel). split; [discriminate|].
    now rewrite <- app_assoc.
Qed.

Lemma existsb_eqb_In x l : existsb (String.eqb x) l = true <-> In x l.
Proof.
  rewrite existsb_exists. split.
  - intros [y [Hy E]]. apply String.eqb_eq in E. now subst.
  - intros H. exists x. split; [exact H|apply String.eqb_refl].
Qed.

Lemma files_of_incl x es : In x (files_of es) -> In x (map fst es).
Proof.
  intros H. apply in_files_of in H as [b Hb].
  apply in_map_iff. exists (x, File b). auto.
Qed.

Section OneEntryPerFile.
Context {os : OsPath}.

Lemma nodupb_cons_inv x l :
  nodupb (x :: l) = true -> ~ In x l /\ nodupb l = true.
Proof.
  simpl. intros H. apply andb_true_iff in H as [H1 H2]. split; [|exact H2].
  intros Hin. apply existsb_eqb_In in Hin. rewrite Hin in H1. discriminate.
Qed.

Lemma NoDup_files_of es : nodupb (map fst es) = true -> NoDup (files_of es).
Proof.
  induction es as [|[x c] es IH]; intros H; [constructor|].
  change (map fst ((x, c) :: es)) with (x :: map fst es) in H.
  apply nodupb_cons_inv in H as [Hx Hnd].
  destruct c as [b|l]; unfold files_of; simpl; fold (files_of es); [|auto].
  constructor; [|auto]. intros Hin. apply Hx. now apply files_of_incl.
Qed.

(** In a well-formed tree the walk visits no path twice. *)
Lemma NoDup_visited deny d :
  forall top, wf_node d = true -> NoDup (visited (walk deny top d)).
Proof.
  induction d as [b|es IH] using node_ind; intros top Hwf; [constructor|].
  apply wf_node_Dir in Hwf as [Hnd Hall].
  destruct (deny top) eqn:Htop;
    [rewrite (visited_walk_denied _ _ _ Htop); constructor|].
  rewrite (visited_walk_Dir _ _ _ Htop). apply NoDup_app.
  - apply NoDup_map_NoDup_ForallPairs; [|now apply NoDup_files_of].
    intros f g _ _ H. apply app_inv_head in H. congruence.
  - induction es as [|[x c] es IHes]; [constructor|].
    simpl. rewrite visited_app.
    change (map fst ((x, c) :: es)) with (x :: map fst es) in Hnd.
    apply nodupb_cons_inv in Hnd as [Hx Hnd].
    inversion IH as [|? ? Hc Hrest]; subst. simpl in Hc.
    apply NoDup_app.
    + apply Hc. apply (Hall x c). now left.
    + apply IHes; [exact Hrest|exact Hnd|].
      intros y d Hin. apply Hall. now right.
    + intros p Hp Hq.
      apply visited_prefix in Hp as [rel [_ ->]].
      apply in_visited_flat_map in Hq as [[y d] [Hyd Hq]].
      apply visited_prefix in Hq as [rel' [_ Heq]].
      rewrite <- !app_assoc in Heq. apply app_inv_head in Heq.
      injection Heq as -> _. apply Hx.
      apply in_map_iff. exists (y, d). auto.
  - intros p Hp Hq.
    apply in_map_iff in Hp as [f [<- _]].
    apply in_visited_flat_map in Hq as [[y d] [_ Hq]].
    apply visited_prefix in Hq as [rel [Hne Heq]].
    rewrite <- app_assoc in Heq. apply app_inv_head in Heq.
    injection Heq as _ <-. congruence.
Qed.
End OneEntryPerFile.

(** Where every directory can be listed, the walk visits as many paths
    as the tree has regular files. *)
Lemma length_visited_walk deny d :
  forall top,
    (forall q, deny (top ++ q) = false) ->
    List.length (visited (walk deny top d))
    = match d with File _ => 0 | Dir _ => count_files d end.
Proof.
  induction d as [b|es IH] using node_ind; intros top Hd; [reflexivity|].
  assert (deny top = false) as Htop
    by (specialize (Hd []); now rewrite app_nil_r in Hd).
  rewrite (visited_walk_Dir _ _ _ Htop), length_app, length_map.
  simpl count_files.
  induction es as [|[x c] es IHes]; [reflexivity|].
  inversion IH as [|? ? Hc Hrest]; subst. simpl in Hc.
  specialize (IHes Hrest). simpl flat_map. rewrite visited_app, length_app.
  rewrite (Hc (top ++ [x]))
    by (intros q; rewrite <- app_assoc; apply Hd).
  change (list_sum (map (fun e => match e with (_, c0) => count_files c0 end)
                        ((x, c) :: es)))
    with (count_files c
          + list_sum (map (fun e => match e with (_, c0) => count_files c0 end)
                          es)).
  rewrite <- IHes.
  change (files_of ((x, c) :: es))
    with (match c with File _ => [x] | Dir _ => [] end ++ files_of es).
  rewrite length_app.
  destruct c as [b|l]; simpl; [reflexivity|apply Nat.add_shuffle3].
Qed.

Lemma length_visited_os_walk folder d :
  listable_under folder d = true ->
  List.length (visited (os_walk folder d)) = files_under folder d.
Proof.
  intros Hls. unfold os_walk, files_under.
  destruct (lookup folder d) as [[b|es]|]; try reflexivity.
  apply length_visited_walk. intros q. now apply listable_under_denied.
Qed.

Lemma NoDup_map_in {A B} (f : A -> B) (l : list A) :
  NoDup l ->
  (forall x y, In x l -> In y l -> f x = f y -> x = y) ->
  NoDup (map f l).
Proof.
  intros Hnd Hinj. apply NoDup_map_NoDup_ForallPairs; [|exact Hnd].
  intros x y Hx Hy. now apply Hinj.
Qed.

Lemma forallb_agree {A} (f g : A -> bool) (l : list A) :
  (forall x, In x l -> f x = g x) -> forallb f l = forallb g l.
Proof.
  induction l as [|a l IH]; intros H; [reflexivity|]. simpl.
  rewrite (H a) by now left. rewrite IH; [reflexivity|].
  intros x Hx. apply H. now right.
Qed.

(** Writing again what a file holds, in the same year, changes
    nothing. *)
Lemma write_file_same p c d d' :
  write_file p c d = Ok d' -> write_file p c d' = Ok d'.
Proof.
  intros Hw.
  destruct (write_file_inode _ _ _ _ Hw) as (i & m & Hl & Hm & Hr & Hc & Ht).
  destruct (write_file_inv _ _ _ _ Hw) as (_ & Hck & _).
  unfold write_file. rewrite Hl, Hm, Hr. f_equal.
  rewrite Hck, <- Ht, <- Hc, <- Hr.
  replace {| mtime := mtime m; mode := mode m; readable := readable m;
             content := content m |} with m by (destruct m; reflexivity).
  rewrite (upd_inode_same _ _ _ Hm), Ht, <- Hck. destruct d'. reflexivity.
Qed.

Section GoodRun.
Context {os : OsPath} {zf : ZipFormat}.

(** What the archive gets for a visited path of a well-formed disk. *)
Lemma entry_of_visited folder d p :
  wf_node (tree d) = true ->
  In p (visited (os_walk folder d)) ->
  exists rel i,
    rel <> [] /\ p = folder ++ rel
    /\ lookup (folder ++ rel) d = Some (File i)
    /\ Forall (fun x => valid_name x = true) rel
    /\ fst (entry_of d folder p) = String.concat "/" rel.
Proof.
  intros Hwf Hp.
  apply (visited_os_walk_file _ _ _ Hwf) in Hp as [rel [i [Hne [-> Hl]]]].
  destruct (entry_of_under _ _ _ _ Hwf Hne Hl) as [Hv Hname].
  exists rel, i. repeat split; try assumption.
Qed.

(** Opening or closing the archive, outside the folder and no hard link
    into it, keeps everything the archiver depends on. *)
Lemma good_after_write folder zip c d d1 :
  wf_fs d = true ->
  Forall (fun x => valid_name x = true) zip ->
  write_file zip c d = Ok d1 ->
  is_prefix folder zip = false ->
  walk_reaches folder zip d = false ->
  wf_fs d1 = true
  /\ os_walk folder d1 = os_walk folder d
  /\ walk_reaches folder zip d1 = false
  /\ all_zippable folder d1 = all_zippable folder d
  /\ map (record_of d1 folder) (visited (os_walk folder d))
     = map (record_of d folder) (visited (os_walk folder d)).
Proof.
  intros Hwf Hv Hw Hout Hreach.
  pose proof (archive_apart _ _ _ _ _ Hwf Hw Hout Hreach) as Hap.
  pose proof (os_walk_after_open _ _ _ _ _ Hw Hout) as Hwalk.
  split; [exact (wf_fs_write_file _ _ _ _ Hwf Hv Hw)|].
  split; [exact Hwalk|]. split; [|split].
  - unfold walk_reaches. rewrite Hwalk.
    destruct (existsb (fun p => same_ino p zip d1)
                      (visited (os_walk folder d))) eqn:E; [|reflexivity].
    apply existsb_exists in E as [p [Hp Hs]].
    destruct (Hap p Hp) as [Hs' _]. congruence.
  - unfold all_zippable. rewrite Hwalk. apply forallb_agree.
    intros p Hp. destruct (Hap p Hp) as (_ & -> & _). reflexivity.
  - apply map_ext_in. intros p Hp. destruct (Hap p Hp) as (_ & Hi & _).
    unfold record_of. now rewrite Hi.
Qed.

(** The run of [zip_folder] when every file can be stored and the
    archive is apart from the folder, in full: the members are those of
    the visited paths of the disk as it was, in the order of the walk. *)
Lemma zip_folder_good_run folder zip w d1 :
  wf_fs (disk w) = true ->
  all_zippable folder (disk w) = true ->
  write_file zip [] (disk w) = Ok d1 ->
  is_prefix folder zip = false ->
  walk_reaches folder zip (disk w) = false ->
  exists d2,
    write_file zip
      (zip_image (map (record_of (disk w) folder)
                      (visited (os_walk folder (disk w))))) d1 = Ok d2
    /\ map entry_of_record
           (map (record_of (disk w) folder)
                (visited (os_walk folder (disk w))))
       = map (entry_of (disk w) folder) (visited (os_walk folder (disk w)))
    /\ zip_folder folder zip w
       = (Ok tt,
          {| disk := d2; zip_buffer := []; zip_wreck := None; net := net w;
             sessions := sessions w; remote_cwd := remote_cwd w;
             log := log w ++ EvOpenWrite zip :: EvWalk folder
                          :: map (fun p => EvZipWrite p (relpath p folder))
                                 (visited (os_walk folder (disk w)))
                          ++ [EvZipClose zip] |}).
Proof.
  intros Hwf Hzip Hopen Hout Hreach.
  destruct (zip_folder_run folder zip w d1 Hopen)
    as (r & d2 & evs & Hrun & _ & _ & _ & _ & Hall).
  destruct (Hall (good_run_paths _ _ _ _ Hwf Hopen Hout Hreach Hzip))
    as (-> & Hclose & ->). clear Hall.
  pose proof (good_run_entries _ _ _ _ Hwf Hopen Hout Hreach Hzip) as He.
  pose proof (archive_apart _ _ _ _ _ Hwf Hopen Hout Hreach) as Hap.
  rewrite (os_walk_after_open _ _ _ _ _ Hopen Hout) in Hclose, Hrun, He.
  assert (map (record_of d1 folder) (visited (os_walk folder (disk w)))
          = map (record_of (disk w) folder)
                (visited (os_walk folder (disk w)))) as Hrec.
  { apply map_ext_in. intros p Hp. destruct (Hap p Hp) as (_ & Hi & _).
    unfold record_of. now rewrite Hi. }
  rewrite Hrec in Hclose, He.
  exists d2. split; [exact Hclose|]. split; [exact He|exact Hrun].
Qed.
End GoodRun.

Section ArchiverExtras.
Context {os : OsPath} {zf : ZipFormat}.

(** X1.  One entry per file.  On a well-formed disk where every
    directory under the folder can be listed and every file under it can
    be stored, with the archive openable, outside the folder and no hard
    link into it, the archive [zip_folder] leaves has pairwise distinct
    entry names and exactly as many entries as there are regular files
    below the folder: no file is written twice and none is merged with
    another. *)
Theorem zip_folder_one_entry_per_file {zl : ZipLossless zf}
    (folder zip : path) (w : world) (d1 : fs) :
  wf_fs (disk w) = true ->
  listable_under folder (disk w) = true ->
  all_zippable folder (disk w) = true ->
  write_file zip [] (disk w) = Ok d1 ->
  is_prefix folder zip = false ->
  walk_reaches folder zip (disk w) = false ->
  exists w' entries,
    zip_folder folder zip w = (Ok tt, w')
    /\ read_archive zip (disk w') = Some entries
    /\ NoDup (map fst entries)
    /\ List.length entries = files_under folder (disk w).
Proof.
  intros Hwf Hls Hzip Hopen Hout Hreach.
  destruct (zip_folder_good_run folder zip w d1 Hwf Hzip Hopen Hout Hreach)
    as [d2 (Hclose & He & Hrun)].
  apply read_archive_written in Hclose. rewrite He in Hclose.
  pose proof (wf_fs_tree _ Hwf) as Hwt.
  eexists. eexists. split; [exact Hrun|]. world_simpl.
  split; [exact Hclose|]. split.
  - rewrite map_map. apply NoDup_map_in.
    + unfold os_walk. destruct (lookup folder (disk w)) as [[b|es]|] eqn:Hf;
        try constructor.
      apply NoDup_visited. exact (proj2 (wf_lookup _ _ _ Hwt Hf)).
    + intros p q Hp Hq Heq.
      destruct (entry_of_visited _ _ _ Hwt Hp)
        as (rel & b & Hne & Hp1 & _ & Hv & He1).
      destruct (entry_of_visited _ _ _ Hwt Hq)
        as (rel' & b' & Hne' & Hq1 & _ & Hv' & He2).
      rewrite He1, He2 in Heq. subst p q. f_equal.
      rewrite <- (split_on_concat rel Hne Hv).
      rewrite <- (split_on_concat rel' Hne' Hv').
      now rewrite Heq.
  - rewrite length_map. now apply length_visited_os_walk.
Qed.

(** X2.  Archiving twice is archiving once.  On a disk as in X1, a
    second [zip_folder] right after the first succeeds as well and
    leaves the disk, archive included, exactly as the first left it:
    the old archive is overwritten, never appended to or read. *)
Theorem zip_folder_twice (folder zip : path) (w : world) (d1 : fs) :
  wf_fs (disk w) = true ->
  all_zippable folder (disk w) = true ->
  Forall (fun x => valid_name x = true) zip ->
  write_file zip [] (disk w) = Ok d1 ->
  is_prefix folder zip = false ->
  walk_reaches folder zip (disk w) = false ->
  exists w1 w2,
    zip_folder folder zip w = (Ok tt, w1)
    /\ zip_folder folder zip w1 = (Ok tt, w2)
    /\ disk w2 = disk w1.
Proof.
  intros Hwf Hzip Hv Hopen Hout Hreach.
  destruct (zip_folder_good_run folder zip w d1 Hwf Hzip Hopen Hout Hreach)
    as [d2 (Hclose & _ & Hrun)].
  destruct (good_after_write folder _ _ _ _ Hwf Hv Hopen Hout Hreach)
    as (Hwf1 & Hwalk1 & Hreach1 & Hzip1 & Hrec1).
  destruct (good_after_write folder _ _ _ _ Hwf1 Hv Hclose Hout Hreach1)
    as (Hwf2 & Hwalk2 & Hreach2 & Hzip2 & Hrec2).
  rewrite Hwalk1 in Hwalk2, Hrec2. rewrite Hrec1 in Hrec2.
  rewrite Hzip1 in Hzip2. rewrite Hzip in Hzip2.
  remember (snd (zip_folder folder zip w)) as w1 eqn:Hw1.
  assert (disk w1 = d2) as Hd1 by (subst w1; now rewrite Hrun).
  destruct (write_file_again zip _ [] _ _ Hclose) as [d1' [Hopen2 _]].
  rewrite <- Hd1 in Hwf2, Hzip2, Hreach2, Hopen2.
  destruct (zip_folder_good_run folder zip w1 d1' Hwf2 Hzip2 Hopen2 Hout
              Hreach2) as [d2' (Hclose2 & _ & Hrun2)].
  exists w1. eexists.
  split; [subst w1; now rewrite Hrun|]. split; [exact Hrun2|]. world_simpl.
  rewrite Hd1 in *. rewrite Hwalk2, Hrec2 in Hclose2.
  pose proof (write_file_twice _ _ _ _ _ _ Hopen2 Hclose2) as H2.
  rewrite (write_file_same _ _ _ _ Hclose) in H2. now injection H2 as <-.
Qed.

(** X10.  When the archive is apart from the folder, [zip_folder]
    returns normally exactly when every file the walk reaches can be
    stored: it is readable, was last modified between 1980 and 2107, and
    its entry name encodes. *)
Theorem zip_folder_returns_iff_storable (folder zip : path) (w : world)
    (d1 : fs) :
  wf_fs (disk w) = true ->
  write_file zip [] (disk w) = Ok d1 ->
  is_prefix folder zip = false ->
  walk_reaches folder zip (disk w) = false ->
  fst (zip_folder folder zip w) = Ok tt
  <-> all_zippable folder (disk w) = true.
Proof.
  intros Hwf Hopen Hout Hreach. split.
  - intros Hok.
    destruct (zip_folder_run folder zip w d1 Hopen)
      as (r & d2 & evs & Hrun & _ & _ & _ & Hcase & _).
    rewrite Hrun in Hok. simpl in Hok. subst r.
    destruct Hcase as [[Hr _]|[_ [members [_ [_ Hall]]]]]; [discriminate|].
    specialize (Hall eq_refl).
    rewrite (os_walk_after_open _ _ _ _ _ Hopen Hout) in Hall.
    pose proof (archive_apart _ _ _ _ _ Hwf Hopen Hout Hreach) as Hap.
    unfold all_zippable. apply forallb_forall. intros p Hp.
    destruct (Hap p Hp) as (_ & Hi & _). rewrite <- Hi. clear Hap Hi.
    induction Hall as [|q r0 ps rs [ms Hm] _ IH]; [contradiction|].
    destruct Hp as [->|Hp]; [|auto].
    destruct (zip_member_added _ _ _ _ _ _ Hm) as [_ [m [Hi [Hz _]]]].
    now rewrite Hi.
  - intros Hzip.
    destruct (zip_folder_good_run folder zip w d1 Hwf Hzip Hopen Hout Hreach)
      as [d2 (_ & _ & Hrun)].
    now rewrite Hrun.
Qed.

(** X11.  The folder's own files come first.  On a disk as in X1, the
    archive opens with the files that lie directly in the folder, under
    their bare names and in the order the directory lists them; files of
    subdirectories follow. *)
Theorem zip_folder_own_files_first {zl : ZipLossless zf}
    (folder zip : path) (w : world) (d1 : fs) (es : list (string * node)) :
  wf_fs (disk w) = true ->
  listable_under folder (disk w) = true ->
  all_zippable folder (disk w) = true ->
  write_file zip [] (disk w) = Ok d1 ->
  is_prefix folder zip = false ->
  walk_reaches folder zip (disk w) = false ->
  lookup folder (disk w) = Some (Dir es) ->
  exists w' entries,
    zip_folder folder zip w = (Ok tt, w')
    /\ read_archive zip (disk w') = Some entries
    /\ firstn (List.length (files_of es)) (map fst entries) = files_of es.
Proof.
  intros Hwf Hls Hzip Hopen Hout Hreach Hl.
  destruct (zip_folder_good_run folder zip w d1 Hwf Hzip Hopen Hout Hreach)
    as [d2 (Hclose & He & Hrun)].
  apply read_archive_written in Hclose. rewrite He in Hclose.
  pose proof (wf_fs_tree _ Hwf) as Hwt.
  eexists. eexists. split; [exact Hrun|]. world_simpl.
  split; [exact Hclose|].
  assert (denied (disk w) folder = false) as Htop.
  { pose proof (listable_under_denied folder (disk w) [] Hls) as H.
    now rewrite app_nil_r in H. }
  assert (forall f, In f (files_of es) ->
            fst (entry_of (disk w) folder (folder ++ [f])) = f) as Hname.
  { intros f Hf.
    assert (In (folder ++ [f]) (visited (os_walk folder (disk w)))) as Hp.
    { unfold os_walk. rewrite Hl, (visited_walk_Dir _ _ _ Htop), in_app_iff.
      left. apply in_map_iff. eauto. }
    destruct (entry_of_visited _ _ _ Hwt Hp)
      as (rel & b & _ & Heq & _ & _ & ->).
    apply app_inv_head in Heq. now subst rel. }
  unfold os_walk. rewrite Hl, (visited_walk_Dir _ _ _ Htop), !map_app, !map_map.
  rewrite firstn_app, length_map, Nat.sub_diag, firstn_O, app_nil_r.
  rewrite firstn_all2 by (rewrite length_map; lia).
  rewrite <- (map_id (files_of es)) at 2.
  apply map_ext_in. exact Hname.
Qed.
End ArchiverExtras.

(** X3.  The entries do not depend on the host.  On a disk that is
    well-formed under both hosts' conventions and whose files can be
    stored under both, with the archive openable and apart from the
    folder, [zip_folder] under one separator and under another both
    succeed and leave archives with the same entries, names and data,
    in the same order.  (The bytes of the two archives need not be the
    same: the container records the host.) *)
Theorem zip_folder_host_independent (os1 os2 : OsPath) {zf : ZipFormat}
    {zl : ZipLossless zf} (folder zip : path) (w : world) (d1 : fs) :
  wf_fs (os := os1) (disk w) = true ->
  wf_fs (os := os2) (disk w) = true ->
  all_zippable (os := os1) folder (disk w) = true ->
  all_zippable (os := os2) folder (disk w) = true ->
  write_file zip [] (disk w) = Ok d1 ->
  is_prefix folder zip = false ->
  walk_reaches folder zip (disk w) = false ->
  exists entries,
    fst (zip_folder (os := os1) folder zip w) = Ok tt
    /\ fst (zip_folder (os := os2) folder zip w) = Ok tt
    /\ read_archive zip (disk (snd (zip_folder (os := os1) folder zip w)))
       = Some entries
    /\ read_archive zip (disk (snd (zip_folder (os := os2) folder zip w)))
       = Some entries.
Proof.
  intros Hwf1 Hwf2 Hz1 Hz2 Hopen Hout Hreach.
  destruct (zip_folder_good_run (os := os1) folder zip w d1 Hwf1 Hz1 Hopen
              Hout Hreach) as [d2 (Hclose & He & Hrun)].
  destruct (zip_folder_good_run (os := os2) folder zip w d1 Hwf2 Hz2 Hopen
              Hout Hreach) as [d2' (Hclose' & He' & Hrun')].
  apply (read_archive_written (os := os1)) in Hclose.
  apply (read_archive_written (os := os2)) in Hclose'.
  rewrite He in Hclose. rewrite He' in Hclose'.
  rewrite Hrun, Hrun'. world_simpl. eexists.
  split; [reflexivity|]. split; [reflexivity|]. split; [exact Hclose|].
  rewrite Hclose'. f_equal.
  apply map_ext_in. intros p Hp.
  destruct (entry_of_visited (os := os1) (zf := zf) _ _ _
              (wf_fs_tree (os := os1) _ Hwf1) Hp)
    as (rel & b & _ & Hp1 & Hl & _ & He1).
  destruct (entry_of_visited (os := os2) (zf := zf) _ _ _
              (wf_fs_tree (os := os2) _ Hwf2) Hp)
    as (rel' & b' & _ & Hp2 & Hl' & _ & He2).
  rewrite Hp1 in Hp2. apply app_inv_head in Hp2. subst rel'.
  unfold entry_of in *. simpl in He1, He2. now rewrite He1, He2.
Qed.

(** * Further properties of the transporter *)

Lemma in_put_remote d n b s d' n' c :
  In (d', n', c) (stored (put_remote d n b s)) <->
  (d' = d /\ n' = n /\ c = b)
  \/ ((d', n') <> (d, n) /\ In (d', n', c) (stored s)).
Proof.
  unfold put_remote. simpl. rewrite filter_In. unfold same_file. simpl.
  split.
  - intros [H|[Hin Hne]].
    + injection H as <- <- <-. auto.
    + right. split; [|exact Hin]. intros [= -> ->].
      rewrite !String.eqb_refl in Hne. discriminate.
  - intros [(-> & -> & ->)|[Hne Hin]]; [now left|].
    right. split; [exact Hin|].
    destruct (String.eqb d d') eqn:E1; [|reflexivity].
    destruct (String.eqb n n') eqn:E2; [|reflexivity].
    apply String.eqb_eq in E1, E2. subst. congruence.
Qed.

(** X4.  A successful upload.  When the server is reachable, takes the
    login, has the directory and accepts the store, and the local
    archive can be read, [upload_to_ftp] returns normally after the
    five steps and the close; the server then holds the archive's bytes
    under [ZIP_FILE] in [REMOTE_DIR], whatever the local path was and
    whatever was stored under that name before, and every other remote
    file is as it was.  The local disk is untouched. *)
Theorem upload_stores_archive (zip_path : path) (w : world) (b : bytes) :
  reachable (net w) = true ->
  accepts (net w) FTP_USER FTP_PASS = true ->
  has_dir (net w) REMOTE_DIR = true ->
  stor_refused (net w) = None ->
  read_file zip_path (disk w) = Ok b ->
  exists w',
    upload_to_ftp zip_path w = (Ok tt, w')
    /\ (forall c, In (REMOTE_DIR, ZIP_FILE, c) (stored (net w')) <-> c = b)
    /\ (forall d n c,
           (d, n) <> (REMOTE_DIR, ZIP_FILE) ->
           (In (d, n, c) (stored (net w')) <-> In (d, n, c) (stored (net w))))
    /\ disk w' = disk w
    /\ sessions w' = sessions w
    /\ log w' = log w ++ upload_script zip_path ++ [EvClose].
Proof.
  intros Hr Ha Hd Hs Hb. rewrite upload_to_ftp_eq. cbv zeta.
  rewrite Hr, Ha, Hd, Hb, Hs. eexists. split; [reflexivity|].
  unfold closed. world_simpl.
  split; [|split; [|split; [reflexivity|split; [reflexivity|]]]].
  - intros c. rewrite in_put_remote. split.
    + intros [(_ & _ & ->)|[Hne _]]; [reflexivity|congruence].
    + intros ->. auto.
  - intros d n c Hne. rewrite in_put_remote. split.
    + intros [(-> & -> & _)|[_ Hin]]; [congruence|exact Hin].
    + auto.
  - rewrite <- !app_assoc. reflexivity.
Qed.

(** X5.  Rejected credentials.  When the server is reachable but does
    not take the login, [upload_to_ftp] raises [error_perm 530] (the
    spec's [AuthError]) right after the login: no directory change, the
    archive is not opened, nothing is sent, the server's state and the
    remote working directory are what they were, and the connection is
    closed. *)
Theorem upload_rejected_login (zip_path : path) (w : world) :
  reachable (net w) = true ->
  accepts (net w) FTP_USER FTP_PASS = false ->
  exists w',
    upload_to_ftp zip_path w = (Raise (error_perm 530), w')
    /\ AuthError (error_perm 530) = true
    /\ log w' = log w ++ [EvConnect FTP_HOST; EvLogin FTP_USER; EvClose]
    /\ net w' = net w
    /\ remote_cwd w' = remote_cwd w
    /\ sessions w' = sessions w
    /\ disk w' = disk w.
Proof.
  intros Hr Ha. rewrite upload_to_ftp_eq. cbv zeta. rewrite Hr, Ha.
  eexists. split; [reflexivity|]. unfold closed. world_simpl.
  rewrite <- !app_assoc. repeat split; reflexivity.
Qed.

(** X6.  The upload never writes locally, and the server only changes
    once the store command is sent.  Whatever the server answers and
    whether or not the archive can be read, [upload_to_ftp] leaves the
    local disk exactly as it found it; in a run that does not get to
    send [STOR], the server's files are what they were; and when the
    server answers the store with an error, the call raises that error
    and the server holds under [ZIP_FILE] what it kept of the data by
    then: nothing new when the transfer never started, else the first
    bytes of the archive. *)
Theorem upload_leaves_disk (zip_path : path) (w : world) :
  disk (snd (upload_to_ftp zip_path w)) = disk w
  /\ (forall evs,
      log (snd (upload_to_ftp zip_path w)) = log w ++ evs ->
      ~ In (EvStor ZIP_FILE) evs ->
      net (snd (upload_to_ftp zip_path w)) = net w)
  /\ (forall code b,
      reachable (net w) = true ->
      accepts (net w) FTP_USER FTP_PASS = true ->
      has_dir (net w) REMOTE_DIR = true ->
      read_file zip_path (disk w) = Ok b ->
      stor_refused (net w) = Some code ->
      fst (upload_to_ftp zip_path w) = Raise (reply_error code)
      /\ net (snd (upload_to_ftp zip_path w))
         = match stor_keeps (net w) with
           | None => net w
           | Some n => put_remote REMOTE_DIR ZIP_FILE (firstn n b) (net w)
           end).
Proof.
  rewrite upload_to_ftp_eq. cbv zeta. split; [|split].
  - destruct (reachable (net w));
      [destruct (accepts (net w) FTP_USER FTP_PASS);
       [destruct (has_dir (net w) REMOTE_DIR);
        [destruct (read_file zip_path (disk w));
         [destruct (stor_refused (net w));
          [destruct (stor_keeps (net w))|]|]|]|]
      |destruct (bad_greeting (net w))];
      reflexivity.
  - intros evs Hl Hin.
    destruct (reachable (net w));
      [destruct (accepts (net w) FTP_USER FTP_PASS);
       [destruct (has_dir (net w) REMOTE_DIR);
        [destruct (read_file zip_path (disk w));
         [destruct (stor_refused (net w));
          [destruct (stor_keeps (net w))|]|]|]|]
      |destruct (bad_greeting (net w))];
      try reflexivity;
      exfalso; apply Hin; unfold closed in Hl; world_simpl_in Hl;
      rewrite <- ?app_assoc in Hl; apply app_inv_head in Hl; subst evs;
      simpl; auto 10.
  - intros code b Hr Ha Hd Hb Hs. rewrite Hr, Ha, Hd, Hb, Hs.
    destruct (stor_keeps (net w)); split; reflexivity.
Qed.

(** * Further properties of the main block *)

Lemma find_entry_del_entry_other x y es :
  String.eqb y x = false ->
  find_entry y (del_entry x es) = find_entry y es.
Proof.
  intros Hne. induction es as [|[z d] es IH]; simpl; [reflexivity|].
  destruct (String.eqb x z) eqn:Exz; simpl.
  - apply String.eqb_eq in Exz; subst z. now rewrite Hne.
  - now rewrite IH.
Qed.

Section Removing.
Context {os : OsPath}.

Lemma find_entry_del_entry_same x es :
  nodupb (map fst es) = true -> find_entry x (del_entry x es) = None.
Proof.
  induction es as [|[z d] es IH]; simpl; [reflexivity|].
  intros H. apply andb_true_iff in H as [Hz Hnd].
  destruct (String.eqb x z) eqn:Exz; simpl.
  - apply String.eqb_eq in Exz; subst z.
    destruct (find_entry x es) eqn:Hf; [|reflexivity].
    apply find_entry_In in Hf. apply negb_true_iff in Hz.
    assert (existsb (String.eqb x) (map fst es) = true) as Hex.
    { apply existsb_eqb_In, in_map_iff. eexists. split; [|exact Hf]. reflexivity. }
    congruence.
  - rewrite Exz. auto.
Qed.

(** A regular file can be removed. *)
Lemma remove_at_file full p :
  forall n i,
    p <> [] -> lookup_node p n = Some (File i) ->
    exists n', remove_at full p n = Ok n'.
Proof.
  induction p as [|x p IH]; intros n i Hne Hl; [congruence|].
  destruct n as [b0|es]; [discriminate|]. simpl in Hl |- *.
  destruct (find_entry x es) as [child|]; [|discriminate].
  destruct p as [|y p].
  - simpl in Hl. injection Hl as ->. eauto.
  - destruct (IH child i) as [n' Hn']; [discriminate|exact Hl|].
    rewrite Hn'. eauto.
Qed.

(** Removing a file of a well-formed tree leaves nothing at its path and
    everything else as it was. *)
Lemma status_remove_at t full p :
  forall n n',
    wf_node n = true ->
    remove_at full p n = Ok n' ->
    status_of t (lookup_node p n') = Absent
    /\ forall q, q <> p ->
                 status_of t (lookup_node q n') = status_of t (lookup_node q n).
Proof.
  induction p as [|x p IH]; intros n n' Hwf Hr; [discriminate|].
  destruct n as [b|es]; [discriminate|]. simpl in Hr.
  destruct (wf_node_Dir _ Hwf) as [Hnd Hall].
  destruct (find_entry x es) as [child|] eqn:Hf; [|discriminate].
  destruct p as [|y p].
  - destruct child as [b|l]; [|discriminate]. injection Hr as <-. split.
    + simpl. now rewrite find_entry_del_entry_same.
    + intros q Hq. destruct q as [|z q]; [reflexivity|].
      simpl.
      destruct (String.eqb z x) eqn:Ezx.
      * apply String.eqb_eq in Ezx; subst z.
        rewrite find_entry_del_entry_same, Hf by assumption.
        destruct q; [congruence|reflexivity].
      * now rewrite find_entry_del_entry_other.
  - destruct (remove_at full (y :: p) child) as [child'|e] eqn:Hc;
      [|discriminate].
    injection Hr as <-.
    destruct (Hall _ _ (find_entry_In _ _ _ Hf)) as [_ Hwc].
    destruct (IH _ _ Hwc Hc) as [Habs Hframe]. split.
    + simpl lookup_node at 1.
      rewrite find_entry_set_entry, String.eqb_refl, Hf. exact Habs.
    + intros q Hq. destruct q as [|z q]; [reflexivity|].
      simpl lookup_node.
      rewrite find_entry_set_entry.
      destruct (String.eqb z x) eqn:Ezx; [|reflexivity].
      apply String.eqb_eq in Ezx; subst z. rewrite Hf.
      apply Hframe. congruence.
Qed.

Lemma stat_remove_file p d d' :
  wf_node (tree d) = true ->
  remove_file p d = Ok d' ->
  stat p d' = Absent /\ forall q, q <> p -> stat q d' = stat q d.
Proof.
  unfold remove_file. intros Hwf Hr.
  destruct (remove_at p p (tree d)) as [t|e] eqn:Hk; [|discriminate].
  injection Hr as <-. unfold stat, lookup. simpl.
  apply (status_remove_at _ _ _ _ _ Hwf Hk).
Qed.
End Removing.

Section MainExtras.
Context {os : OsPath} {zf : ZipFormat}.

(** The names of the entries written for a folder of a well-formed disk. *)
Lemma entry_names_spec folder d name :
  wf_node (tree d) = true ->
  listable_under folder d = true ->
  In name (map fst (map (entry_of d folder) (visited (os_walk folder d))))
  <-> exists rel,
      rel <> [] /\ is_file (folder ++ rel) d = true
      /\ name = String.concat "/" rel.
Proof.
  intros Hwf Hls. rewrite map_map, in_map_iff. split.
  - intros [p [<- Hp]].
    destruct (entry_of_visited _ _ _ Hwf Hp)
      as (rel & b & Hne & _ & Hl & _ & ->).
    exists rel. unfold is_file. rewrite Hl. auto.
  - intros [rel [Hne [Hf ->]]]. unfold is_file in Hf.
    destruct (lookup (folder ++ rel) d) as [[b|]|] eqn:Hl; try discriminate.
    assert (In (folder ++ rel) (visited (os_walk folder d))) as Hp
        by (apply (visited_os_walk _ _ _ Hwf Hls); eauto).
    exists (folder ++ rel). split; [|exact Hp].
    destruct (entry_of_visited _ _ _ Hwf Hp)
      as (rel' & b' & _ & Heq & _ & _ & ->).
    apply app_inv_head in Heq. now subst.
Qed.

Lemma zip_file_outside_local_dir :
  is_prefix (path_of LOCAL_DIR) (path_of ZIP_FILE) = false.
Proof. reflexivity. Qed.

(** A run of the main block in which every step succeeds, in full. *)
Lemma main_good_run w d1 :
  wf_fs (disk w) = true ->
  all_zippable (path_of LOCAL_DIR) (disk w) = true ->
  walk_reaches (path_of LOCAL_DIR) (path_of ZIP_FILE) (disk w) = false ->
  write_file (path_of ZIP_FILE) [] (disk w) = Ok d1 ->
  reachable (net w) = true ->
  accepts (net w) FTP_USER FTP_PASS = true ->
  has_dir (net w) REMOTE_DIR = true ->
  stor_refused (net w) = None ->
  exists d2 d3 w',
    write_file (path_of ZIP_FILE)
      (zip_image (map (record_of (disk w) (path_of LOCAL_DIR))
                      (visited (os_walk (path_of LOCAL_DIR) (disk w))))) d1
    = Ok d2
    /\ remove_file (path_of ZIP_FILE) d2 = Ok d3
    /\ main w = (Ok tt, w')
    /\ disk w' = d3
    /\ net w'
       = put_remote REMOTE_DIR ZIP_FILE
           (zip_image (map (record_of (disk w) (path_of LOCAL_DIR))
                           (visited (os_walk (path_of LOCAL_DIR) (disk w)))))
           (net w)
    /\ sessions w' = sessions w.
Proof.
  intros Hwf Hzip Hreach Hopen Hr Ha Hd Hs.
  destruct (zip_folder_good_run (path_of LOCAL_DIR) (path_of ZIP_FILE)
              (add_log (EvPrint "Zipping folder...") w) d1 Hwf Hzip Hopen
              zip_file_outside_local_dir Hreach)
    as [d2 (Hclose & _ & Hrun)].
  world_simpl_in Hclose.
  destruct (write_file_inode _ _ _ _ Hclose) as (i & m & Hi & _).
  destruct (remove_at_file (path_of ZIP_FILE) (path_of ZIP_FILE) (tree d2) i
              ltac:(discriminate) Hi)
    as [t3 Hrem].
  exists d2. eexists.
  rewrite main_eq, Hrun, upload_to_ftp_eq. cbv zeta.
  world_simpl. rewrite Hr, Ha, Hd, (read_write_file _ _ _ _ Hclose), Hs.
  rewrite os_remove_eq. unfold closed. world_simpl.
  unfold remove_file in *. rewrite Hrem.
  eexists. split; [exact Hclose|]. split; [reflexivity|].
  split; [reflexivity|].
  world_simpl. repeat split; reflexivity.
Qed.

(** X7.  The whole run.  On a well-formed disk where every directory
    under [LOCAL_DIR] can be listed and every file under it can be
    stored, and where [ZIP_FILE] can be opened for writing and is no
    hard link to a file under [LOCAL_DIR], with a server that is
    reachable, takes the login, has the directory and accepts the store,
    the main block returns normally; afterwards the server holds under
    [ZIP_FILE] in [REMOTE_DIR] one archive, whose entry names are
    exactly the ["/"]-joined relative paths of the regular files below
    [LOCAL_DIR]; the local archive is gone; every local path that was
    not a name of the archive's file is what it was before the run; and
    no connection is left open. *)
Theorem main_succeeds {zl : ZipLossless zf} (w : world) (d1 : fs) :
  wf_fs (disk w) = true ->
  listable_under (path_of LOCAL_DIR) (disk w) = true ->
  all_zippable (path_of LOCAL_DIR) (disk w) = true ->
  walk_reaches (path_of LOCAL_DIR) (path_of ZIP_FILE) (disk w) = false ->
  Forall (fun x => valid_name x = true) (path_of ZIP_FILE) ->
  write_file (path_of ZIP_FILE) [] (disk w) = Ok d1 ->
  reachable (net w) = true ->
  accepts (net w) FTP_USER FTP_PASS = true ->
  has_dir (net w) REMOTE_DIR = true ->
  stor_refused (net w) = None ->
  exists w' image entries,
    main w = (Ok tt, w')
    /\ (forall c, In (REMOTE_DIR, ZIP_FILE, c) (stored (net w')) <-> c = image)
    /\ zip_parse image = Some entries
    /\ (forall name,
           In name (map fst entries) <->
           exists rel,
             rel <> []
             /\ is_file (path_of LOCAL_DIR ++ rel) (disk w) = true
             /\ name = String.concat "/" rel)
    /\ stat (path_of ZIP_FILE) (disk w') = Absent
    /\ (forall q, same_ino q (path_of ZIP_FILE) d1 = false ->
                  stat q (disk w') = stat q (disk w))
    /\ sessions w' = sessions w.
Proof.
  intros Hwf Hls Hzip Hreach Hv Hopen Hr Ha Hd Hs.
  destruct (main_good_run w d1 Hwf Hzip Hreach Hopen Hr Ha Hd Hs)
    as (d2 & d3 & w' & Hclose & Hrem & Hmain & Hdisk & Hnet & Hses).
  assert (wf_fs d2 = true) as Hwf2.
  { apply (wf_fs_write_file _ _ _ _
             (wf_fs_write_file _ _ _ _ Hwf Hv Hopen) Hv Hclose). }
  destruct (stat_remove_file _ _ _ (wf_fs_tree _ Hwf2) Hrem) as [Habs Hframe].
  destruct (zip_folder_good_run (path_of LOCAL_DIR) (path_of ZIP_FILE)
              w d1 Hwf Hzip Hopen zip_file_outside_local_dir Hreach)
    as [d2' (_ & He & _)].
  exists w'. eexists. eexists. split; [exact Hmain|].
  rewrite Hnet, Hdisk.
  split; [|split; [apply zip_parse_image|split; [|split; [exact Habs|split;
    [|exact Hses]]]]].
  - intros c. rewrite in_put_remote. split.
    + intros [(_ & _ & ->)|[Hne _]]; [reflexivity|congruence].
    + intros ->. auto.
  - intros name. rewrite He.
    now apply entry_names_spec; [apply wf_fs_tree|].
  - intros q Hq.
    assert (q <> path_of ZIP_FILE) as Hne.
    { intros ->. destruct (write_file_inode _ _ _ _ Hopen) as (i & m & Hi & _).
      unfold same_ino, ino_at in Hq. rewrite Hi, Nat.eqb_refl in Hq.
      discriminate. }
    rewrite (Hframe q Hne).
    assert (same_ino q (path_of ZIP_FILE) d2 = false) as Hq2.
    { destruct (write_file_inv _ _ _ _ Hclose) as (_ & _ & [H|H]).
      - destruct H as (i & m & _ & _ & _ & Ht & _).
        unfold same_ino, ino_at, lookup in *. now rewrite Ht.
      - destruct H as (Hl & _).
        destruct (write_file_inode _ _ _ _ Hopen) as (i & m & Hi & _).
        congruence. }
    destruct (write_file_frame _ _ _ _ _ Hclose Hq2) as (-> & _).
    destruct (write_file_frame _ _ _ _ _ Hopen Hq) as (-> & _).
    reflexivity.
Qed.


End MainExtras.

(** ** The further properties on concrete worlds *)

(** X1 at the scenario of the spec: two files, two distinct names. *)
Lemma zip_folder_one_entry_per_file_witness :
  wf_fs (os := posixpath) (disk Demo.w0) = true
  /\ all_zippable (os := posixpath) Demo.folder (disk Demo.w0) = true
  /\ walk_reaches Demo.folder Demo.zip_outside (disk Demo.w0) = false
  /\ exists w' entries,
      zip_folder (os := posixpath) (zf := Stored.format)
        Demo.folder Demo.zip_outside Demo.w0 = (Ok tt, w')
      /\ read_archive (zf := Stored.format) Demo.zip_outside (disk w')
         = Some entries
      /\ NoDup (map fst entries)
      /\ List.length entries = 2.
Proof.
  do 3 (split; [vm_compute; reflexivity|]).
  exact (@zip_folder_one_entry_per_file posixpath Stored.format
           stored_lossless Demo.folder Demo.zip_outside Demo.w0
           (Demo.opened Demo.zip_outside (disk Demo.w0))
           eq_refl eq_refl eq_refl eq_refl eq_refl eq_refl).
Defined.

(** X2 at the same scenario. *)
Lemma zip_folder_twice_witness :
  wf_fs (os := posixpath) (disk Demo.w0) = true
  /\ exists w1 w2,
      zip_folder (os := posixpath) (zf := Stored.format)
        Demo.folder Demo.zip_outside Demo.w0 = (Ok tt, w1)
      /\ zip_folder (os := posixpath) (zf := Stored.format)
           Demo.folder Demo.zip_outside w1 = (Ok tt, w2)
      /\ disk w2 = disk w1.
Proof.
  split; [reflexivity|].
  apply (@zip_folder_twice posixpath Stored.format
           Demo.folder Demo.zip_outside Demo.w0
           (Demo.opened Demo.zip_outside (disk Demo.w0)));
    try reflexivity.
  repeat constructor.
Defined.

(** X3 between the slash and the backslash hosts. *)
Lemma zip_folder_host_independent_witness :
  wf_fs (os := posixpath) (disk Demo.w0) = true
  /\ wf_fs (os := ntpath) (disk Demo.w0) = true
  /\ exists entries,
      read_archive (zf := Stored.format) Demo.zip_outside
        (disk (snd (zip_folder (os := posixpath) (zf := Stored.format)
                      Demo.folder Demo.zip_outside Demo.w0)))
      = Some entries
      /\ read_archive (zf := Stored.format) Demo.zip_outside
           (disk (snd (zip_folder (os := ntpath) (zf := Stored.format)
                         Demo.folder Demo.zip_outside Demo.w0)))
         = Some entries.
Proof.
  split; [reflexivity|]. split; [reflexivity|].
  destruct (@zip_folder_host_independent posixpath ntpath Stored.format
              stored_lossless Demo.folder Demo.zip_outside Demo.w0
              (Demo.opened Demo.zip_outside (disk Demo.w0))
              eq_refl eq_refl eq_refl eq_refl eq_refl eq_refl eq_refl)
    as (entries & _ & _ & H1 & H2).
  exists entries. split; assumption.
Defined.

(** X4 with an archive on the disk and a cooperating server. *)
Lemma upload_stores_archive_witness :
  read_file Demo.zip_outside
    (Demo.disk_of (Dir [("sounds.zip", File 1)])
                  [(1, Demo.file_with Demo.hello)])
  = Ok Demo.hello
  /\ exists w',
      upload_to_ftp Demo.zip_outside
        (Demo.start (Demo.disk_of (Dir [("sounds.zip", File 1)])
                                  [(1, Demo.file_with Demo.hello)])
                    Demo.good_server)
      = (Ok tt, w')
      /\ (forall c, In (REMOTE_DIR, ZIP_FILE, c) (stored (net w'))
                    <-> c = Demo.hello).
Proof.
  split; [reflexivity|].
  destruct (upload_stores_archive Demo.zip_outside
              (Demo.start (Demo.disk_of (Dir [("sounds.zip", File 1)])
                                        [(1, Demo.file_with Demo.hello)])
                          Demo.good_server)
              Demo.hello eq_refl eq_refl eq_refl eq_refl eq_refl)
    as (w' & H1 & H2 & _).
  exists w'. split; assumption.
Defined.

(** X5 with a server that knows no account. *)
Lemma upload_rejected_login_witness :
  exists w',
    upload_to_ftp Demo.zip_outside
      (Demo.start Demo.cwd_tree
         {| reachable := true; bad_greeting := None; accounts := [];
            dirs := [REMOTE_DIR]; stor_refused := None; stor_keeps := None;
            stored := [] |})
    = (Raise (error_perm 530), w')
    /\ log w' = [EvConnect FTP_HOST; EvLogin FTP_USER; EvClose]
    /\ stored (net w') = [].
Proof.
  destruct (upload_rejected_login Demo.zip_outside
              (Demo.start Demo.cwd_tree
                 {| reachable := true; bad_greeting := None; accounts := [];
                    dirs := [REMOTE_DIR]; stor_refused := None;
                    stor_keeps := None; stored := [] |})
              eq_refl eq_refl)
    as (w' & H1 & _ & H3 & H4 & _).
  exists w'. rewrite H4. repeat split; assumption.
Defined.

(** X6 with a server that takes the whole archive and then refuses it,
    keeping three bytes. *)
Lemma upload_leaves_disk_witness :
  fst (upload_to_ftp Demo.zip_outside
         (Demo.start (Demo.disk_of (Dir [("sounds.zip", File 1)])
                                   [(1, Demo.file_with Demo.hello)])
                     Demo.full_server))
  = Raise (error_perm 552)
  /\ stored (net (snd (upload_to_ftp Demo.zip_outside
                         (Demo.start
                            (Demo.disk_of (Dir [("sounds.zip", File 1)])
                                          [(1, Demo.file_with Demo.hello)])
                            Demo.full_server))))
     = [(REMOTE_DIR, ZIP_FILE, list_byte_of_string "hel")].
Proof.
  destruct (upload_leaves_disk Demo.zip_outside
              (Demo.start (Demo.disk_of (Dir [("sounds.zip", File 1)])
                                        [(1, Demo.file_with Demo.hello)])
                          Demo.full_server)) as (_ & _ & H).
  destruct (H 552 Demo.hello eq_refl eq_refl eq_refl eq_refl eq_refl)
    as [H1 H2].
  split; [exact H1|]. rewrite H2. reflexivity.
Defined.

(** X7 at the scenario of the spec, end to end. *)
Lemma main_succeeds_witness :
  wf_fs (os := posixpath) (disk Demo.w0) = true
  /\ exists w' image entries,
      main (os := posixpath) (zf := Stored.format) Demo.w0 = (Ok tt, w')
      /\ (forall c, In (REMOTE_DIR, ZIP_FILE, c) (stored (net w'))
                    <-> c = image)
      /\ zip_parse (ZipFormat := Stored.format) image = Some entries
      /\ In "sub/b.txt" (map fst entries)
      /\ stat (path_of ZIP_FILE) (disk w') = Absent
      /\ stat (Demo.folder ++ ["a.txt"]) (disk w') = Regular Demo.hello.
Proof.
  split; [reflexivity|].
  destruct (@main_succeeds posixpath Stored.format stored_lossless Demo.w0
              (Demo.opened (path_of ZIP_FILE) (disk Demo.w0))
              eq_refl eq_refl eq_refl eq_refl ltac:(repeat constructor)
              eq_refl eq_refl eq_refl eq_refl eq_refl)
    as (w' & image & entries & H1 & H2 & H3 & H4 & H5 & H6 & _).
  exists w', image, entries. repeat split; try assumption.
  - apply H2.
  - apply H2.
  - apply H4. exists ["sub"; "b.txt"]. repeat split. discriminate.
  - rewrite H6 by reflexivity. reflexivity.
Defined.



(** X10 at the scenario of the spec, where the call returns, and on the
    tree with a file whose name is not UTF-8, where it does not. *)
Lemma zip_folder_returns_iff_storable_witness :
  fst (zip_folder (os := posixpath) (zf := Stored.format)
         Demo.folder Demo.zip_outside Demo.w0) = Ok tt
  /\ all_zippable (os := posixpath) Demo.folder Demo.tree_with_odd_name
     = false
  /\ fst (zip_folder (os := posixpath) (zf := Stored.format)
            Demo.folder Demo.zip_outside
            (Demo.start Demo.tree_with_odd_name Demo.good_server)) <> Ok tt.
Proof.
  split.
  - apply (@zip_folder_returns_iff_storable posixpath Stored.format
             Demo.folder Demo.zip_outside Demo.w0
             (Demo.opened Demo.zip_outside (disk Demo.w0)));
      reflexivity.
  - split; [reflexivity|]. intros H.
    apply (@zip_folder_returns_iff_storable posixpath Stored.format
             Demo.folder Demo.zip_outside
             (Demo.start Demo.tree_with_odd_name Demo.good_server)
             (Demo.opened Demo.zip_outside Demo.tree_with_odd_name)) in H;
      try reflexivity.
    discriminate H.
Defined.

(** X11 at the scenario of the spec: [a.txt] lies in the folder. *)
Lemma zip_folder_own_files_first_witness :
  lookup Demo.folder (disk Demo.w0) = Some Demo.sounds
  /\ exists w' entries,
      zip_folder (os := posixpath) (zf := Stored.format)
        Demo.folder Demo.zip_outside Demo.w0 = (Ok tt, w')
      /\ read_archive (zf := Stored.format) Demo.zip_outside (disk w')
         = Some entries
      /\ firstn 1 (map fst entries) = ["a.txt"].
Proof.
  split; [reflexivity|].
  exact (@zip_folder_own_files_first posixpath Stored.format stored_lossless
           Demo.folder Demo.zip_outside Demo.w0
           (Demo.opened Demo.zip_outside (disk Demo.w0))
           [("a.txt", File 1); ("sub", Dir [("b.txt", File 2)])]
           eq_refl eq_refl eq_refl eq_refl eq_refl eq_refl eq_refl).
Defined.
